(** * TSrepr: time-series representations (rle.cpp, helpers.cpp, representations.cpp)

    A shallow embedding of the C++ sources of the package and the
    properties of its run-length encoder, smoother, bit-level encoders,
    feature extractors and aggregators.

    Modelling conventions.
    - [double] is Rocq's primitive binary64 [float]: [==] is [PrimFloat.eqb],
      [<] is [PrimFloat.ltb], arithmetic is the IEEE arithmetic of the kernel.
    - [int] is [Z]; [/] and [%] on [int] are [Z.quot] and [Z.rem] (truncation
      towards zero).  Vectors are assumed to hold fewer than 2^31 elements,
      so sizes, indices and run lengths stay in the range of [int].  The
      arithmetic on the [int] parameters ([n - order], [pieces * 2]) is the
      arithmetic of [Z]: it is that of the code as long as the result is in
      the range of [int], and the statements about parameters outside the
      intended range name the values they cover.
    - [NumericVector], [IntegerVector] and [std::vector] are lists.  An
      element access [v[i]] outside [0 .. size-1] is undefined behaviour in
      the C++ code; here it is the error [OutOfBounds].  Subsetting by an
      index vector ([x[ind]]) is checked by Rcpp and raises [IndexError].
      Allocating a vector of negative size is refused by the R allocator
      ([NegativeLength]); [int] division by zero is [DivisionByZero].
    - An [Rcpp::Function] argument is a function from a vector to a
      [double] that may fail; [pure_fn] makes one from a pure, total
      aggregation. *)

From Stdlib Require Import ZArith List Lia Bool Floats Permutation.
Import ListNotations.

Set Implicit Arguments.

Local Open Scope Z_scope.

(** ** Errors and the result monad *)

Inductive error : Set :=
| OutOfBounds
| IndexError
| NegativeLength
| DivisionByZero.

Inductive result (A : Type) : Type :=
| Ok (a : A)
| Err (e : error).

Arguments Ok {A} a.
Arguments Err {A} e.

Definition bind {A B : Type} (r : result A) (k : A -> result B) : result B :=
  match r with
  | Ok a => k a
  | Err e => Err e
  end.

Notation "x <- r ;; k" := (bind r (fun x => k))
  (at level 61, r at next level, right associativity).

(** [for (int i = lo; i < hi; i++) st = body(i, st);] *)
Fixpoint for_count {St : Type} (count : nat) (i : Z)
    (body : Z -> St -> result St) (st : St) : result St :=
  match count with
  | O => Ok st
  | S c => st' <- body i st ;; for_count c (i + 1) body st'
  end.

Definition for_range {St : Type} (lo hi : Z)
    (body : Z -> St -> result St) (st : St) : result St :=
  for_count (Z.to_nat (hi - lo)) lo body st.

(** ** Vectors *)

Module Vec.

Definition size {A : Type} (v : list A) : Z := Z.of_nat (length v).

(** [v[i]], unchecked in C++. *)
Definition get {A : Type} (v : list A) (i : Z) : result A :=
  if i <? 0 then Err OutOfBounds
  else match nth_error v (Z.to_nat i) with
       | Some a => Ok a
       | None => Err OutOfBounds
       end.

Fixpoint update {A : Type} (v : list A) (n : nat) (a : A) : list A :=
  match v, n with
  | [], _ => []
  | _ :: t, O => a :: t
  | h :: t, S m => h :: update t m a
  end.

(** [v[i] = a], unchecked in C++. *)
Definition set {A : Type} (v : list A) (i : Z) (a : A) : result (list A) :=
  if (i <? 0) || (size v <=? i) then Err OutOfBounds
  else Ok (update v (Z.to_nat i) a).

(** [Vector v(n)]: [n] default-initialised elements. *)
Definition alloc {A : Type} (d : A) (n : Z) : result (list A) :=
  if n <? 0 then Err NegativeLength
  else Ok (repeat d (Z.to_nat n)).

(** [x[ind]] for an [IntegerVector ind]: Rcpp checks every index. *)
Fixpoint subset {A : Type} (x : list A) (ind : list Z) : result (list A) :=
  match ind with
  | [] => Ok []
  | i :: rest =>
      if (i <? 0) || (size x <=? i) then Err IndexError
      else
        match nth_error x (Z.to_nat i) with
        | Some a => t <- subset x rest ;; Ok (a :: t)
        | None => Err IndexError
        end
  end.

End Vec.

(** ** rle.cpp *)

Record rle : Type := mkRle { lengths : list Z; values : list float }.

Record rle_state : Type := mkRleState {
  st_lengths : list Z;
  st_values : list float;
  st_i : Z;
  st_prev : float
}.

(** Body of the scan, at iterator position [begin + k]. *)
Definition rle_body (x : list float) (k : Z) (st : rle_state)
    : result rle_state :=
  e <- Vec.get x k ;;
  if (st_prev st =? e)%float then
    l <- Vec.get (st_lengths st) (st_i st) ;;
    ls <- Vec.set (st_lengths st) (st_i st) (l + 1) ;;
    Ok (mkRleState ls (st_values st) (st_i st) (st_prev st))
  else
    Ok (mkRleState (st_lengths st ++ [1]) (st_values st ++ [e])
                   (st_i st + 1) e).

(** The iterator loop runs from [begin + 1] until [end]; for a non-empty
    vector these are the positions [1 .. n-1].  (For an empty vector the
    read of [x[0]] has already left the vector.) *)
Definition rleC (x : list float) : result rle :=
  prev <- Vec.get x 0 ;;
  st <- for_range 1 (Vec.size x) (rle_body x)
          (mkRleState [1] [prev] 0 prev) ;;
  Ok (mkRle (st_lengths st) (st_values st)).

(** Expansion of a run sequence: each value repeated its length times. *)
Fixpoint expand (ls : list Z) (vs : list float) : list float :=
  match ls, vs with
  | l :: ls', v :: vs' => repeat v (Z.to_nat l) ++ expand ls' vs'
  | _, _ => []
  end.

Definition sumZ (l : list Z) : Z := fold_right Z.add 0 l.

(** No two neighbours of the list are related by [R]. *)
Fixpoint no_adjacent {A : Type} (R : A -> A -> Prop) (l : list A) : Prop :=
  match l with
  | a :: ((b :: _) as t) => ~ R a b /\ no_adjacent R t
  | _ => True
  end.

(** Equality up to the sign of zero: what [==] decides on numbers. *)
Definition same_number (a b : float) : Prop :=
  a = b \/ (is_zero a = true /\ is_zero b = true).

(** ** Conversions between [int] and [double] *)

(** [(double) z]; exact for every [int]. *)
Definition int_to_double (z : Z) : float :=
  if z <? 0 then (- of_uint63 (Uint63.of_Z (- z)))%float
  else of_uint63 (Uint63.of_Z z).

Definition NA_INTEGER : Z := - 2147483648.

(** Coercion of a numeric vector element to an integer vector element
    (truncation towards zero; NA outside the range of [int]). *)
Definition double_to_int (d : float) : Z :=
  match Prim2SF d with
  | S754_zero _ => 0
  | S754_finite s m e =>
      let t := Z.shiftl (Zpos m) e in
      let v := if s then - t else t in
      if (NA_INTEGER <? v) && (v <? 2147483648) then v else NA_INTEGER
  | _ => NA_INTEGER
  end.

(** ** Standard algorithms used by the sources *)

(** [std::accumulate(first, last, init)] *)
Definition accumulate {A : Type} (f : float -> A -> float) (l : list A)
    (init : float) : float :=
  fold_left f l init.

(** [*std::max_element(first, last)] for the comparison [lt]; the end
    iterator of an empty range must not be dereferenced. *)
Definition max_element {A : Type} (lt : A -> A -> bool) (l : list A)
    : result A :=
  match l with
  | [] => Err OutOfBounds
  | h :: t => Ok (fold_left (fun m e => if lt m e then e else m) t h)
  end.

(** [*std::min_element(first, last)] *)
Definition min_element {A : Type} (lt : A -> A -> bool) (l : list A)
    : result A :=
  match l with
  | [] => Err OutOfBounds
  | h :: t => Ok (fold_left (fun m e => if lt e m then e else m) t h)
  end.

(** ** helpers.cpp *)

(** [n_ma = n - order] is an [int]: the definition follows the code for
    [n - order < 2^31]. *)
Definition repr_sma (x : list float) (order : Z) : result (list float) :=
  let n := Vec.size x in
  let n_ma := n - order in
  repr <- Vec.alloc 0%float n_ma ;;
  sum <- for_range 0 order
           (fun i sum => xi <- Vec.get x i ;; Ok (sum + xi)%float)
           0%float ;;
  repr <- Vec.set repr 0 (sum / int_to_double order)%float ;;
  for_range 1 n_ma
    (fun i repr =>
       r <- Vec.get repr (i - 1) ;;
       a <- Vec.get x (i + order) ;;
       b <- Vec.get x (i - 1) ;;
       Vec.set repr i
         (r + (a / int_to_double order) - (b / int_to_double order))%float)
    repr.

Definition maxC (x : list float) : result float := max_element ltb x.

Definition minC (x : list float) : result float := min_element ltb x.

Definition sumC (x : list float) : result float :=
  let n := Vec.size x in
  for_range 0 n
    (fun i total => xi <- Vec.get x i ;; Ok (total + xi)%float)
    0%float.

Definition meanC (x : list float) : result float :=
  let n := Vec.size x in
  total <- for_range 0 n
             (fun i total => xi <- Vec.get x i ;; Ok (total + xi)%float)
             0%float ;;
  Ok (total / int_to_double n)%float.

(** *** medianC

    [medianC] sorts a copy of its argument partially, so vectors live in a
    store and a [NumericVector] is a reference into it: copying the handle
    shares the data, [clone] allocates a fresh vector. *)

Definition loc : Set := nat.

Definition heap : Type := list (list float).

Definition deref (h : heap) (p : loc) : result (list float) :=
  match nth_error h p with
  | Some v => Ok v
  | None => Err OutOfBounds
  end.

Definition clone (h : heap) (p : loc) : result (heap * loc) :=
  v <- deref h p ;; Ok (h ++ [v], length h).

Definition store (h : heap) (p : loc) (v : list float) : heap :=
  Vec.update h p v.

Section Median.

(** [std::nth_element] on a whole range: [select l k] rearranges [l] so
    that position [k] holds the element a sort would put there.  Which
    rearrangement is chosen is left to the standard library. *)
Variable select : list float -> nat -> list float.

(** [std::nth_element(v.begin() + first, v.begin() + nth, v.begin() + last)] *)
Definition nth_element (v : list float) (first nth last : Z)
    : result (list float) :=
  if (0 <=? first) && (first <=? nth) && (nth <=? last)
     && (last <=? Vec.size v)
  then
    let f := Z.to_nat first in
    let l := Z.to_nat last in
    Ok (firstn f v
        ++ select (firstn (l - f) (skipn f v)) (Z.to_nat (nth - first))
        ++ skipn l v)
  else Err OutOfBounds.

Definition medianC (h : heap) (x : loc) : result (heap * float) :=
  c <- clone h x ;;
  let '(h, y) := c in
  v <- deref h y ;;
  let n := Vec.size v in
  let half := Z.quot n 2 in
  if Z.rem n 2 =? 1 then
    v <- nth_element v 0 half n ;;
    let h := store h y v in
    r <- Vec.get v half ;;
    Ok (h, r)
  else
    v <- nth_element v 0 half n ;;
    let h := store h y v in
    y1 <- Vec.get v half ;;
    v <- nth_element v 0 (half - 1) half ;;
    let h := store h y v in
    y2 <- Vec.get v (half - 1) ;;
    Ok (h, ((y1 + y2) / 2)%float).

End Median.

(** Insertion sort by [<=]: one admissible behaviour of [std::nth_element]. *)
Fixpoint insert_sorted (a : float) (l : list float) : list float :=
  match l with
  | [] => [a]
  | b :: t => if (a <=? b)%float then a :: l else b :: insert_sorted a t
  end.

Fixpoint sort (l : list float) : list float :=
  match l with
  | [] => []
  | a :: t => insert_sorted a (sort t)
  end.

Definition select_by_sort (l : list float) (k : nat) : list float := sort l.

(** The postcondition of [std::nth_element] for [<] on vectors without NaN:
    the result is a rearrangement, the element at position [k] is the one a
    sort would put there, and no element after position [k] is less than
    one before it.  In one formula: no element at a position [j >= k] is
    less than an element at a position [i <= k]. *)
Definition nth_element_post (select : list float -> nat -> list float) : Prop :=
  forall (l : list float) (k : nat),
    Permutation (select l k) l /\
    (Forall (fun e => is_nan e = false) l ->
     forall (i j : nat) (a b : float),
       (i <= k)%nat -> (k <= j)%nat ->
       nth_error (select l k) i = Some a ->
       nth_error (select l k) j = Some b ->
       (b <? a)%float = false).

(** [l] in non-decreasing order. *)
Fixpoint sorted (l : list float) : Prop :=
  match l with
  | a :: ((b :: _) as t) => (a <=? b)%float = true /\ sorted t
  | _ => True
  end.

(** ** representations.cpp *)

Definition gtb (a b : float) : bool := (b <? a)%float.

Definition clipping (x : list float) : result (list Z) :=
  let n := Vec.size x in
  bitLevel <- Vec.alloc 0 n ;;
  let x_mean := (accumulate add x 0 / int_to_double n)%float in
  for_range 0 n
    (fun i bitLevel =>
       xi <- Vec.get x i ;;
       if gtb xi x_mean then Vec.set bitLevel i 1
       else Vec.set bitLevel i 0)
    bitLevel.

Definition trending (x : list float) : result (list Z) :=
  let n := Vec.size x in
  repr <- Vec.alloc 0 (n - 1) ;;
  for_range 0 (n - 1)
    (fun i repr =>
       a <- Vec.get x i ;;
       b <- Vec.get x (i + 1) ;;
       if (a - b <? 0)%float then Vec.set repr i 1
       else Vec.set repr i 0)
    repr.

(** First pass over the runs: count the runs of zeros and the others. *)
Definition count_body (values : list Z) (i : Z) (st : Z * Z)
    : result (Z * Z) :=
  let '(z, o) := st in
  v <- Vec.get values i ;;
  if v =? 0 then Ok (z + 1, o) else Ok (z, o + 1).

(** Second pass: store each run length into [zeros] or [ones]. *)
Definition fill_body (lengths values : list Z) (i : Z)
    (st : list Z * list Z * Z * Z) : result (list Z * list Z * Z * Z) :=
  let '(zeros, ones, z, o) := st in
  v <- Vec.get values i ;;
  if v =? 0 then
    l <- Vec.get lengths i ;;
    zeros <- Vec.set zeros z l ;;
    Ok (zeros, ones, z + 1, o)
  else
    l <- Vec.get lengths i ;;
    ones <- Vec.set ones o l ;;
    Ok (zeros, ones, z, o + 1).

(** [if (values[i] == v) representation[slot] = lengths[i];
     else representation[slot] = 0;] *)
Definition edge_feature (representation : list float) (lengths values : list Z)
    (i v slot : Z) : result (list float) :=
  vi <- Vec.get values i ;;
  if vi =? v then
    l <- Vec.get lengths i ;;
    Vec.set representation slot (int_to_double l)
  else Vec.set representation slot 0%float.

Definition repr_feaclip (x : list float) : result (list float) :=
  representation <- Vec.alloc 0%float 8 ;;
  bits <- clipping x ;;
  let y := map int_to_double bits in
  encode <- rleC y ;;
  let lengths := lengths encode in
  let values := map double_to_int (values encode) in
  let N := Vec.size values in
  representation <- Vec.set representation 3 (int_to_double (N - 1)) ;;
  representation <- edge_feature representation lengths values 0 0 4 ;;
  representation <- edge_feature representation lengths values 0 1 6 ;;
  representation <- edge_feature representation lengths values (N - 1) 0 5 ;;
  representation <- edge_feature representation lengths values (N - 1) 1 7 ;;
  jk <- for_range 0 N (count_body values) (0, 0) ;;
  let '(j, k) := jk in
  zeros <- Vec.alloc 0 j ;;
  ones <- Vec.alloc 0 k ;;
  filled <- for_range 0 N (fill_body lengths values) (zeros, ones, 0, 0) ;;
  let '(zeros, ones, _, _) := filled in
  representation <-
    (if Vec.size ones =? 0 then
       representation <- Vec.set representation 0 0%float ;;
       Vec.set representation 1 0%float
     else
       m <- max_element Z.ltb ones ;;
       representation <- Vec.set representation 0 (int_to_double m) ;;
       Vec.set representation 1
         (accumulate (fun acc l => acc + int_to_double l)%float ones 0%float)) ;;
  if Vec.size zeros =? 0 then Vec.set representation 2 0%float
  else
    m <- max_element Z.ltb zeros ;;
    Vec.set representation 2 (int_to_double m).

(** [a / b] and [a % b] on [int]. *)
Definition int_div (a b : Z) : result Z :=
  if b =? 0 then Err DivisionByZero else Ok (Z.quot a b).

Definition int_rem (a b : Z) : result Z :=
  if b =? 0 then Err DivisionByZero else Ok (Z.rem a b).

(** One round of the loop over the pieces of [repr_featrend].  The counters
    [o] and [z] are declared before the loop and live across its rounds. *)
Definition featrend_piece (func : list Z -> result float)
    (sma_x : list float) (n_piece : Z) (j : Z)
    (st : list float * list Z * Z * Z)
    : result (list float * list Z * Z * Z) :=
  let '(repr, x_ind, o, z) := st in
  x_ind <- for_range 0 n_piece
             (fun i x_ind => Vec.set x_ind i (i + n_piece * j)) x_ind ;;
  block <- Vec.subset sma_x x_ind ;;
  bits <- trending block ;;
  let y := map int_to_double bits in
  encode <- rleC y ;;
  let lengths := lengths encode in
  let values := map double_to_int (values encode) in
  let N := Vec.size values in
  zo <- for_range 0 N (count_body values) (z, o) ;;
  let '(z, o) := zo in
  zeros <- Vec.alloc 0 z ;;
  ones <- Vec.alloc 0 o ;;
  filled <- for_range 0 N (fill_body lengths values) (zeros, ones, 0, 0) ;;
  let '(zeros, ones, z, o) := filled in
  repr <-
    (if Vec.size ones =? 0 then Vec.set repr (j * 2) 0%float
     else r <- func ones ;; Vec.set repr (j * 2) r) ;;
  repr <-
    (if Vec.size zeros =? 0 then Vec.set repr (j * 2 + 1) 0%float
     else r <- func zeros ;; Vec.set repr (j * 2 + 1) r) ;;
  Ok (repr, x_ind, o, z).

(** [pieces * 2] is an [int]: the definition follows the code for
    [-2^30 <= pieces < 2^30]. *)
Definition repr_featrend (x : list float) (func : list Z -> result float)
    (pieces order : Z) : result (list float) :=
  sma_x <- repr_sma x order ;;
  repr <- Vec.alloc 0%float (pieces * 2) ;;
  let n := Vec.size sma_x in
  n_piece <- int_div n pieces ;;
  x_ind <- Vec.alloc 0 n_piece ;;
  st <- for_range 0 pieces (featrend_piece func sma_x n_piece)
          (repr, x_ind, 0, 0) ;;
  let '(repr, _, _, _) := st in
  Ok repr.

(** [pieces * 2] is an [int], as in [repr_featrend]. *)
Definition repr_feacliptrend (x : list float) (func : list Z -> result float)
    (pieces order : Z) : result (list float) :=
  _ <- Vec.alloc 0%float 8 ;;
  _ <- Vec.alloc 0%float (pieces * 2) ;;
  repr_clip <- repr_feaclip x ;;
  repr_trend <- repr_featrend x func pieces order ;;
  Ok (repr_clip ++ repr_trend).

(** One full block of [repr_paa]. *)
Definition paa_block (func : list float -> result float)
    (x : list float) (q : Z) (i : Z) (st : list float * list Z)
    : result (list float * list Z) :=
  let '(repr, sub_x) := st in
  sub_x <- for_range 0 q
             (fun j sub_x => Vec.set sub_x j (i * q + j)) sub_x ;;
  block <- Vec.subset x sub_x ;;
  r <- func block ;;
  repr <- Vec.set repr i r ;;
  Ok (repr, sub_x).

Definition repr_paa (x : list float) (q : Z)
    (func : list float -> result float) : result (list float) :=
  let n := Vec.size x in
  n_paa <- int_div n q ;;
  remain <- int_rem n q ;;
  let remain_count := n - n_paa * q in
  let n_paa := if negb (remain =? 0) then n_paa + 1 else n_paa in
  repr <- Vec.alloc 0%float n_paa ;;
  sub_x <- Vec.alloc 0 q ;;
  sub_rem <- Vec.alloc 0 remain_count ;;
  if remain =? 0 then
    st <- for_range 0 n_paa (paa_block func x q) (repr, sub_x) ;;
    Ok (fst st)
  else
    st <- for_range 0 (n_paa - 1) (paa_block func x q) (repr, sub_x) ;;
    let repr := fst st in
    sub_rem <- for_range 0 remain_count
                 (fun j sub_rem => Vec.set sub_rem j ((n_paa - 1) * q + j))
                 sub_rem ;;
    block <- Vec.subset x sub_rem ;;
    r <- func block ;;
    Vec.set repr (n_paa - 1) r.

(** One phase of [repr_seas_profile]. *)
Definition seas_phase (func : list float -> result float)
    (x : list float) (freq freq_times : Z) (i : Z)
    (st : list float * list Z) : result (list float * list Z) :=
  let '(repr, ind) := st in
  ind <- for_range 0 freq_times
           (fun j ind => Vec.set ind j (j * freq + i)) ind ;;
  block <- Vec.subset x ind ;;
  r <- func block ;;
  repr <- Vec.set repr i r ;;
  Ok (repr, ind).

Definition repr_seas_profile (x : list float) (freq : Z)
    (func : list float -> result float) : result (list float) :=
  repr <- Vec.alloc 0%float freq ;;
  let n := Vec.size x in
  freq_times <- int_div n freq ;;
  ind <- Vec.alloc 0 freq_times ;;
  st <- for_range 0 freq (seas_phase func x freq freq_times) (repr, ind) ;;
  Ok (fst st).

(** A pure, total aggregation function as an [Rcpp::Function]. *)
Definition pure_fn {A : Type} (agg : list A -> float) : list A -> result float :=
  fun l => Ok (agg l).

(** ** Notions of the specification *)

(** The lengths of the runs whose value satisfies [p], in run order. *)
Fixpoint select_lengths (p : Z -> bool) (lengths values : list Z) : list Z :=
  match lengths, values with
  | l :: ls, w :: ws =>
      if p w then l :: select_lengths p ls ws else select_lengths p ls ws
  | _, _ => []
  end.

(** The lengths of the runs whose value is [v]. *)
Definition run_lengths (v : Z) (lengths values : list Z) : list Z :=
  select_lengths (fun w => w =? v) lengths values.

Definition max_or_zero (l : list Z) : Z := fold_right Z.max 0 l.

(** [count] consecutive blocks of [q] elements each, from the front. *)
Fixpoint full_blocks {A : Type} (q count : nat) (x : list A) : list (list A) :=
  match count with
  | O => []
  | S c => firstn q x :: full_blocks q c (skipn q x)
  end.

(** The blocks of the piecewise aggregate: [floor(n/q)] full blocks, then
    the [n mod q] remaining elements as a last block when there are any. *)
Definition paa_blocks {A : Type} (q : nat) (x : list A) : list (list A) :=
  let n := length x in
  full_blocks q (n / q) x
  ++ (if (n mod q =? 0)%nat then [] else [skipn (q * (n / q)) x]).

(** The values at indices [i, i + freq, ..., i + (cycles - 1) * freq]. *)
Definition phase_values (x : list float) (freq cycles i : nat) : list float :=
  map (fun j => nth (i + j * freq) x 0%float) (seq 0 cycles).

(** Block [j] of the smoothed signal. *)
Definition piece_block (s : list float) (n_piece j : nat) : list float :=
  firstn n_piece (skipn (j * n_piece) s).

(** Closeness up to rounding: within [2^-40] of the target. *)
Definition close_to (a b : float) : bool :=
  (abs (a - b) <? 0x1p-40)%float.

Fixpoint all_close (l m : list float) : bool :=
  match l, m with
  | [], [] => true
  | a :: l', b :: m' => close_to a b && all_close l' m'
  | _, _ => false
  end.

(** ** Loop invariants *)

(** State of the scan of [rleC] before position [k]: the last run is the
    open one, [st_i] is its index and [st_prev] its value. *)
Definition rle_inv (x : list float) (k : Z) (st : rle_state) : Prop :=
  exists (ls : list Z) (l : Z) (vs : list float),
    st_lengths st = ls ++ [l] /\
    st_values st = vs ++ [st_prev st] /\
    st_i st = Z.of_nat (length ls) /\
    length ls = length vs /\
    1 <= k <= Vec.size x /\
    Forall (fun l => 1 <= l) (st_lengths st) /\
    sumZ (st_lengths st) = k /\
    Forall2 same_number (expand (st_lengths st) (st_values st))
            (firstn (Z.to_nat k) x) /\
    no_adjacent (fun v w => (v =? w)%float = true) (st_values st) /\
    Forall (fun v => In v x) (st_values st).

(** The indices [0, 1, ..., m-1]. *)
Definition indices (m : nat) : list Z := map Z.of_nat (seq 0 m).

(** A vector whose first [k] elements are given by [f] and whose others are
    still those of [v0]. *)
Definition filled_to {A : Type} (f : Z -> A) (v0 : list A) (k : Z)
    (v : list A) : Prop :=
  v = map f (indices (Z.to_nat k)) ++ skipn (Z.to_nat k) v0.

(** The smoothed value at index [i], as the recurrence defines it:
    [output[0] = (x[0] + ... + x[order-1]) / order] and
    [output[i] = output[i-1] + x[i+order]/order - x[i-1]/order]. *)
Fixpoint sma_elem (x : list float) (order : Z) (i : nat) : float :=
  match i with
  | O =>
      (fold_left add (firstn (Z.to_nat order) x) 0 / int_to_double order)%float
  | S j =>
      (sma_elem x order j
       + nth (Z.to_nat (Z.of_nat (S j) + order)) x 0 / int_to_double order
       - nth j x 0 / int_to_double order)%float
  end.

Definition sma_spec (x : list float) (order : Z) : list float :=
  map (sma_elem x order) (seq 0 (Z.to_nat (Vec.size x - order))).

(** The maximum as a total aggregation function ([maxC] on a non-empty
    vector). *)
Definition agg_max (l : list float) : float :=
  match maxC l with
  | Ok m => m
  | Err _ => nan
  end.

(** State of the counting pass before run [k]. *)
Definition count_inv (values : list Z) (z0 o0 : Z) (k : Z) (st : Z * Z) : Prop :=
  st = (z0 + Vec.size (filter (fun v => v =? 0) (firstn (Z.to_nat k) values)),
        o0 + Vec.size (filter (fun v => negb (v =? 0)) (firstn (Z.to_nat k) values))).

(** State of the filling pass before run [k]: the lengths selected so far,
    followed by what the vectors held at those positions before. *)
Definition fill_inv (lengths values zeros0 ones0 : list Z) (k : Z)
    (st : list Z * list Z * Z * Z) : Prop :=
  let zs := select_lengths (fun v => v =? 0)
              (firstn (Z.to_nat k) lengths) (firstn (Z.to_nat k) values) in
  let os := select_lengths (fun v => negb (v =? 0))
              (firstn (Z.to_nat k) lengths) (firstn (Z.to_nat k) values) in
  st = (zs ++ skipn (length zs) zeros0, os ++ skipn (length os) ones0,
        Vec.size zs, Vec.size os).

(** [minC] called on a vector of [int]: the elements are converted to
    [double] first. *)
Definition minC_int (l : list Z) : result float := minC (map int_to_double l).

(** [maxC] called on a vector of [int]. *)
Definition maxC_int (l : list Z) : result float := maxC (map int_to_double l).

(** [N * 2^k] on positive numbers, for [k >= 0]: a shift of the mantissa. *)
Definition pshl (N : positive) (k : Z) : positive :=
  match k with
  | Zpos p => Pos.iter xO N p
  | _ => N
  end.

(** The binary64 representation of a positive integer below [2^53]: the
    mantissa shifted to 53 digits. *)
Definition canonical_int (N : positive) : spec_float :=
  S754_finite false (pshl N (53 - Zpos (digits2_pos N)))
              (Zpos (digits2_pos N) - 53).

(** The lengths of the runs of value [v] in piece [j] of the smoothed
    signal [s], in run order. *)
Definition piece_run_lengths (s : list float) (n_piece j : nat) (v : Z)
    : list Z :=
  match trending (piece_block s n_piece j) with
  | Ok b =>
      match rleC (map int_to_double b) with
      | Ok r => run_lengths v (lengths r) (map double_to_int (values r))
      | Err _ => []
      end
  | Err _ => []
  end.

(** What [repr_featrend] hands to [func] for value [v] in piece [j]: the
    run lengths of the piece, then one [0] for every run of value [v] of
    the piece before. *)
Definition piece_argument (s : list float) (n_piece j : nat) (v : Z)
    : list Z :=
  piece_run_lengths s n_piece j v
  ++ repeat 0 (match j with
               | O => O
               | S i => length (piece_run_lengths s n_piece i v)
               end).

Definition piece_feature (agg : list Z -> float) (s : list float)
    (n_piece j : nat) (v : Z) : float :=
  match piece_argument s n_piece j v with
  | [] => 0%float
  | l => agg l
  end.

(** State of the loop over the pieces before piece [j]. *)
Definition featrend_inv (agg : list Z -> float) (s : list float)
    (n_piece : nat) (repr0 : list float) (j : Z)
    (st : list float * list Z * Z * Z) : Prop :=
  let '(repr, x_ind, o, z) := st in
  repr = flat_map (fun i => [piece_feature agg s n_piece i 1;
                             piece_feature agg s n_piece i 0])
                  (seq 0 (Z.to_nat j))
         ++ skipn (2 * Z.to_nat j) repr0 /\
  length x_ind = n_piece /\
  o = Z.of_nat (match Z.to_nat j with
                | O => O
                | S i => length (piece_run_lengths s n_piece i 1)
                end) /\
  z = Z.of_nat (match Z.to_nat j with
                | O => O
                | S i => length (piece_run_lengths s n_piece i 0)
                end).

(** ** Runs of a scan *)

(** The runs the scan of [rleC] produces over the rest [l] of a vector when
    the open run has the value [prev] and [count] elements so far. *)
Fixpoint runs_from (prev : float) (count : Z) (l : list float)
    : list (Z * float) :=
  match l with
  | [] => [(count, prev)]
  | e :: t =>
      if (prev =? e)%float then runs_from prev (count + 1) t
      else (count, prev) :: runs_from e 1 t
  end.

(** The elements of [l] that do not compare [==] to their left neighbour;
    the left neighbour of the first one is [p]. *)
Fixpoint new_runs (p : float) (l : list float) : list float :=
  match l with
  | [] => []
  | e :: t => if (p =? e)%float then new_runs e t else e :: new_runs e t
  end.

(** The number of neighbours of a bit vector that differ. *)
Fixpoint crossings (bits : list Z) : Z :=
  match bits with
  | a :: ((b :: _) as t) => (if a =? b then 0 else 1) + crossings t
  | _ => 0
  end.

(** The number of ones of a bit vector. *)
Definition count_ones (bits : list Z) : Z :=
  Vec.size (filter (fun b => b =? 1) bits).

(** The mean of the window of [order] elements that starts at index [i],
    computed directly. *)
Definition window_mean (x : list float) (order : Z) (i : nat) : float :=
  (fold_left add (firstn (Z.to_nat order) (skipn i x)) 0
   / int_to_double order)%float.

(** ** Aggregation functions as total functions *)

(** The minimum as a total aggregation function ([minC] on a non-empty
    vector). *)
Definition agg_min (l : list float) : float :=
  match minC l with
  | Ok m => m
  | Err _ => nan
  end.

(** [sumC] called on a vector of [int]. *)
Definition sumC_int (l : list Z) : result float := sumC (map int_to_double l).

(** The maximum, the minimum and the sum of a vector of [int], as
    [double]. *)
Definition agg_max_int (l : list Z) : float := agg_max (map int_to_double l).

Definition agg_min_int (l : list Z) : float := agg_min (map int_to_double l).

Definition agg_sum_int (l : list Z) : float :=
  fold_left add (map int_to_double l) 0%float.

(** The feature of piece [j] for the value [v] computed from the runs of
    the piece alone: the aggregate of their lengths, [0] without such a
    run. *)
Definition piece_feature_clean (agg : list Z -> float) (s : list float)
    (n_piece j : nat) (v : Z) : float :=
  match piece_run_lengths s n_piece j v with
  | [] => 0%float
  | l => agg l
  end.

Unset Implicit Arguments.

(** * Properties *)

(** ** The result monad and counted loops *)


(** Total-correctness rule for a counted loop: an invariant that every
    round re-establishes holds when the loop ends, and the loop ends
    without error. *)
Lemma for_count_inv {St : Type} (P : Z -> St -> Prop)
    (body : Z -> St -> result St) :
  forall (count : nat) (i : Z) (st : St),
    P i st ->
    (forall k s, i <= k < i + Z.of_nat count -> P k s ->
                 exists s', body k s = Ok s' /\ P (k + 1) s') ->
    exists s', for_count count i body st = Ok s' /\ P (i + Z.of_nat count) s'.
Proof.
  induction count as [|c IH]; intros i st HP Hstep.
  - exists st. simpl. rewrite Z.add_0_r. auto.
  - destruct (Hstep i st) as [s1 [Hb HP1]]; [lia | assumption |].
    destruct (IH (i + 1) s1 HP1) as [s' [Hf HP']].
    + intros k s Hk HPk. apply Hstep; [lia | assumption].
    + exists s'. cbn [for_count]. rewrite Hb. cbn [bind]. split; [exact Hf|].
      replace (i + Z.of_nat (S c)) with (i + 1 + Z.of_nat c) by lia.
      exact HP'.
Qed.

Lemma for_range_inv {St : Type} (P : Z -> St -> Prop)
    (body : Z -> St -> result St) (lo hi : Z) (st : St) :
  lo <= hi ->
  P lo st ->
  (forall k s, lo <= k < hi -> P k s ->
               exists s', body k s = Ok s' /\ P (k + 1) s') ->
  exists s', for_range lo hi body st = Ok s' /\ P hi s'.
Proof.
  intros Hle HP Hstep. unfold for_range.
  destruct (for_count_inv P body (Z.to_nat (hi - lo)) lo st HP) as [s' [H1 H2]].
  - intros k s Hk. apply Hstep. lia.
  - exists s'. split; [exact H1|].
    replace (lo + Z.of_nat (Z.to_nat (hi - lo))) with hi in H2 by lia.
    exact H2.
Qed.

Lemma for_range_empty {St : Type} (body : Z -> St -> result St)
    (lo hi : Z) (st : St) :
  hi <= lo -> for_range lo hi body st = Ok st.
Proof.
  intros H. unfold for_range.
  replace (Z.to_nat (hi - lo)) with O by lia. reflexivity.
Qed.

(** ** Vector accesses *)

Lemma size_nonneg {A : Type} (v : list A) : 0 <= Vec.size v.
Proof. unfold Vec.size. lia. Qed.

Lemma size_app {A : Type} (v w : list A) :
  Vec.size (v ++ w) = Vec.size v + Vec.size w.
Proof. unfold Vec.size. rewrite length_app. lia. Qed.

Lemma get_ok {A : Type} (v : list A) (i : Z) (d : A) :
  0 <= i < Vec.size v -> Vec.get v i = Ok (nth (Z.to_nat i) v d).
Proof.
  unfold Vec.get, Vec.size. intros H.
  destruct (Z.ltb_spec i 0); [lia|].
  rewrite (nth_error_nth' v d) by lia. reflexivity.
Qed.

Lemma get_out {A : Type} (v : list A) (i : Z) :
  i < 0 \/ Vec.size v <= i -> Vec.get v i = Err OutOfBounds.
Proof.
  unfold Vec.get, Vec.size. intros H.
  destruct (Z.ltb_spec i 0); [reflexivity|].
  destruct (nth_error v (Z.to_nat i)) eqn:E; [|reflexivity].
  assert (Hlt : (Z.to_nat i < length v)%nat)
    by (apply nth_error_Some; congruence).
  lia.
Qed.

Lemma set_ok {A : Type} (v : list A) (i : Z) (a : A) :
  0 <= i < Vec.size v -> Vec.set v i a = Ok (Vec.update v (Z.to_nat i) a).
Proof.
  unfold Vec.set. intros H.
  destruct (Z.ltb_spec i 0); [lia|].
  destruct (Z.leb_spec (Vec.size v) i); [lia|]. reflexivity.
Qed.


Lemma update_length {A : Type} (v : list A) (n : nat) (a : A) :
  length (Vec.update v n a) = length v.
Proof.
  revert n. induction v as [|h t IH]; intros [|n]; simpl; auto.
Qed.

Lemma update_app_last {A : Type} (v : list A) (b a : A) :
  Vec.update (v ++ [b]) (length v) a = v ++ [a].
Proof.
  induction v as [|h t IH]; simpl; [reflexivity | now rewrite IH].
Qed.

Lemma update_app_head {A : Type} (v w : list A) (b a : A) :
  Vec.update (v ++ b :: w) (length v) a = v ++ a :: w.
Proof.
  induction v as [|h t IH]; simpl; [reflexivity | now rewrite IH].
Qed.

Lemma nth_app_last {A : Type} (v : list A) (b d : A) :
  nth (length v) (v ++ [b]) d = b.
Proof.
  rewrite app_nth2 by lia. now rewrite Nat.sub_diag.
Qed.

Lemma alloc_ok {A : Type} (d : A) (n : Z) :
  0 <= n -> Vec.alloc d n = Ok (repeat d (Z.to_nat n)).
Proof.
  unfold Vec.alloc. intros H. destruct (Z.ltb_spec n 0); [lia | reflexivity].
Qed.

Lemma firstn_succ_nth {A : Type} (x : list A) (k : nat) (d : A) :
  (k < length x)%nat -> firstn (S k) x = firstn k x ++ [nth k x d].
Proof.
  revert k. induction x as [|h t IH]; intros k Hk; simpl in Hk; [lia|].
  destruct k as [|k]; [reflexivity|].
  cbn [firstn nth app]. f_equal. apply IH. lia.
Qed.

(** ** Comparison of doubles *)

Lemma Prim2SF_zero : Prim2SF zero = S754_zero false.
Proof. reflexivity. Qed.

Lemma is_zero_spec (a : float) :
  is_zero a = true <-> exists s, Prim2SF a = S754_zero s.
Proof.
  unfold is_zero. rewrite eqb_spec, Prim2SF_zero.
  destruct (Prim2SF a) as [s| s | | s m e]; cbn; split;
    try discriminate; try (intros [s' H']; discriminate); eauto.
  - destruct s; discriminate.
  - destruct s; discriminate.
Qed.

(** [==] holds between bit-identical numbers and between zeros only. *)
Lemma eqb_true_same (a b : float) :
  (a =? b)%float = true -> same_number a b.
Proof.
  intros H. unfold same_number.
  destruct (Prim2SF a) as [sa| sa | | sa ma ea] eqn:Ea;
  destruct (Prim2SF b) as [sb| sb | | sb mb eb] eqn:Eb;
    rewrite eqb_spec, Ea, Eb in H; cbn in H; try discriminate;
    try solve [destruct sa; discriminate | destruct sb; discriminate].
  - right. split; apply is_zero_spec; eauto.
  - left. apply Prim2SF_inj. rewrite Ea, Eb.
    destruct sa, sb; try discriminate; reflexivity.
  - left. apply Prim2SF_inj. rewrite Ea, Eb.
    unfold SFeqb, SFcompare in H.
    destruct sa, sb; try discriminate;
      destruct (Z.compare_spec ea eb); try discriminate; subst;
      rewrite Pos.compare_cont_spec in H; cbn in H;
      destruct (Pos.compare_spec ma mb); try discriminate; subst; reflexivity.
Qed.

Lemma zero_sign (a : float) :
  is_zero a = true -> a = zero \/ a = neg_zero.
Proof.
  intros H. apply is_zero_spec in H. destruct H as [s Hs].
  rewrite <- (SF2Prim_Prim2SF a), Hs. destruct s; cbn; auto.
Qed.

Lemma same_number_exact (a b : float) :
  a <> neg_zero -> b <> neg_zero -> same_number a b -> a = b.
Proof.
  intros Ha Hb [H | [Za Zb]]; [exact H|].
  destruct (zero_sign a Za), (zero_sign b Zb); congruence.
Qed.

(** ** The run-length encoder *)

Lemma expand_app (ls ls' : list Z) (vs vs' : list float) :
  length ls = length vs ->
  expand (ls ++ ls') (vs ++ vs') = expand ls vs ++ expand ls' vs'.
Proof.
  revert vs. induction ls as [|l ls IH]; intros [|v vs] H; simpl in *;
    try discriminate; [reflexivity|].
  rewrite IH by congruence. now rewrite app_assoc.
Qed.


Lemma sumZ_app (l m : list Z) : sumZ (l ++ m) = sumZ l + sumZ m.
Proof.
  unfold sumZ. induction l as [|a l IH]; simpl; [reflexivity | lia].
Qed.

Lemma repeat_succ_last {A : Type} (a : A) (n : nat) :
  repeat a (S n) = repeat a n ++ [a].
Proof.
  induction n as [|n IH]; [reflexivity|].
  change (repeat a (S (S n))) with (a :: repeat a (S n)).
  rewrite IH at 1. reflexivity.
Qed.

Lemma no_adjacent_snoc {A : Type} (R : A -> A -> Prop) (vs : list A) (v e : A) :
  no_adjacent R (vs ++ [v]) -> ~ R v e -> no_adjacent R ((vs ++ [v]) ++ [e]).
Proof.
  induction vs as [|a vs IH]; intros H Hn.
  - simpl. auto.
  - destruct vs as [|b vs].
    + simpl in *. tauto.
    + change (no_adjacent R (a :: ((b :: vs) ++ [v]) ++ [e])).
      change (no_adjacent R (a :: (b :: vs) ++ [v])) in H.
      cbn [app no_adjacent] in *. destruct H as [H1 H2].
      split; [exact H1|]. apply IH; assumption.
Qed.

Lemma rle_inv_init (x : list float) (prev : float) :
  x <> [] -> In prev x -> nth 0 x 0%float = prev ->
  rle_inv x 1 (mkRleState [1] [prev] 0 prev).
Proof.
  intros Hne Hin Hnth. exists [], 1, []. cbn.
  destruct x as [|h t]; [congruence|].
  repeat split; auto; try (unfold Vec.size; cbn [length]; lia).
  - constructor; [lia | constructor].
  - cbn in Hnth. subst.
    change (Forall2 same_number [prev] [prev]).
    constructor; [left; reflexivity | constructor].
Qed.

Lemma rle_body_inv (x : list float) (k : Z) (st : rle_state) :
  1 <= k < Vec.size x -> rle_inv x k st ->
  exists st', rle_body x k st = Ok st' /\ rle_inv x (k + 1) st'.
Proof.
  intros Hk (ls & l & vs & Hl & Hv & Hi & Hlen & _ & Hpos & Hsum & Hexp & Hadj & Hin).
  unfold rle_body.
  rewrite (get_ok x k 0%float) by lia. cbn [bind].
  set (e := nth (Z.to_nat k) x 0%float).
  assert (Hk' : (Z.to_nat k < length x)%nat) by (unfold Vec.size in Hk; lia).
  assert (Hfirst : firstn (Z.to_nat (k + 1)) x = firstn (Z.to_nat k) x ++ [e]).
  { replace (Z.to_nat (k + 1)) with (S (Z.to_nat k)) by lia.
    apply firstn_succ_nth. exact Hk'. }
  assert (He : In e x) by (apply nth_In; exact Hk').
  destruct (st_prev st =? e)%float eqn:Heq.
  - rewrite Hl, Hi.
    rewrite (get_ok (ls ++ [l]) _ 0) by (rewrite size_app; unfold Vec.size; cbn [length]; lia).
    rewrite Nat2Z.id, nth_app_last. cbn [bind].
    rewrite set_ok by (rewrite size_app; unfold Vec.size; cbn [length]; lia).
    rewrite Nat2Z.id, update_app_last. cbn [bind].
    eexists; split; [reflexivity|].
    exists ls, (l + 1), vs. cbn [st_lengths st_values st_i st_prev].
    rewrite Hl in Hpos, Hsum, Hexp. rewrite Hv in Hexp.
    apply Forall_app in Hpos. destruct Hpos as [Hpos1 Hpos2].
    apply Forall_inv in Hpos2.
    repeat split; auto; try lia.
    + apply Forall_app. split; [assumption|]. constructor; [lia | constructor].
    + rewrite !sumZ_app in *. unfold sumZ in *. cbn [fold_right] in *. lia.
    + rewrite Hv, Hfirst.
      rewrite expand_app in * by assumption. cbn [expand] in *.
      rewrite app_nil_r in *.
      replace (Z.to_nat (l + 1)) with (S (Z.to_nat l)) by lia.
      rewrite repeat_succ_last, !app_assoc.
      apply Forall2_app; [exact Hexp|].
      constructor; [apply eqb_true_same; exact Heq | constructor].
  - eexists; split; [reflexivity|].
    exists (ls ++ [l]), 1, (vs ++ [st_prev st]).
    cbn [st_lengths st_values st_i st_prev].
    rewrite Hl, Hv in *.
    repeat split; auto; try lia.
    + rewrite length_app. cbn [length]. lia.
    + rewrite !length_app. cbn [length]. lia.
    + apply Forall_app. split; [assumption|]. constructor; [lia | constructor].
    + rewrite !sumZ_app in *. unfold sumZ in *. cbn [fold_right] in *. lia.
    + rewrite Hfirst.
      rewrite (expand_app (ls ++ [l]) [1] (vs ++ [st_prev st]) [e])
        by (rewrite !length_app; cbn [length]; lia).
      apply Forall2_app; [exact Hexp|].
      cbn. constructor; [left; reflexivity | constructor].
    + apply no_adjacent_snoc; [exact Hadj|]. congruence.
    + apply Forall_app. split; [assumption|]. constructor; [exact He | constructor].
Qed.

(** What [rleC] returns on a non-empty vector. *)
Lemma rleC_spec (x : list float) :
  x <> [] ->
  exists r,
    rleC x = Ok r /\
    length (lengths r) = length (values r) /\
    Forall (fun l => 1 <= l) (lengths r) /\
    sumZ (lengths r) = Vec.size x /\
    Forall2 same_number (expand (lengths r) (values r)) x /\
    no_adjacent (fun v w => (v =? w)%float = true) (values r) /\
    Forall (fun v => In v x) (values r).
Proof.
  intros Hne. unfold rleC.
  assert (Hsz : 1 <= Vec.size x).
  { destruct x; [congruence|]. unfold Vec.size. cbn [length]. lia. }
  rewrite (get_ok x 0 0%float) by lia. cbn [bind].
  change (Z.to_nat 0) with O.
  destruct (for_range_inv (rle_inv x) (rle_body x) 1 (Vec.size x)
              (mkRleState [1] [nth 0 x 0%float] 0 (nth 0 x 0%float)))
    as [st [Hrun Hinv]].
  - exact Hsz.
  - apply rle_inv_init; auto. apply nth_In. unfold Vec.size in Hsz. lia.
  - intros k s Hk. apply rle_body_inv. exact Hk.
  - rewrite Hrun. cbn [bind]. eexists; split; [reflexivity|].
    destruct Hinv as (ls & l & vs & Hl & Hv & Hi & Hlen & _ & Hpos & Hsum & Hexp & Hadj & Hin).
    cbn [lengths values].
    repeat split; auto.
    + rewrite Hl, Hv, !length_app. cbn [length]. lia.
    + unfold Vec.size in Hexp. rewrite Nat2Z.id, firstn_all in Hexp. exact Hexp.
Qed.

Lemma expand_In (ls : list Z) (vs : list float) (e : float) :
  In e (expand ls vs) -> In e vs.
Proof.
  revert vs. induction ls as [|l ls IH]; intros [|v vs] H; simpl in *;
    try contradiction.
  apply in_app_or in H. destruct H as [H | H].
  - left. symmetry. eapply repeat_spec. exact H.
  - right. apply IH. exact H.
Qed.

Lemma Forall2_same_number_exact (l x : list float) :
  Forall (fun e => e <> neg_zero) l ->
  Forall (fun e => e <> neg_zero) x ->
  Forall2 same_number l x -> l = x.
Proof.
  intros Hl Hx H. induction H as [|a b l x Hab H IH]; [reflexivity|].
  inversion Hl; inversion Hx; subst.
  f_equal; [apply same_number_exact; assumption | apply IH; assumption].
Qed.

Lemma zero_neq_neg_zero : zero <> neg_zero.
Proof.
  intros H. apply (f_equal get_sign) in H. vm_compute in H. discriminate.
Qed.

(** C1 (as amended).  For every non-empty vector [x], [rleC x] returns a
    run sequence: as many lengths as values, every length at least 1.
    Expanding each value by its length gives [x] back position by position
    up to the sign of zero, and exactly when [x] holds no negative zero;
    the lengths sum to the length of [x]; and no two consecutive runs have
    values that compare equal with [==].  (A run is extended when the
    element compares [==] to the value of the run, which identifies [0.0]
    and [-0.0].) *)
Theorem rleC_round_trip (x : list float) :
  x <> [] ->
  exists r,
    rleC x = Ok r /\
    length (lengths r) = length (values r) /\
    Forall (fun l => 1 <= l) (lengths r) /\
    Forall2 same_number (expand (lengths r) (values r)) x /\
    ((forall e, In e x -> e <> neg_zero) ->
     expand (lengths r) (values r) = x) /\
    sumZ (lengths r) = Vec.size x /\
    no_adjacent (fun v w => (v =? w)%float = true) (values r).
Proof.
  intros Hne.
  destruct (rleC_spec x Hne) as (r & Hr & Hlen & Hpos & Hsum & Hexp & Hadj & Hin).
  exists r. repeat split; try assumption.
  intros Hnz. apply Forall2_same_number_exact; [| |exact Hexp].
  - apply Forall_forall. intros e He. apply Hnz.
    apply expand_In in He. rewrite Forall_forall in Hin. auto.
  - apply Forall_forall. exact Hnz.
Qed.

Lemma rleC_round_trip_witness :
  [5; 5; 5; 3; 3; 1; 1; 1; 1; 2]%float <> [] /\
  exists r,
    rleC [5; 5; 5; 3; 3; 1; 1; 1; 1; 2]%float = Ok r /\
    length (lengths r) = length (values r) /\
    Forall (fun l => 1 <= l) (lengths r) /\
    Forall2 same_number (expand (lengths r) (values r))
            [5; 5; 5; 3; 3; 1; 1; 1; 1; 2]%float /\
    ((forall e, In e [5; 5; 5; 3; 3; 1; 1; 1; 1; 2]%float -> e <> neg_zero) ->
     expand (lengths r) (values r) = [5; 5; 5; 3; 3; 1; 1; 1; 1; 2]%float) /\
    sumZ (lengths r) = Vec.size [5; 5; 5; 3; 3; 1; 1; 1; 1; 2]%float /\
    no_adjacent (fun v w => (v =? w)%float = true) (values r).
Proof.
  split; [discriminate|].
  apply (rleC_round_trip [5; 5; 5; 3; 3; 1; 1; 1; 1; 2]%float).
  discriminate.
Defined.

(** C1, as stated, fails on [[0.0; -0.0]]: the two elements differ in their
    sign bit, yet [==] holds, the run is extended, and the expansion is
    [[0.0; 0.0]]. *)
Lemma rleC_round_trip_signed_zero :
  exists r,
    rleC [zero; neg_zero] = Ok r /\
    lengths r = [2] /\ values r = [zero] /\
    expand (lengths r) (values r) <> [zero; neg_zero].
Proof.
  exists (mkRle [2] [zero]). repeat split.
  cbn. intros H. apply (f_equal (fun l => nth 1 l zero)) in H. cbn in H.
  apply zero_neq_neg_zero. exact H.
Qed.

Example rle_scenario3 :
  rleC [5; 5; 5; 3; 3; 1; 1; 1; 1; 2]%float
  = Ok (mkRle [3; 2; 4; 1] [5; 3; 1; 2]%float).
Proof. vm_compute. reflexivity. Qed.

(** C10.  [rleC] reads element 0 before anything else, so on the empty
    vector it leaves the vector at once; on every non-empty vector all its
    accesses (the read of [x[0]], the reads of the scan at positions
    [1 .. n-1] and the updates of [lengths[i]]) are in range and a result is
    returned. *)
Theorem rleC_accesses_in_bounds :
  rleC [] = Err OutOfBounds /\
  forall (h : float) (t : list float), exists r, rleC (h :: t) = Ok r.
Proof.
  split; [reflexivity|].
  intros h t.
  destruct (rleC_spec (h :: t)) as (r & Hr & _); [discriminate|].
  exists r. exact Hr.
Qed.

(** ** Loops that fill a vector index by index *)

Lemma indices_length (m : nat) : length (indices m) = m.
Proof. unfold indices. now rewrite length_map, length_seq. Qed.

Lemma indices_succ (m : nat) : indices (S m) = indices m ++ [Z.of_nat m].
Proof.
  unfold indices. rewrite seq_S, map_app. reflexivity.
Qed.

Lemma skipn_cons_nth {A : Type} (v : list A) (k : nat) (d : A) :
  (k < length v)%nat -> skipn k v = nth k v d :: skipn (S k) v.
Proof.
  revert k. induction v as [|h t IH]; intros k Hk; simpl in Hk; [lia|].
  destruct k as [|k]; [reflexivity|]. cbn [skipn nth]. apply IH. lia.
Qed.

Lemma update_app_at {A : Type} (v w : list A) (b a : A) (n : nat) :
  length v = n -> Vec.update (v ++ b :: w) n a = v ++ a :: w.
Proof. intros <-. apply update_app_head. Qed.

Lemma filled_to_size {A : Type} (f : Z -> A) (v0 v : list A) (k : Z) :
  0 <= k <= Vec.size v0 -> filled_to f v0 k v -> Vec.size v = Vec.size v0.
Proof.
  unfold filled_to, Vec.size. intros Hk ->.
  rewrite length_app, length_map, indices_length, length_skipn. lia.
Qed.

Lemma filled_to_step {A : Type} (f : Z -> A) (v0 v : list A) (k : Z) :
  0 <= k < Vec.size v0 -> filled_to f v0 k v ->
  Vec.set v k (f k) = Ok (Vec.update v (Z.to_nat k) (f k)) /\
  filled_to f v0 (k + 1) (Vec.update v (Z.to_nat k) (f k)).
Proof.
  intros Hk Hv.
  assert (Hsz : Vec.size v = Vec.size v0)
    by (apply (filled_to_size f v0 v k); [lia | exact Hv]).
  split; [apply set_ok; lia|].
  unfold filled_to in *. unfold Vec.size in *.
  destruct v0 as [|d v0']; [cbn [length] in Hk; lia|].
  set (w := d :: v0') in *.
  rewrite Hv at 1.
  rewrite (skipn_cons_nth w (Z.to_nat k) d) by lia.
  rewrite update_app_at
    by (rewrite length_map, indices_length; reflexivity).
  replace (Z.to_nat (k + 1)) with (S (Z.to_nat k)) by lia.
  rewrite indices_succ, map_app, <- app_assoc. cbn [map app].
  rewrite Z2Nat.id by lia. reflexivity.
Qed.

Lemma filled_to_all {A : Type} (f : Z -> A) (v0 v : list A) :
  filled_to f v0 (Vec.size v0) v -> v = map f (indices (length v0)).
Proof.
  unfold filled_to, Vec.size. rewrite Nat2Z.id, skipn_all, app_nil_r. auto.
Qed.

(** A loop whose round [j] amounts to [v[j] = f(j)] on a vector of [m]
    elements returns the vector [f(0), ..., f(m-1)]. *)
Lemma fill_loop {A : Type} (f : Z -> A) (body : Z -> list A -> result (list A))
    (v0 : list A) :
  (forall j v, 0 <= j < Vec.size v0 -> Vec.size v = Vec.size v0 ->
               body j v = Vec.set v j (f j)) ->
  for_range 0 (Vec.size v0) body v0 = Ok (map f (indices (length v0))).
Proof.
  intros Hbody.
  destruct (for_range_inv (filled_to f v0) body 0 (Vec.size v0) v0)
    as [v [Hrun Hv]].
  - apply size_nonneg.
  - reflexivity.
  - intros k s Hk Hs.
    destruct (filled_to_step f v0 s k Hk Hs) as [Hset Hnext].
    eexists. split; [|exact Hnext].
    rewrite Hbody; [exact Hset | exact Hk |].
    apply (filled_to_size f v0 s k); [lia | exact Hs].
  - rewrite Hrun. f_equal. apply filled_to_all. exact Hv.
Qed.

Lemma repeat_size {A : Type} (d : A) (n : Z) :
  0 <= n -> Vec.size (repeat d (Z.to_nat n)) = n.
Proof. intros H. unfold Vec.size. rewrite repeat_length. lia. Qed.

Lemma map_indices_nth {A B : Type} (g : A -> B) (x : list A) (d : A) :
  map (fun j => g (nth (Z.to_nat j) x d)) (indices (length x)) = map g x.
Proof.
  induction x as [|h t IH] using rev_ind; [reflexivity|].
  rewrite length_app. cbn [length]. rewrite Nat.add_1_r, indices_succ.
  rewrite !map_app. cbn [map]. rewrite Nat2Z.id, nth_app_last. f_equal.
  rewrite <- IH. apply map_ext_in. intros j Hj.
  unfold indices in Hj. apply in_map_iff in Hj. destruct Hj as [i [<- Hi]].
  apply in_seq in Hi. rewrite Nat2Z.id, app_nth1 by lia. reflexivity.
Qed.

(** ** The bit-level encoders *)

(** [clipping] compares every element with the mean of the whole vector. *)
Lemma clipping_spec (x : list float) :
  clipping x
  = Ok (map (fun e =>
               if gtb e (accumulate add x 0 / int_to_double (Vec.size x))%float
               then 1 else 0) x).
Proof.
  unfold clipping. rewrite alloc_ok by apply size_nonneg. cbn [bind].
  set (mean := (accumulate add x 0 / int_to_double (Vec.size x))%float).
  set (v0 := repeat 0 (Z.to_nat (Vec.size x))).
  assert (Hsz : Vec.size v0 = Vec.size x)
    by (apply repeat_size, size_nonneg).
  rewrite <- Hsz.
  rewrite (fill_loop
             (fun j => if gtb (nth (Z.to_nat j) x 0%float) mean then 1 else 0)).
  - f_equal.
    replace (length v0) with (length x) by (unfold Vec.size in Hsz; lia).
    apply (map_indices_nth (fun e => if gtb e mean then 1 else 0)).
  - intros j v Hj Hv. rewrite (get_ok x j 0%float) by lia. cbn [bind].
    destruct (gtb _ _); reflexivity.
Qed.

(** C7, as stated, fails: the element [3] does not exceed the mean [3.0],
    so the second bit is [0], not [1]. *)
Lemma clipping_scenario2_differs :
  exists bits,
    clipping [1; 3; 2; 5; 4]%float = Ok bits /\
    nth 1 bits 0 = 0 /\
    bits <> [0; 1; 0; 1; 1].
Proof.
  exists [0; 0; 0; 1; 1]. repeat split. discriminate.
Qed.

(** C7 (as amended).  For [x = [1,3,2,5,4]] the mean, computed once over the
    whole vector, is [3.0], and [clipping x = [0,0,0,1,1]]: the output is
    [1] where [x[i] > mean] holds strictly and [0] elsewhere. *)
Theorem clipping_scenario2 :
  (accumulate add [1; 3; 2; 5; 4] 0 / int_to_double 5 = 3)%float /\
  clipping [1; 3; 2; 5; 4]%float = Ok [0; 0; 0; 1; 1] /\
  forall x : list float,
    clipping x
    = Ok (map (fun e =>
                 if gtb e (accumulate add x 0 / int_to_double (Vec.size x))%float
                 then 1 else 0) x).
Proof.
  split; [reflexivity|]. split; [reflexivity|]. exact clipping_spec.
Qed.

(** ** The moving average *)

Lemma for_range_first_err {St : Type} (body : Z -> St -> result St)
    (lo hi : Z) (st : St) (e : error) :
  lo < hi -> body lo st = Err e -> for_range lo hi body st = Err e.
Proof.
  intros Hlt Hb. unfold for_range.
  destruct (Z.to_nat (hi - lo)) as [|c] eqn:E; [lia|].
  cbn [for_count]. rewrite Hb. reflexivity.
Qed.

Lemma firstn_size {A : Type} (l : list A) :
  firstn (Z.to_nat (Vec.size l)) l = l.
Proof. unfold Vec.size. rewrite Nat2Z.id. apply firstn_all. Qed.

(** [for (i = 0; i < m; i++) acc += x[i];] *)
Lemma sum_loop (x : list float) (m : Z) (a : float) :
  m <= Vec.size x ->
  for_range 0 m (fun i acc => xi <- Vec.get x i ;; Ok (acc + xi)%float) a
  = Ok (fold_left add (firstn (Z.to_nat m) x) a).
Proof.
  intros Hm. destruct (Z.le_gt_cases m 0) as [Hneg | Hpos].
  - rewrite for_range_empty by lia.
    replace (Z.to_nat m) with O by lia. reflexivity.
  - destruct (for_range_inv
                (fun k acc => acc = fold_left add (firstn (Z.to_nat k) x) a)
                (fun i acc => xi <- Vec.get x i ;; Ok (acc + xi)%float)
                0 m a) as [s [Hrun Hs]].
    + lia.
    + reflexivity.
    + intros k s Hk Hs. rewrite (get_ok x k 0%float) by lia. cbn [bind].
      eexists. split; [reflexivity|].
      replace (Z.to_nat (k + 1)) with (S (Z.to_nat k)) by lia.
      rewrite (firstn_succ_nth x (Z.to_nat k) 0%float)
        by (unfold Vec.size in Hm; lia).
      rewrite fold_left_app. cbn [fold_left]. now rewrite Hs.
    + rewrite Hrun, Hs. reflexivity.
Qed.

Lemma sumC_spec (x : list float) : sumC x = Ok (fold_left add x 0%float).
Proof.
  unfold sumC. rewrite sum_loop by lia. now rewrite firstn_size.
Qed.

Lemma meanC_spec (x : list float) :
  meanC x = Ok (fold_left add x 0 / int_to_double (Vec.size x))%float.
Proof.
  unfold meanC. rewrite sum_loop by lia. now rewrite firstn_size.
Qed.

Lemma nth_filled {A : Type} (f : Z -> A) (v0 v : list A) (k j : Z) (d : A) :
  0 <= j < k -> filled_to f v0 k v -> nth (Z.to_nat j) v d = f j.
Proof.
  intros Hj ->.
  rewrite app_nth1 by (rewrite length_map, indices_length; lia).
  unfold indices. rewrite map_map.
  rewrite (nth_indep _ d (f 0))
    by (rewrite length_map, length_seq; lia).
  rewrite (map_nth (fun i => f (Z.of_nat i)) (seq 0 (Z.to_nat k)) O).
  rewrite seq_nth by lia. cbn [Nat.add]. now rewrite Z2Nat.id by lia.
Qed.

(** For [-1 <= order < n] every access of [repr_sma] is in range and the
    result is the recurrence of [sma_spec]. *)
Lemma repr_sma_spec (x : list float) (order : Z) :
  -1 <= order < Vec.size x -> repr_sma x order = Ok (sma_spec x order).
Proof.
  intros Hp. unfold repr_sma.
  set (n_ma := Vec.size x - order).
  rewrite alloc_ok by lia. cbn [bind].
  rewrite sum_loop by lia. cbn [bind].
  set (v0 := repeat 0%float (Z.to_nat n_ma)).
  assert (Hsz : Vec.size v0 = n_ma) by (apply repeat_size; lia).
  set (f := fun k : Z => sma_elem x order (Z.to_nat k)).
  destruct (filled_to_step f v0 v0 0) as [Hset Hfill];
    [lia | reflexivity |].
  change (f 0) with (sma_elem x order 0) in Hset. cbn [sma_elem] in Hset.
  rewrite Hset. cbn [bind].
  destruct (for_range_inv (filled_to f v0) 
              (fun i repr =>
                 r <- Vec.get repr (i - 1) ;;
                 a <- Vec.get x (i + order) ;;
                 b <- Vec.get x (i - 1) ;;
                 Vec.set repr i
                   (r + a / int_to_double order - b / int_to_double order)%float)
              1 n_ma (Vec.update v0 (Z.to_nat 0) (f 0)))
    as [r [Hrun Hr]].
  - lia.
  - exact Hfill.
  - intros k s Hk Hs.
    assert (Hss : Vec.size s = Vec.size v0)
      by (apply (filled_to_size f v0 s k); [lia | exact Hs]).
    rewrite (get_ok s (k - 1) 0%float) by lia.
    rewrite (nth_filled f v0 s k (k - 1)) by (lia || exact Hs). cbn [bind].
    rewrite (get_ok x (k + order) 0%float) by lia. cbn [bind].
    rewrite (get_ok x (k - 1) 0%float) by lia. cbn [bind].
    destruct (filled_to_step f v0 s k) as [Hset' Hfill']; [lia | exact Hs |].
    eexists. split; [|exact Hfill'].
    rewrite <- Hset'. f_equal. unfold f.
    replace (sma_elem x order (Z.to_nat k))
      with (sma_elem x order (S (Z.to_nat (k - 1))))
      by (f_equal; lia).
    cbn [sma_elem].
    replace (Z.of_nat (S (Z.to_nat (k - 1))) + order) with (k + order) by lia.
    reflexivity.
  - change (f 0) with (sma_elem x order 0) in Hrun. cbn [sma_elem] in Hrun.
    rewrite Hrun. f_equal. rewrite <- Hsz in Hr.
    apply filled_to_all in Hr. rewrite Hr. unfold sma_spec, indices.
    rewrite map_map. unfold v0. rewrite repeat_length. fold n_ma.
    apply map_ext. intros i. unfold f. now rewrite Nat2Z.id.
Qed.

Lemma sma_spec_size (x : list float) (order : Z) :
  order <= Vec.size x -> Vec.size (sma_spec x order) = Vec.size x - order.
Proof.
  intros H. unfold sma_spec, Vec.size in *.
  rewrite length_map, length_seq. lia.
Qed.

Lemma repr_sma_negative_length (x : list float) (order : Z) :
  Vec.size x < order -> repr_sma x order = Err NegativeLength.
Proof.
  intros H. unfold repr_sma, Vec.alloc.
  destruct (Z.ltb_spec (Vec.size x - order) 0); [reflexivity | lia].
Qed.

Lemma repr_sma_out_of_bounds (x : list float) (order : Z) :
  order = Vec.size x \/ order <= -2 -> repr_sma x order = Err OutOfBounds.
Proof.
  intros H. pose proof (size_nonneg x) as Hn. unfold repr_sma.
  rewrite alloc_ok by lia. cbn [bind].
  rewrite sum_loop by lia. cbn [bind].
  destruct H as [-> | Hneg].
  - rewrite Z.sub_diag. reflexivity.
  - set (v0 := repeat 0%float (Z.to_nat (Vec.size x - order))).
    assert (Hsz : Vec.size v0 = Vec.size x - order) by (apply repeat_size; lia).
    rewrite set_ok by lia. cbn [bind].
    apply for_range_first_err; [lia|].
    rewrite (get_ok _ (1 - 1) 0%float)
      by (unfold Vec.size in *; rewrite update_length; lia).
    cbn [bind]. rewrite get_out by lia. reflexivity.
Qed.

Lemma add_nan_l (a : float) : (nan + a)%float = nan.
Proof. apply Prim2SF_inj. rewrite add_spec. reflexivity. Qed.

Lemma sub_nan_l (a : float) : (nan - a)%float = nan.
Proof. apply Prim2SF_inj. rewrite sub_spec. reflexivity. Qed.

Lemma sma_elem_order_zero (x : list float) (i : nat) : sma_elem x 0 i = nan.
Proof.
  induction i as [|i IH]; [reflexivity|].
  cbn [sma_elem]. rewrite IH, add_nan_l, sub_nan_l. reflexivity.
Qed.

(** C8, as stated, fails: with [order = 0] no error is raised; a vector of
    NaN comes back. *)
Lemma repr_sma_order_zero_returns :
  repr_sma [1; 2; 3]%float 0 = Ok [nan; nan; nan].
Proof. vm_compute. reflexivity. Qed.

(** C8 (as amended).  [repr_sma] checks neither the order nor the length.
    For [order > n] the allocation of the result, of negative length, is
    refused before anything is computed.  For [order = n], and for
    [order <= -2] as long as [n - order] is in the range of [int]
    ([n - order < 2^31]), an element outside a vector is accessed.  For
    every other order from [-1] on, that is [-1 <= order < n], no error
    occurs and [n - order] values are returned; with [order = 0] all of
    them are NaN. *)
Theorem repr_sma_unchecked_order (x : list float) (order : Z) :
  (Vec.size x < order -> repr_sma x order = Err NegativeLength) /\
  (order = Vec.size x \/ (order <= -2 /\ Vec.size x - order < 2 ^ 31) ->
   repr_sma x order = Err OutOfBounds) /\
  (-1 <= order < Vec.size x ->
   repr_sma x order = Ok (sma_spec x order) /\
   Vec.size (sma_spec x order) = Vec.size x - order) /\
  (order = 0 -> Forall (fun e => e = nan) (sma_spec x order)).
Proof.
  split; [apply repr_sma_negative_length|].
  split.
  { intros [H | [H _]]; apply repr_sma_out_of_bounds; [left | right];
      exact H. }
  split.
  - intros H. split; [apply repr_sma_spec; exact H|].
    apply sma_spec_size. lia.
  - intros ->. unfold sma_spec. apply Forall_forall. intros e He.
    apply in_map_iff in He. destruct He as [i [<- _]].
    apply sma_elem_order_zero.
Qed.

Lemma repr_sma_unchecked_order_witness :
  repr_sma [1; 2; 3]%float 4 = Err NegativeLength /\
  repr_sma [1; 2; 3]%float 3 = Err OutOfBounds /\
  repr_sma [1; 2; 3]%float (-2) = Err OutOfBounds /\
  repr_sma [1; 2; 3]%float (-1) = Ok (sma_spec [1; 2; 3]%float (-1)) /\
  repr_sma [1; 2; 3]%float 0 = Ok (sma_spec [1; 2; 3]%float 0) /\
  Forall (fun e => e = nan) (sma_spec [1; 2; 3]%float 0).
Proof.
  split.
  { apply (proj1 (repr_sma_unchecked_order [1; 2; 3]%float 4)).
    reflexivity. }
  split.
  { apply (proj1 (proj2 (repr_sma_unchecked_order [1; 2; 3]%float 3))).
    left. reflexivity. }
  split.
  { apply (proj1 (proj2 (repr_sma_unchecked_order [1; 2; 3]%float (-2)))).
    right. split; [apply Z.le_refl | reflexivity]. }
  split.
  { apply (proj1 (proj2 (proj2 (repr_sma_unchecked_order [1; 2; 3]%float (-1))))).
    split; [apply Z.le_refl | reflexivity]. }
  split.
  { apply (proj1 (proj2 (proj2 (repr_sma_unchecked_order [1; 2; 3]%float 0)))).
    split; [discriminate | reflexivity]. }
  apply (proj2 (proj2 (proj2 (repr_sma_unchecked_order [1; 2; 3]%float 0)))).
  reflexivity.
Defined.

(** C4, on the code.  For [x = [1,2,3,2,1,2,3,4,3,2]] and [order = 3] the
    means of the windows of three elements are, up to rounding,
    [[2, 2.333..., 2, 1.666..., 2, 3, 3.333...]].  [repr_sma] returns
    [[2, 2, 2, 2, 2.666..., 3.333..., 3.333...]]: after the first value its
    recurrence adds [x[i+3]], where the sum of the window [x[i], x[i+1],
    x[i+2]] needs [x[i+2]], so [x[3]] is added to no value.  The result is
    within rounding neither of the window means nor of the list
    [[2, 2, 2, 2.333..., 3, 3, 3]]. *)
Theorem repr_sma_scenario1 :
  exists r,
    repr_sma [1; 2; 3; 2; 1; 2; 3; 4; 3; 2]%float 3 = Ok r /\
    length r = 7%nat /\
    nth 0 r 0%float = window_mean [1; 2; 3; 2; 1; 2; 3; 4; 3; 2]%float 3 0 /\
    (forall i : nat,
       (1 <= i < 7)%nat ->
       nth i r 0%float
       = (nth (i - 1) r 0
          + nth (i + 3) [1; 2; 3; 2; 1; 2; 3; 4; 3; 2] 0 / 3
          - nth (i - 1) [1; 2; 3; 2; 1; 2; 3; 4; 3; 2] 0 / 3)%float) /\
    all_close r [2; 2; 2; 2; 8 / 3; 10 / 3; 10 / 3]%float = true /\
    all_close
      (map (window_mean [1; 2; 3; 2; 1; 2; 3; 4; 3; 2]%float 3) (seq 0 7))
      [2; 7 / 3; 2; 5 / 3; 2; 3; 10 / 3]%float = true /\
    all_close r
      (map (window_mean [1; 2; 3; 2; 1; 2; 3; 4; 3; 2]%float 3) (seq 0 7))
    = false /\
    close_to (nth 1 r 0%float)
             (window_mean [1; 2; 3; 2; 1; 2; 3; 4; 3; 2]%float 3 1) = false /\
    all_close r [2; 2; 2; 7 / 3; 3; 3; 3]%float = false.
Proof.
  eexists. split; [vm_compute; reflexivity|].
  split; [reflexivity|]. split; [vm_compute; reflexivity|]. split.
  - intros i Hi.
    destruct i as [|[|[|[|[|[|[|i]]]]]]]; try lia; vm_compute; reflexivity.
  - repeat split; vm_compute; reflexivity.
Qed.

(** ** Subsetting by an index vector *)

Lemma subset_ok {A : Type} (x : list A) (ind : list Z) (d : A) :
  Forall (fun i => 0 <= i < Vec.size x) ind ->
  Vec.subset x ind = Ok (map (fun i => nth (Z.to_nat i) x d) ind).
Proof.
  induction ind as [|i rest IH]; intros H; [reflexivity|].
  inversion H as [|? ? Hi Hrest]; subst. cbn [Vec.subset map].
  destruct (Z.ltb_spec i 0); [lia|].
  destruct (Z.leb_spec (Vec.size x) i); [lia|]. cbn [orb].
  rewrite (nth_error_nth' x d) by (unfold Vec.size in Hi; lia).
  rewrite IH by assumption. reflexivity.
Qed.

(** The elements at [a, a+1, ..., a+q-1] are the window of [q] elements
    after the first [a]. *)
Lemma window_eq {A : Type} (x : list A) (a q : nat) (d : A) :
  (a + q <= length x)%nat ->
  map (fun j => nth (Z.to_nat (Z.of_nat a + j)) x d) (indices q)
  = firstn q (skipn a x).
Proof.
  induction q as [|q IH]; intros H; [reflexivity|].
  rewrite indices_succ, map_app, IH by lia. cbn [map].
  rewrite (firstn_succ_nth (skipn a x) q d) by (rewrite length_skipn; lia).
  rewrite nth_skipn. do 3 f_equal. lia.
Qed.

Lemma Forall_indices (m : nat) (P : Z -> Prop) :
  (forall j, 0 <= j < Z.of_nat m -> P j) -> Forall P (indices m).
Proof.
  intros H. apply Forall_forall. intros j Hj. unfold indices in Hj.
  apply in_map_iff in Hj. destruct Hj as [i [<- Hi]]. apply in_seq in Hi.
  apply H. lia.
Qed.

(** A loop over [lo .. hi-1] whose round [j] stores [f(j)] at [repr[j]] and
    keeps a property [Q] of the rest of the state. *)
Lemma fill_loop_pair {A B : Type} (f : Z -> A) (Q : B -> Prop)
    (body : Z -> list A * B -> result (list A * B))
    (v0 v : list A) (aux : B) (lo hi : Z) :
  0 <= lo <= hi -> hi <= Vec.size v0 ->
  filled_to f v0 lo v -> Q aux ->
  (forall j w b, lo <= j < hi -> Vec.size w = Vec.size v0 -> Q b ->
     exists b', body j (w, b) = (w' <- Vec.set w j (f j) ;; Ok (w', b')) /\ Q b') ->
  exists v' aux',
    for_range lo hi body (v, aux) = Ok (v', aux') /\
    filled_to f v0 hi v' /\ Q aux'.
Proof.
  intros Hlo Hhi Hv Haux Hbody.
  destruct (for_range_inv
              (fun k st => filled_to f v0 k (fst st) /\ Q (snd st))
              body lo hi (v, aux)) as [[v' aux'] [Hrun [H1 H2]]].
  - lia.
  - split; assumption.
  - intros k [w b] Hk [Hw Hb]. cbn [fst snd] in *.
    destruct (Hbody k w b Hk) as [b' [Heq Hb']];
      [apply (filled_to_size f v0 w k); [lia | exact Hw] | exact Hb |].
    destruct (filled_to_step f v0 w k) as [Hset Hnext]; [lia | exact Hw |].
    exists (Vec.update w (Z.to_nat k) (f k), b').
    rewrite Heq, Hset. cbn [bind fst snd]. auto.
  - exists v', aux'. auto.
Qed.

(** ** The piecewise aggregate *)

Lemma full_blocks_map {A : Type} (q count : nat) (x : list A) :
  full_blocks q count x
  = map (fun i => firstn q (skipn (i * q) x)) (seq 0 count).
Proof.
  revert x. induction count as [|c IH]; intros x; [reflexivity|].
  cbn [full_blocks seq map]. f_equal. rewrite IH, <- seq_shift, map_map.
  apply map_ext. intros i. rewrite skipn_skipn. do 2 f_equal. lia.
Qed.

Lemma firstn_plus {A : Type} (a b : nat) (x : list A) :
  firstn (a + b) x = firstn a x ++ firstn b (skipn a x).
Proof.
  revert x. induction a as [|a IH]; intros x; [reflexivity|].
  destruct x as [|h t]; [cbn [skipn]; now rewrite !firstn_nil|].
  cbn [Nat.add firstn skipn app]. now rewrite IH.
Qed.

Lemma full_blocks_concat {A : Type} (q count : nat) (x : list A) :
  concat (full_blocks q count x) = firstn (count * q) x.
Proof.
  revert x. induction count as [|c IH]; intros x; [reflexivity|].
  cbn [full_blocks concat]. rewrite IH.
  replace (S c * q)%nat with (q + c * q)%nat by lia.
  now rewrite firstn_plus.
Qed.

Lemma full_blocks_length {A : Type} (q count : nat) (x : list A) :
  length (full_blocks q count x) = count.
Proof.
  revert x. induction count as [|c IH]; intros x; cbn; [reflexivity|].
  now rewrite IH.
Qed.

(** The blocks cover [x] in order. *)
Lemma paa_blocks_concat {A : Type} (q : nat) (x : list A) :
  (0 < q)%nat -> concat (paa_blocks q x) = x.
Proof.
  intros Hq. unfold paa_blocks. rewrite concat_app, full_blocks_concat.
  pose proof (Nat.div_mod_eq (length x) q) as Hdiv.
  destruct (Nat.eqb_spec (length x mod q) 0) as [E | E].
  - cbn [concat]. rewrite app_nil_r. apply firstn_all2. nia.
  - cbn [concat]. rewrite app_nil_r.
    replace (q * (length x / q))%nat with (length x / q * q)%nat by lia.
    apply firstn_skipn.
Qed.

Lemma paa_blocks_map {A : Type} (q : nat) (x : list A) :
  (0 < q)%nat ->
  paa_blocks q x
  = map (fun i => firstn q (skipn (i * q) x))
        (seq 0 (length x / q + (if (length x mod q =? 0)%nat then 0 else 1))).
Proof.
  intros Hq. unfold paa_blocks. rewrite full_blocks_map.
  destruct (Nat.eqb_spec (length x mod q) 0) as [E | E].
  - now rewrite Nat.add_0_r, app_nil_r.
  - rewrite Nat.add_1_r, seq_S, map_app. cbn [map Nat.add]. do 2 f_equal.
    replace (q * (length x / q))%nat with (length x / q * q)%nat by lia.
    symmetry. apply firstn_all2. rewrite length_skipn.
    pose proof (Nat.div_mod_eq (length x) q).
    pose proof (Nat.mod_upper_bound (length x) q). lia.
Qed.

Lemma map_indices_nonempty {A B : Type} (f : Z -> A) (g : A -> B) (m : nat) :
  (0 < m)%nat -> map g (map f (indices m)) <> [].
Proof.
  intros Hm E. apply (f_equal (@length B)) in E.
  rewrite !length_map, indices_length in E. cbn [length] in E. lia.
Qed.

(** One block, for an aggregation function that returns a value on every
    non-empty vector. *)
Lemma paa_block_eq (func : list float -> result float)
    (agg : list float -> float) (x : list float) (q i : Z)
    (repr : list float) (sub_x : list Z) :
  (forall l, l <> [] -> func l = Ok (agg l)) ->
  1 <= q -> 0 <= i -> i * q + q <= Vec.size x -> Vec.size sub_x = q ->
  paa_block func x q i (repr, sub_x)
  = (w <- Vec.set repr i
            (agg (firstn (Z.to_nat q) (skipn (Z.to_nat i * Z.to_nat q) x))) ;;
     Ok (w, map (fun j => i * q + j) (indices (Z.to_nat q)))).
Proof.
  intros Hf Hq Hi Hfit Hsz. unfold paa_block.
  rewrite <- Hsz at 1.
  rewrite (fill_loop (fun j => i * q + j)) by (intros; reflexivity).
  cbn [bind].
  replace (length sub_x) with (Z.to_nat q) by (unfold Vec.size in Hsz; lia).
  rewrite (subset_ok x _ 0%float)
    by (apply Forall_map, Forall_indices; intros j Hj; nia).
  cbn [bind]. rewrite Hf by (apply map_indices_nonempty; lia). cbn [bind].
  rewrite map_map.
  replace (map (fun j => nth (Z.to_nat (i * q + j)) x 0%float)
               (indices (Z.to_nat q)))
    with (firstn (Z.to_nat q) (skipn (Z.to_nat i * Z.to_nat q) x)).
  - reflexivity.
  - rewrite <- (window_eq x (Z.to_nat i * Z.to_nat q) (Z.to_nat q) 0%float)
      by (unfold Vec.size in Hfit; nia).
    apply map_ext. intros j. do 2 f_equal. nia.
Qed.

(** What [repr_paa] returns for a block length [q >= 1] and an aggregation
    function that returns a value on every non-empty vector. *)
Lemma repr_paa_partial (func : list float -> result float)
    (agg : list float -> float) (x : list float) (q : Z) :
  (forall l, l <> [] -> func l = Ok (agg l)) ->
  1 <= q ->
  repr_paa x q func = Ok (map agg (paa_blocks (Z.to_nat q) x)).
Proof.
  intros Hf Hq. pose proof (size_nonneg x) as Hn.
  set (qn := Z.to_nat q). set (n := length x).
  assert (Hqn : (0 < qn)%nat) by (unfold qn; lia).
  assert (Hquot : Z.quot (Vec.size x) q = Z.of_nat (n / qn)).
  { rewrite Z.quot_div_nonneg by lia. unfold Vec.size, qn, n.
    rewrite Nat2Z.inj_div. now rewrite Z2Nat.id by lia. }
  assert (Hrem : Z.rem (Vec.size x) q = Z.of_nat (n mod qn)).
  { rewrite Z.rem_mod_nonneg by lia. unfold Vec.size, qn, n.
    rewrite Nat2Z.inj_mod. now rewrite Z2Nat.id by lia. }
  pose proof (Nat.div_mod_eq n qn) as Hdm.
  pose proof (Nat.mod_upper_bound n qn ltac:(lia)) as Hub.
  rewrite paa_blocks_map by exact Hqn. fold n qn. rewrite map_map.
  set (F := fun i : Z => agg (firstn qn (skipn (Z.to_nat i * qn) x))).
  unfold repr_paa, int_div, int_rem.
  destruct (Z.eqb_spec q 0) as [|_]; [lia|]. cbn [bind].
  rewrite Hquot, Hrem. cbv zeta.
  replace (Vec.size x - Z.of_nat (n / qn) * q) with (Z.of_nat (n mod qn))
    by (unfold Vec.size; fold n; nia).
  assert (Hstep : forall (v0 : list float) (hi : Z) j w (b : list Z),
             0 <= j < hi -> hi * q <= Vec.size x ->
             Vec.size w = Vec.size v0 -> Vec.size b = q ->
             exists b', paa_block func x q j (w, b)
                        = (w' <- Vec.set w j (F j) ;; Ok (w', b'))
                        /\ Vec.size b' = q).
  { intros v0 hi j w b Hj Hhi Hw Hb. eexists. split.
    - apply paa_block_eq; try exact Hf; try lia; try nia.
    - unfold Vec.size. rewrite length_map, indices_length. lia. }
  destruct (Nat.eqb_spec (n mod qn) 0) as [E | E].
  - rewrite E. cbn [Z.of_nat Z.eqb negb]. rewrite Nat.add_0_r.
    rewrite !alloc_ok by lia. cbn [bind].
    set (v0 := repeat 0%float (Z.to_nat (Z.of_nat (n / qn)))).
    assert (Hv0 : Vec.size v0 = Z.of_nat (n / qn)) by (apply repeat_size; lia).
    destruct (fill_loop_pair F (fun b => Vec.size b = q)
                (paa_block func x q) v0 v0
                (repeat 0 (Z.to_nat q)) 0 (Z.of_nat (n / qn)))
      as (v' & aux' & Hrun & Hfill & _).
    + lia.
    + lia.
    + reflexivity.
    + apply repeat_size. lia.
    + intros j w b Hj Hw Hb.
      apply (Hstep v0 (Z.of_nat (n / qn))); try assumption.
      unfold Vec.size. fold n. nia.
    + rewrite Hrun. cbn [bind fst]. f_equal.
      rewrite <- Hv0 in Hfill. apply filled_to_all in Hfill.
      rewrite Hfill. unfold indices. rewrite map_map.
      unfold v0. rewrite repeat_length, Nat2Z.id.
      apply map_ext. intros i. unfold F. now rewrite Nat2Z.id.
  - destruct (Z.eqb_spec (Z.of_nat (n mod qn)) 0) as [|_]; [lia|].
    cbn [negb].
    rewrite !alloc_ok by lia. cbn [bind].
    replace (Z.of_nat (n / qn) + 1 - 1) with (Z.of_nat (n / qn)) by lia.
    set (v0 := repeat 0%float (Z.to_nat (Z.of_nat (n / qn) + 1))).
    assert (Hv0 : Vec.size v0 = Z.of_nat (n / qn) + 1)
      by (apply repeat_size; lia).
    destruct (fill_loop_pair F (fun b => Vec.size b = q)
                (paa_block func x q) v0 v0
                (repeat 0 (Z.to_nat q)) 0 (Z.of_nat (n / qn)))
      as (v' & aux' & Hrun & Hfill & _).
    + lia.
    + lia.
    + reflexivity.
    + apply repeat_size. lia.
    + intros j w b Hj Hw Hb.
      apply (Hstep v0 (Z.of_nat (n / qn))); try assumption.
      unfold Vec.size. fold n. nia.
    + rewrite Hrun. cbn [bind fst].
      set (rem0 := repeat 0 (Z.to_nat (Z.of_nat (n mod qn)))).
      assert (Hrem0 : Vec.size rem0 = Z.of_nat (n mod qn))
        by (apply repeat_size; lia).
      rewrite <- Hrem0 at 1.
      rewrite (fill_loop (fun j => Z.of_nat (n / qn) * q + j))
        by (intros; reflexivity).
      cbn [bind].
      rewrite (subset_ok x _ 0%float).
      2:{ apply Forall_map, Forall_indices. intros j Hj.
          unfold rem0 in Hj. rewrite repeat_length in Hj.
          unfold Vec.size. fold n. nia. }
      cbn [bind].
      rewrite Hf
        by (apply map_indices_nonempty; unfold rem0;
            rewrite repeat_length; lia).
      cbn [bind].
      destruct (filled_to_step F v0 v' (Z.of_nat (n / qn))) as [Hset Hnext];
        [lia | exact Hfill |].
      replace (agg _) with (F (Z.of_nat (n / qn))).
      * rewrite Hset. f_equal.
        rewrite <- Hv0 in Hnext. apply filled_to_all in Hnext.
        rewrite Hnext. unfold indices. rewrite map_map.
        unfold v0. rewrite repeat_length.
        replace (Z.to_nat (Z.of_nat (n / qn) + 1)) with (n / qn + 1)%nat by lia.
        apply map_ext. intros i. unfold F. now rewrite Nat2Z.id.
      * unfold F. f_equal. rewrite map_map.
        unfold rem0. rewrite repeat_length, !Nat2Z.id.
        rewrite firstn_all2
          by (rewrite length_skipn; fold n; nia).
        rewrite <- (firstn_all (skipn (n / qn * qn)%nat x)) at 1.
        rewrite length_skipn. fold n.
        replace (n - n / qn * qn)%nat with (n mod qn)%nat by nia.
        rewrite <- (window_eq x (n / qn * qn)%nat (n mod qn) 0%float)
          by (fold n; nia).
        apply map_ext. intros j. do 2 f_equal. nia.
Qed.

(** What [repr_paa] returns for a block length [q >= 1]. *)
Lemma repr_paa_spec (agg : list float -> float) (x : list float) (q : Z) :
  1 <= q ->
  repr_paa x q (pure_fn agg) = Ok (map agg (paa_blocks (Z.to_nat q) x)).
Proof.
  intros Hq. apply repr_paa_partial; [|exact Hq]. intros l _. reflexivity.
Qed.

Lemma paa_blocks_length {A : Type} (q : nat) (x : list A) :
  (0 < q)%nat ->
  Z.of_nat (length (paa_blocks q x))
  = (Z.of_nat (length x) + Z.of_nat q - 1) / Z.of_nat q.
Proof.
  intros Hq. unfold paa_blocks.
  rewrite length_app, full_blocks_length.
  pose proof (Nat.div_mod_eq (length x) q) as Hdm.
  pose proof (Nat.mod_upper_bound (length x) q ltac:(lia)) as Hub.
  destruct (Nat.eqb_spec (length x mod q) 0) as [E | E]; cbn [length].
  - apply (Z.div_unique _ _ _ (Z.of_nat q - 1)); [lia | nia].
  - apply (Z.div_unique _ _ _ (Z.of_nat (length x mod q) - 1)); [lia | nia].
Qed.

Lemma paa_blocks_full {A : Type} (q : nat) (x : list A) (i : nat) :
  (0 < q)%nat -> (i < length x / q)%nat ->
  length (nth i (paa_blocks q x) []) = q.
Proof.
  intros Hq Hi. unfold paa_blocks.
  rewrite app_nth1 by (rewrite full_blocks_length; exact Hi).
  rewrite full_blocks_map.
  rewrite (nth_indep _ [] (firstn q (skipn (0 * q) x)))
    by (rewrite length_map, length_seq; exact Hi).
  rewrite (map_nth (fun i => firstn q (skipn (i * q) x))), seq_nth by exact Hi.
  rewrite length_firstn, length_skipn.
  pose proof (Nat.div_mod_eq (length x) q). nia.
Qed.

Lemma paa_blocks_last {A : Type} (q : nat) (x : list A) :
  (0 < q)%nat -> (length x mod q <> 0)%nat ->
  length (nth (length x / q) (paa_blocks q x) []) = (length x mod q)%nat.
Proof.
  intros Hq Hr. unfold paa_blocks.
  rewrite app_nth2 by (rewrite full_blocks_length; lia).
  rewrite full_blocks_length, Nat.sub_diag.
  destruct (Nat.eqb_spec (length x mod q) 0) as [E | E]; [contradiction|].
  cbn [nth]. rewrite length_skipn.
  pose proof (Nat.div_mod_eq (length x) q). lia.
Qed.

Lemma full_blocks_singletons {A : Type} (x : list A) :
  full_blocks 1 (length x) x = map (fun e => [e]) x.
Proof.
  induction x as [|h t IH]; [reflexivity|].
  cbn [length full_blocks firstn skipn map]. now rewrite IH.
Qed.

Lemma paa_blocks_singletons {A : Type} (x : list A) :
  paa_blocks 1 x = map (fun e => [e]) x.
Proof.
  unfold paa_blocks. rewrite Nat.div_1_r, Nat.mod_1_r. cbn [Nat.eqb].
  now rewrite app_nil_r, full_blocks_singletons.
Qed.

(** C5.  For a block length [q >= 1] and a pure aggregation function,
    [repr_paa] returns one value per block of [paa_blocks], in block order.
    The blocks cover [x] in order; there are [ceil(n/q)] of them; each of
    the first [floor(n/q)] holds exactly [q] elements; when [q] does not
    divide [n] the last one holds the remaining [n mod q] elements and is
    aggregated like the others.  For [q = 1] and an aggregation that maps a
    one-element vector to its element, the result is [x]. *)
Theorem repr_paa_blocks (x : list float) (q : Z) (agg : list float -> float) :
  1 <= q ->
  repr_paa x q (pure_fn agg) = Ok (map agg (paa_blocks (Z.to_nat q) x)) /\
  concat (paa_blocks (Z.to_nat q) x) = x /\
  Z.of_nat (length (paa_blocks (Z.to_nat q) x)) = (Vec.size x + q - 1) / q /\
  (forall i : nat,
     Z.of_nat i < Vec.size x / q ->
     Z.of_nat (length (nth i (paa_blocks (Z.to_nat q) x) [])) = q) /\
  (Vec.size x mod q <> 0 ->
   Z.of_nat (length (nth (Z.to_nat (Vec.size x / q))
                         (paa_blocks (Z.to_nat q) x) []))
   = Vec.size x mod q) /\
  (q = 1 -> (forall e, agg [e] = e) -> repr_paa x q (pure_fn agg) = Ok x).
Proof.
  intros Hq.
  assert (Hqn : (0 < Z.to_nat q)%nat) by lia.
  assert (Hdiv : Z.to_nat (Vec.size x / q) = (length x / Z.to_nat q)%nat).
  { unfold Vec.size. rewrite Z2Nat.inj_div, Nat2Z.id by lia. reflexivity. }
  assert (Hmod : Vec.size x mod q = Z.of_nat (length x mod Z.to_nat q)).
  { unfold Vec.size. rewrite Nat2Z.inj_mod, Z2Nat.id by lia. reflexivity. }
  split; [apply repr_paa_spec; exact Hq|].
  split; [apply paa_blocks_concat; exact Hqn|].
  split.
  { rewrite paa_blocks_length by exact Hqn. unfold Vec.size.
    now rewrite Z2Nat.id by lia. }
  split.
  { intros i Hi. rewrite paa_blocks_full; [lia | exact Hqn |].
    rewrite <- Hdiv. apply Nat2Z.inj_lt. rewrite Z2Nat.id; [exact Hi|].
    apply Z.div_pos; [apply size_nonneg | lia]. }
  split.
  { intros Hr. rewrite Hdiv, paa_blocks_last; [symmetry; exact Hmod | exact Hqn |].
    rewrite Hmod in Hr. lia. }
  intros -> Hid. rewrite repr_paa_spec by lia. f_equal.
  change (Z.to_nat 1) with 1%nat. rewrite paa_blocks_singletons, map_map.
  rewrite <- (map_id x) at 2. apply map_ext. exact Hid.
Qed.

Lemma repr_paa_blocks_witness :
  1 <= 2 /\
  repr_paa [1; 2; 3; 4; 5]%float 2 (pure_fn agg_max) = Ok [2; 4; 5]%float /\
  paa_blocks 2 [1; 2; 3; 4; 5]%float = [[1; 2]; [3; 4]; [5]]%float.
Proof.
  split; [lia|]. split; [|reflexivity].
  exact (proj1 (repr_paa_blocks [1; 2; 3; 4; 5]%float 2 agg_max
                 ltac:(discriminate))).
Defined.

Example repr_paa_identity :
  repr_paa [4; 1; 3]%float 1 (pure_fn agg_max) = Ok [4; 1; 3]%float.
Proof. vm_compute. reflexivity. Qed.

(** ** The seasonal profile *)

Lemma seq_nth_self {A : Type} (x : list A) (d : A) :
  map (fun i => nth i x d) (seq 0 (length x)) = x.
Proof.
  pose proof (map_indices_nth (fun e => e) x d) as H.
  unfold indices in H. rewrite map_map, map_id in H.
  etransitivity; [|exact H]. apply map_ext. intros i. now rewrite Nat2Z.id.
Qed.

(** One phase, for an aggregation function that returns a value on every
    vector it is called on. *)
Lemma seas_phase_eq (func : list float -> result float)
    (agg : list float -> float) (x : list float)
    (freq freq_times i : Z) (repr : list float) (ind : list Z) :
  (forall l, length l = Z.to_nat freq_times -> func l = Ok (agg l)) ->
  1 <= freq -> 0 <= freq_times -> freq_times * freq <= Vec.size x ->
  0 <= i < freq -> Vec.size ind = freq_times ->
  seas_phase func x freq freq_times i (repr, ind)
  = (w <- Vec.set repr i
            (agg (phase_values x (Z.to_nat freq) (Z.to_nat freq_times)
                               (Z.to_nat i))) ;;
     Ok (w, map (fun j => j * freq + i) (indices (Z.to_nat freq_times)))).
Proof.
  intros Hfun Hf Hc Hfit Hi Hsz. unfold seas_phase.
  rewrite <- Hsz at 1.
  rewrite (fill_loop (fun j => j * freq + i)) by (intros; reflexivity).
  cbn [bind].
  replace (length ind) with (Z.to_nat freq_times)
    by (unfold Vec.size in Hsz; lia).
  rewrite (subset_ok x _ 0%float)
    by (apply Forall_map, Forall_indices; intros j Hj; nia).
  cbn [bind].
  rewrite Hfun by (rewrite !length_map; apply indices_length).
  cbn [bind].
  rewrite map_map. unfold phase_values, indices. rewrite map_map.
  do 3 f_equal. apply map_ext. intros j. f_equal. nia.
Qed.

(** What [repr_seas_profile] returns for [1 <= freq] and an aggregation
    function that returns a value on every vector of [floor(n/freq)]
    elements. *)
Lemma repr_seas_profile_partial (func : list float -> result float)
    (agg : list float -> float) (x : list float) (freq : Z) :
  (forall l, length l = Z.to_nat (Vec.size x / freq) -> func l = Ok (agg l)) ->
  1 <= freq ->
  repr_seas_profile x freq func
  = Ok (map (fun i => agg (phase_values x (Z.to_nat freq)
                                        (Z.to_nat (Vec.size x / freq)) i))
            (seq 0 (Z.to_nat freq))).
Proof.
  intros Hfun Hf. pose proof (size_nonneg x) as Hn.
  unfold repr_seas_profile, int_div.
  rewrite alloc_ok by lia. cbn [bind].
  destruct (Z.eqb_spec freq 0) as [|_]; [lia|]. cbn [bind].
  rewrite Z.quot_div_nonneg by lia.
  set (c := Vec.size x / freq).
  assert (Hc : 0 <= c) by (apply Z.div_pos; lia).
  assert (Hfit : c * freq <= Vec.size x)
    by (unfold c; pose proof (Z.mul_div_le (Vec.size x) freq); lia).
  rewrite alloc_ok by lia. cbn [bind].
  set (v0 := repeat 0%float (Z.to_nat freq)).
  assert (Hv0 : Vec.size v0 = freq) by (apply repeat_size; lia).
  set (F := fun i : Z =>
              agg (phase_values x (Z.to_nat freq) (Z.to_nat c) (Z.to_nat i))).
  destruct (fill_loop_pair F (fun b => Vec.size b = c)
              (seas_phase func x freq c) v0 v0
              (repeat 0 (Z.to_nat c)) 0 freq)
    as (v' & aux' & Hrun & Hfill & _).
  - lia.
  - lia.
  - reflexivity.
  - apply repeat_size. lia.
  - intros j w b Hj Hw Hb. eexists. split.
    + apply seas_phase_eq; try exact Hfun; try lia.
    + unfold Vec.size. rewrite length_map, indices_length. lia.
  - rewrite Hrun. cbn [bind fst]. f_equal.
    rewrite <- Hv0 in Hfill at 1. apply filled_to_all in Hfill.
    rewrite Hfill. unfold indices. rewrite map_map.
    unfold v0. rewrite repeat_length.
    apply map_ext. intros i. unfold F. now rewrite Nat2Z.id.
Qed.

(** What [repr_seas_profile] returns for [1 <= freq <= n]. *)
Lemma repr_seas_profile_spec (agg : list float -> float) (x : list float)
    (freq : Z) :
  1 <= freq <= Vec.size x ->
  repr_seas_profile x freq (pure_fn agg)
  = Ok (map (fun i => agg (phase_values x (Z.to_nat freq)
                                        (Z.to_nat (Vec.size x / freq)) i))
            (seq 0 (Z.to_nat freq))).
Proof.
  intros Hf. apply repr_seas_profile_partial; [|lia]. intros l _. reflexivity.
Qed.

(** C6.  For [1 <= freq <= n] and a pure aggregation function,
    [repr_seas_profile] returns [freq] values; the value at phase [i] is
    the aggregate of exactly the elements at the indices
    [i, i + freq, ..., i + (cycles - 1) * freq] with [cycles = floor(n/freq)],
    all of which lie below [cycles * freq]: the elements of an incomplete
    last cycle enter no phase.  For [freq = n] and an aggregation that maps
    a one-element vector to its element, the result is [x]. *)
Theorem repr_seas_profile_phases (x : list float) (freq : Z)
    (agg : list float -> float) :
  1 <= freq <= Vec.size x ->
  (exists r,
     repr_seas_profile x freq (pure_fn agg) = Ok r /\
     Vec.size r = freq /\
     forall i : nat,
       Z.of_nat i < freq ->
       nth i r 0%float
       = agg (map (fun j => nth (i + j * Z.to_nat freq) x 0%float)
                  (seq 0 (Z.to_nat (Vec.size x / freq))))) /\
  (forall i j : nat,
     Z.of_nat i < freq -> Z.of_nat j < Vec.size x / freq ->
     Z.of_nat (i + j * Z.to_nat freq) < Vec.size x / freq * freq
     /\ Vec.size x / freq * freq <= Vec.size x) /\
  (freq = Vec.size x -> (forall e, agg [e] = e) ->
   repr_seas_profile x freq (pure_fn agg) = Ok x).
Proof.
  intros Hf. split; [|split].
  - eexists. split; [apply repr_seas_profile_spec; exact Hf|]. split.
    + unfold Vec.size. rewrite length_map, length_seq. lia.
    + intros i Hi.
      rewrite (nth_indep _ 0%float
                 (agg (phase_values x (Z.to_nat freq)
                                    (Z.to_nat (Vec.size x / freq)) O)))
        by (rewrite length_map, length_seq; lia).
      rewrite (map_nth (fun i => agg (phase_values x (Z.to_nat freq)
                                        (Z.to_nat (Vec.size x / freq)) i))).
      rewrite seq_nth by lia. reflexivity.
  - intros i j Hi Hj.
    pose proof (Z.mul_div_le (Vec.size x) freq ltac:(lia)). nia.
  - intros -> Hid. rewrite repr_seas_profile_spec by lia. f_equal.
    rewrite Z.div_same by lia. unfold Vec.size. rewrite Nat2Z.id.
    etransitivity; [|apply (seq_nth_self x 0%float)].
    apply map_ext. intros i. unfold phase_values.
    change (Z.to_nat 1) with 1%nat. cbn [seq map].
    rewrite Hid. f_equal. lia.
Qed.

Lemma repr_seas_profile_phases_witness :
  (1 <= 2 <= Vec.size [1; 2; 3; 4; 5]%float) /\
  exists r,
    repr_seas_profile [1; 2; 3; 4; 5]%float 2 (pure_fn agg_max) = Ok r /\
    Vec.size r = 2 /\
    forall i : nat,
      Z.of_nat i < 2 ->
      nth i r 0%float
      = agg_max
          (map (fun j => nth (i + j * Z.to_nat 2) [1; 2; 3; 4; 5] 0)%float
               (seq 0 (Z.to_nat (Vec.size [1; 2; 3; 4; 5]%float / 2)))).
Proof.
  assert (H : 1 <= 2 <= Vec.size [1; 2; 3; 4; 5]%float)
    by (split; discriminate).
  split; [exact H|].
  exact (proj1 (repr_seas_profile_phases [1; 2; 3; 4; 5]%float 2 agg_max H)).
Defined.

Example repr_seas_profile_example :
  repr_seas_profile [1; 2; 3; 4; 5]%float 2 (pure_fn agg_max)
  = Ok [3; 4]%float.
Proof. vm_compute. reflexivity. Qed.

Example repr_seas_profile_identity :
  repr_seas_profile [4; 1; 3]%float 3 (pure_fn agg_max) = Ok [4; 1; 3]%float.
Proof. vm_compute. reflexivity. Qed.

(** ** The two passes over the runs *)

Lemma select_lengths_app (p : Z -> bool) (ls ls' vs vs' : list Z) :
  length ls = length vs ->
  select_lengths p (ls ++ ls') (vs ++ vs')
  = select_lengths p ls vs ++ select_lengths p ls' vs'.
Proof.
  revert vs. induction ls as [|l ls IH]; intros [|v vs] H; simpl in *;
    try discriminate; [reflexivity|].
  rewrite IH by congruence. destruct (p v); reflexivity.
Qed.

Lemma select_lengths_length (p : Z -> bool) (ls vs : list Z) :
  length ls = length vs ->
  length (select_lengths p ls vs) = length (filter p vs).
Proof.
  revert vs. induction ls as [|l ls IH]; intros [|v vs] H; simpl in *;
    try discriminate; [reflexivity|].
  destruct (p v); cbn [length]; rewrite IH by congruence; reflexivity.
Qed.

Lemma filter_firstn_le {A : Type} (p : A -> bool) (l : list A) (k : nat) :
  (length (filter p (firstn k l)) <= length (filter p l))%nat.
Proof.
  rewrite <- (firstn_skipn k l) at 2. rewrite filter_app, length_app. lia.
Qed.

Lemma firstn_size_of {A B : Type} (l : list A) (m : list B) :
  length l = length m -> firstn (Z.to_nat (Vec.size m)) l = l.
Proof. intros H. unfold Vec.size. rewrite Nat2Z.id, <- H. apply firstn_all. Qed.

Lemma count_loop (values : list Z) (z0 o0 : Z) :
  for_range 0 (Vec.size values) (count_body values) (z0, o0)
  = Ok (z0 + Vec.size (filter (fun v => v =? 0) values),
        o0 + Vec.size (filter (fun v => negb (v =? 0)) values)).
Proof.
  destruct (for_range_inv (count_inv values z0 o0) (count_body values)
              0 (Vec.size values) (z0, o0)) as [st [Hrun Hst]].
  - apply size_nonneg.
  - unfold count_inv. cbn. now rewrite !Z.add_0_r.
  - intros k [z o] Hk Hinv. unfold count_inv in *.
    injection Hinv as -> ->. unfold count_body.
    rewrite (get_ok values k 0) by lia. cbn [bind].
    replace (Z.to_nat (k + 1)) with (S (Z.to_nat k)) by lia.
    rewrite (firstn_succ_nth values (Z.to_nat k) 0)
      by (unfold Vec.size in Hk; lia).
    rewrite !filter_app, !size_app. cbn [filter].
    destruct (nth (Z.to_nat k) values 0 =? 0); cbn [negb];
      eexists; (split; [reflexivity|]); unfold Vec.size; cbn [length];
      f_equal; lia.
  - rewrite Hrun. f_equal. unfold count_inv in Hst.
    rewrite firstn_size in Hst. exact Hst.
Qed.

Lemma fill_store (sel v0 : list Z) (l : Z) :
  (length sel < length v0)%nat ->
  Vec.set (sel ++ skipn (length sel) v0) (Vec.size sel) l
  = Ok ((sel ++ [l]) ++ skipn (length (sel ++ [l])) v0).
Proof.
  intros H. rewrite set_ok.
  - f_equal. unfold Vec.size. rewrite Nat2Z.id.
    rewrite (skipn_cons_nth v0 (length sel) 0) by exact H.
    rewrite update_app_head, <- app_assoc, length_app. cbn [length app].
    now rewrite Nat.add_1_r.
  - unfold Vec.size. rewrite length_app, length_skipn. lia.
Qed.

Lemma fill_loop_runs (lengths values zeros0 ones0 : list Z) :
  length lengths = length values ->
  (length (filter (fun v => (v =? 0)%Z) values) <= length zeros0)%nat ->
  (length (filter (fun v => negb (v =? 0)%Z) values) <= length ones0)%nat ->
  for_range 0 (Vec.size values) (fill_body lengths values)
    (zeros0, ones0, 0, 0)
  = Ok (select_lengths (fun v => v =? 0) lengths values
          ++ skipn (length (filter (fun v => v =? 0) values)) zeros0,
        select_lengths (fun v => negb (v =? 0)) lengths values
          ++ skipn (length (filter (fun v => negb (v =? 0)) values)) ones0,
        Vec.size (filter (fun v => v =? 0) values),
        Vec.size (filter (fun v => negb (v =? 0)) values)).
Proof.
  intros Hlen Hz Ho.
  destruct (for_range_inv (fill_inv lengths values zeros0 ones0)
              (fill_body lengths values) 0 (Vec.size values)
              (zeros0, ones0, 0, 0)) as [st [Hrun Hst]].
  - apply size_nonneg.
  - reflexivity.
  - intros k [[[zeros ones] z] o] Hk Hinv. unfold fill_inv in *.
    cbv zeta in *.
    assert (Hkn : (Z.to_nat k < length values)%nat)
      by (unfold Vec.size in Hk; lia).
    assert (Hfl : length (firstn (Z.to_nat k) lengths)
                  = length (firstn (Z.to_nat k) values))
      by (rewrite !length_firstn; lia).
    replace (Z.to_nat (k + 1)) with (S (Z.to_nat k)) by lia.
    rewrite (firstn_succ_nth values (Z.to_nat k) 0) by exact Hkn.
    rewrite (firstn_succ_nth lengths (Z.to_nat k) 0) by lia.
    rewrite !select_lengths_app by exact Hfl.
    pose proof (filter_firstn_le (fun v => v =? 0) values (S (Z.to_nat k))) as Bz.
    pose proof (filter_firstn_le (fun v => negb (v =? 0)) values (S (Z.to_nat k))) as Bo.
    rewrite (firstn_succ_nth values (Z.to_nat k) 0) in Bz, Bo by exact Hkn.
    rewrite filter_app, length_app in Bz, Bo.
    rewrite <- (select_lengths_length _ (firstn (Z.to_nat k) lengths)) in Bz
      by exact Hfl.
    rewrite <- (select_lengths_length _ (firstn (Z.to_nat k) lengths)) in Bo
      by exact Hfl.
    set (zs := select_lengths (fun v => v =? 0) (firstn (Z.to_nat k) lengths)
                 (firstn (Z.to_nat k) values)) in *.
    set (os := select_lengths (fun v => negb (v =? 0))
                 (firstn (Z.to_nat k) lengths)
                 (firstn (Z.to_nat k) values)) in *.
    injection Hinv as -> -> -> ->. unfold fill_body.
    rewrite (get_ok values k 0) by lia. cbn [bind].
    cbn [filter select_lengths] in *.
    destruct (nth (Z.to_nat k) values 0 =? 0); cbn [negb] in *;
      rewrite (get_ok lengths k 0) by (unfold Vec.size in *; lia);
      cbn [bind length] in *;
      rewrite fill_store by lia; cbn [bind];
      eexists; (split; [reflexivity|]);
      rewrite !app_nil_r; unfold Vec.size; rewrite !length_app; cbn [length];
      repeat f_equal; lia.
  - rewrite Hrun. f_equal. unfold fill_inv in Hst. cbv zeta in Hst.
    rewrite firstn_size, (firstn_size_of lengths values Hlen) in Hst.
    rewrite !select_lengths_length in Hst by exact Hlen.
    rewrite Hst. unfold Vec.size.
    rewrite !select_lengths_length by exact Hlen. reflexivity.
Qed.

(** ** Features of the clipped representation *)

Lemma nth_pred_last {A : Type} (l : list A) (d : A) :
  nth (length l - 1) l d = last l d.
Proof.
  induction l as [|a l IH] using rev_ind; [reflexivity|].
  rewrite last_last, length_app. cbn [length].
  replace (length l + 1 - 1)%nat with (length l) by lia.
  apply nth_app_last.
Qed.

Lemma nth_zero_hd {A : Type} (l : list A) (d : A) : nth 0 l d = hd d l.
Proof. destruct l; reflexivity. Qed.

Lemma select_lengths_ext (p q : Z -> bool) (ls vs : list Z) :
  Forall (fun v => p v = q v) vs ->
  select_lengths p ls vs = select_lengths q ls vs.
Proof.
  intros H. revert ls. induction H as [|v vs Hv H IH]; intros [|l ls];
    try reflexivity.
  cbn [select_lengths]. rewrite Hv, IH. reflexivity.
Qed.

Lemma select_lengths_Forall (P : Z -> Prop) (p : Z -> bool) (ls vs : list Z) :
  Forall P ls -> Forall P (select_lengths p ls vs).
Proof.
  intros H. revert vs. induction H as [|l ls Hl H IH]; intros [|v vs];
    cbn [select_lengths]; try constructor.
  destruct (p v); [constructor; [exact Hl | apply IH] | apply IH].
Qed.

Lemma max_element_max (l : list Z) :
  l <> [] -> Forall (fun e => 0 <= e) l ->
  max_element Z.ltb l = Ok (max_or_zero l).
Proof.
  destruct l as [|h t]; [congruence|]. intros _ H.
  unfold max_element, max_or_zero. f_equal.
  inversion H as [|? ? Hh Ht]; subst. clear H.
  revert h Hh. induction Ht as [|e t He Ht IH]; intros h Hh.
  - cbn. lia.
  - cbn [fold_left fold_right].
    destruct (Z.ltb_spec h e).
    + rewrite IH by lia. cbn [fold_right]. lia.
    + rewrite IH by lia. cbn [fold_right]. lia.
Qed.

Lemma edge_feature_eq (representation : list float) (lengths values : list Z)
    (i v slot : Z) :
  0 <= i < Vec.size values -> Vec.size lengths = Vec.size values ->
  0 <= slot < Vec.size representation ->
  edge_feature representation lengths values i v slot
  = Ok (Vec.update representation (Z.to_nat slot)
          (int_to_double (if nth (Z.to_nat i) values 0 =? v
                          then nth (Z.to_nat i) lengths 0 else 0))).
Proof.
  intros Hi Hsz Hslot. unfold edge_feature.
  rewrite (get_ok values i 0) by lia. cbn [bind].
  destruct (nth (Z.to_nat i) values 0 =? v).
  - rewrite (get_ok lengths i 0) by lia. cbn [bind]. now apply set_ok.
  - now apply set_ok.
Qed.

(** The bits of [clipping] survive the conversion to [double] and back. *)
Lemma clipped_values_bits (x : list float) (bits : list Z) (r : rle) :
  clipping x = Ok bits ->
  Forall (fun v => In v (map int_to_double bits)) (values r) ->
  Forall (fun v => v = 0 \/ v = 1) (map double_to_int (values r)).
Proof.
  intros Hc Hin. rewrite clipping_spec in Hc. injection Hc as <-.
  apply Forall_map. eapply Forall_impl; [|exact Hin].
  intros v Hv. cbn beta in Hv. rewrite map_map in Hv.
  apply in_map_iff in Hv. destruct Hv as [e [<- _]].
  destruct (gtb e _); [right | left]; reflexivity.
Qed.

(** ** Integers as doubles

    Integers below [2^53] are binary64 numbers, and their sum is computed
    exactly as long as it stays below [2^53]. *)

Lemma iter_pos_iter {A : Type} (f : A -> A) (p : positive) (x : A) :
  iter_pos f p x = Pos.iter f x p.
Proof.
  revert x. induction p as [p IH | p IH |]; intros x; cbn [iter_pos Pos.iter].
  - rewrite !IH. now rewrite <- !Pos.iter_swap.
  - now rewrite !IH.
  - reflexivity.
Qed.

Lemma shr_iter (N : positive) (p : positive) :
  Pos.iter shr_1 (Build_shr_record (Zpos (Pos.iter xO N p)) false false) p
  = Build_shr_record (Zpos N) false false.
Proof.
  revert N. induction p as [|p IH] using Pos.peano_ind; intros N.
  - reflexivity.
  - rewrite (Pos.iter_succ p _ xO), Pos.iter_succ, <- Pos.iter_swap.
    cbn [shr_1 orb]. apply IH.
Qed.

Lemma digits_iter (N : positive) (p : positive) :
  Zpos (digits2_pos (Pos.iter xO N p)) = Zpos (digits2_pos N) + Zpos p.
Proof.
  induction p as [|p IH] using Pos.peano_ind.
  - cbn [Pos.iter digits2_pos]. lia.
  - rewrite Pos.iter_succ. cbn [digits2_pos]. lia.
Qed.

Lemma Zpos_iter (N : positive) (p : positive) :
  Zpos (Pos.iter xO N p) = Zpos N * 2 ^ Zpos p.
Proof.
  induction p as [|p IH] using Pos.peano_ind.
  - cbn [Pos.iter]. lia.
  - rewrite Pos.iter_succ, Pos2Z.inj_succ, Z.pow_succ_r by lia.
    rewrite Pos2Z.inj_xO, IH. lia.
Qed.

Lemma pshl_value (N : positive) (k : Z) :
  0 <= k -> Zpos (pshl N k) = Zpos N * 2 ^ k.
Proof.
  intros Hk. destruct k as [|p|p]; cbn [pshl]; [lia | apply Zpos_iter | lia].
Qed.

Lemma pshl_digits (N : positive) (k : Z) :
  0 <= k -> Zpos (digits2_pos (pshl N k)) = Zpos (digits2_pos N) + k.
Proof.
  intros Hk. destruct k as [|p|p]; cbn [pshl]; [lia | apply digits_iter | lia].
Qed.

Lemma pshl_pshl (N : positive) (j k : Z) :
  0 <= j -> 0 <= k -> pshl (pshl N j) k = pshl N (j + k).
Proof.
  intros Hj Hk. apply Pos2Z.inj.
  rewrite !pshl_value by lia. rewrite Z.pow_add_r by lia. lia.
Qed.

Lemma pshl_add (a b : positive) (k : Z) :
  0 <= k -> Zpos (pshl a k) + Zpos (pshl b k) = Zpos (pshl (a + b) k).
Proof.
  intros Hk. rewrite !pshl_value by lia. lia.
Qed.

Lemma digits_lower (N : positive) : 2 ^ (Zpos (digits2_pos N) - 1) <= Zpos N.
Proof.
  induction N as [N IH | N IH |]; cbn [digits2_pos].
  - rewrite Pos2Z.inj_succ.
    replace (Z.succ (Zpos (digits2_pos N)) - 1)
      with (Z.succ (Zpos (digits2_pos N) - 1)) by lia.
    rewrite Z.pow_succ_r by lia. lia.
  - rewrite Pos2Z.inj_succ.
    replace (Z.succ (Zpos (digits2_pos N)) - 1)
      with (Z.succ (Zpos (digits2_pos N) - 1)) by lia.
    rewrite Z.pow_succ_r by lia. lia.
  - cbn. lia.
Qed.

Lemma digits_bound (N : positive) :
  Zpos N < 2 ^ 53 -> Zpos (digits2_pos N) <= 53.
Proof.
  intros H. pose proof (digits_lower N) as Hl.
  destruct (Z.le_gt_cases (Zpos (digits2_pos N)) 53) as [|Hgt]; [assumption|].
  assert (2 ^ 53 <= 2 ^ (Zpos (digits2_pos N) - 1))
    by (apply Z.pow_le_mono_r; lia).
  lia.
Qed.

Lemma shl_align_eq (m : positive) (e e' : Z) :
  e' <= e -> shl_align m e e' = (pshl m (e - e'), e').
Proof.
  intros H. unfold shl_align.
  destruct (e' - e) as [|p|p] eqn:E.
  - replace (e - e') with 0 by lia. cbn [pshl]. f_equal. lia.
  - lia.
  - replace (e - e') with (Zpos p) by lia. reflexivity.
Qed.

(** A mantissa with exactly 53 digits is kept as it is. *)
Lemma binary_round_aux_canonical (M : positive) (E : Z) :
  Zpos (digits2_pos M) = 53 -> -1074 <= E <= 971 ->
  binary_round_aux prec emax false (Zpos M) E loc_Exact
  = S754_finite false M E.
Proof.
  intros Hd HE. unfold binary_round_aux, shr_fexp, fexp, emin, prec, emax.
  cbn [Zdigits2 shr_record_of_loc]. rewrite Hd.
  replace (Z.max (53 + E - 53) (3 - 1024 - 53) - E) with 0 by lia.
  cbn [shr shr_m loc_of_shr_record round_nearest_even Zdigits2
       shr_record_of_loc].
  rewrite Hd.
  replace (Z.max (53 + E - 53) (3 - 1024 - 53) - E) with 0 by lia.
  cbn [shr shr_m].
  destruct (Z.leb_spec E (1024 - 53)); [reflexivity | lia].
Qed.

(** Rounding [N * 2^(-e) * 2^e] for an integer [N] below [2^53] gives the
    representation of [N]. *)
Lemma binary_round_int (N : positive) (e : Z) :
  e <= 0 -> Zpos (digits2_pos N) <= 53 ->
  binary_round prec emax false (pshl N (- e)) e = canonical_int N.
Proof.
  intros He Hd. unfold binary_round, canonical_int.
  set (d := Zpos (digits2_pos N)) in *.
  assert (Hd1 : 1 <= d) by (unfold d; lia).
  assert (Hfexp : fexp prec emax (Zpos (digits2_pos (pshl N (- e))) + e)
                  = d - 53).
  { rewrite pshl_digits by lia. fold d. unfold fexp, emin, prec, emax. lia. }
  rewrite Hfexp.
  destruct (Z.le_gt_cases (d - 53) e) as [Hle | Hgt].
  - rewrite shl_align_eq by exact Hle.
    rewrite pshl_pshl by lia.
    replace (- e + (e - (d - 53))) with (53 - d) by lia.
    apply binary_round_aux_canonical; [|lia].
    rewrite pshl_digits by lia. fold d. lia.
  - unfold shl_align.
    destruct (d - 53 - e) as [|p|p] eqn:E; try lia.
    unfold binary_round_aux, shr_fexp. cbn [Zdigits2]. rewrite Hfexp, E.
    cbn [shr shr_record_of_loc]. rewrite iter_pos_iter.
    replace (pshl N (- e)) with (Pos.iter xO (pshl N (53 - d)) p).
    2:{ change (Pos.iter xO (pshl N (53 - d)) p)
          with (pshl (pshl N (53 - d)) (Zpos p)).
        rewrite pshl_pshl by lia. f_equal. lia. }
    rewrite shr_iter.
    cbn [shr_m loc_of_shr_record round_nearest_even].
    replace (e + Zpos p) with (d - 53) by lia.
    fold (shr_fexp prec emax (Zpos (pshl N (53 - d))) (d - 53) loc_Exact).
    pose proof (binary_round_aux_canonical (pshl N (53 - d)) (d - 53)) as Hc.
    unfold binary_round_aux in Hc.
    assert (H53 : Zpos (digits2_pos (pshl N (53 - d))) = 53)
      by (rewrite pshl_digits by lia; fold d; lia).
    specialize (Hc H53 ltac:(lia)).
    unfold shr_fexp in Hc at 1. cbn [Zdigits2 shr_record_of_loc] in Hc.
    rewrite H53 in Hc.
    replace (fexp prec emax (53 + (d - 53)) - (d - 53)) with 0 in Hc
      by (unfold fexp, emin, prec, emax; lia).
    cbn [shr shr_m loc_of_shr_record round_nearest_even] in Hc.
    exact Hc.
Qed.

Lemma binary_normalize_int (N : positive) :
  Zpos (digits2_pos N) <= 53 ->
  binary_normalize prec emax (Zpos N) 0 false = canonical_int N.
Proof.
  intros Hd. cbn [binary_normalize].
  apply (binary_round_int N 0); [lia | exact Hd].
Qed.

Lemma SFadd_int (a b : positive) :
  Zpos a + Zpos b < 2 ^ 53 ->
  SF64add (canonical_int a) (canonical_int b) = canonical_int (a + b).
Proof.
  intros H.
  assert (Ha : Zpos (digits2_pos a) <= 53) by (apply digits_bound; lia).
  assert (Hb : Zpos (digits2_pos b) <= 53) by (apply digits_bound; lia).
  assert (Hab : Zpos (digits2_pos (a + b)) <= 53)
    by (apply digits_bound; rewrite Pos2Z.inj_add; lia).
  unfold SF64add, canonical_int at 1 2. cbn [SFadd].
  set (da := Zpos (digits2_pos a)) in *.
  set (db := Zpos (digits2_pos b)) in *.
  assert (1 <= da) by (unfold da; lia).
  assert (1 <= db) by (unfold db; lia).
  set (ez := Z.min (da - 53) (db - 53)).
  rewrite !shl_align_eq by (unfold ez; lia).
  cbn [fst cond_Zopp]. rewrite !pshl_pshl by (unfold ez; lia).
  replace (53 - da + (da - 53 - ez)) with (- ez) by lia.
  replace (53 - db + (db - 53 - ez)) with (- ez) by lia.
  rewrite pshl_add by (unfold ez; lia).
  cbn [binary_normalize].
  apply binary_round_int; [unfold ez; lia | exact Hab].
Qed.

Lemma Prim2SF_int (z : Z) :
  0 < z < 2 ^ 53 ->
  exists N, z = Zpos N /\ Prim2SF (int_to_double z) = canonical_int N.
Proof.
  intros Hz. destruct z as [|N|N]; try lia. exists N. split; [reflexivity|].
  unfold int_to_double. destruct (Z.ltb_spec (Zpos N) 0); [lia|].
  rewrite of_uint63_spec, Uint63.of_Z_spec.
  rewrite Z.mod_small.
  - apply binary_normalize_int. apply digits_bound. lia.
  - split; [lia|]. apply Z.lt_trans with (2 ^ 53); [lia|]. reflexivity.
Qed.

(** Addition of integers in [double] is exact below [2^53]. *)
Lemma int_add_exact (a b : Z) :
  0 <= a -> 0 <= b -> a + b < 2 ^ 53 ->
  (int_to_double a + int_to_double b)%float = int_to_double (a + b).
Proof.
  intros Ha Hb Hab. apply Prim2SF_inj. rewrite add_spec.
  assert (H0 : Prim2SF (int_to_double 0) = S754_zero false) by reflexivity.
  destruct (Z.eq_dec a 0) as [-> | Hna];
    [|destruct (Z.eq_dec b 0) as [-> | Hnb]].
  - rewrite Z.add_0_l, H0.
    destruct (Z.eq_dec b 0) as [-> | Hnb]; [reflexivity|].
    destruct (Prim2SF_int b) as [N [_ Sb]]; [lia|]. rewrite Sb. reflexivity.
  - rewrite Z.add_0_r, H0.
    destruct (Prim2SF_int a) as [N [_ Sa]]; [lia|]. rewrite Sa. reflexivity.
  - destruct (Prim2SF_int a) as [Na [Ea Sa]]; [lia|].
    destruct (Prim2SF_int b) as [Nb [Eb Sb]]; [lia|].
    destruct (Prim2SF_int (a + b)) as [Nc [Ec Sc]]; [lia|].
    rewrite Sa, Sb, Sc.
    assert (Nc = (Na + Nb)%positive) by lia. subst Nc.
    apply SFadd_int. lia.
Qed.

(** [std::accumulate] of integers into a [double] is their sum. *)
Lemma accumulate_int_exact (l : list Z) (s0 : Z) :
  Forall (fun e => 0 <= e) l -> 0 <= s0 -> s0 + sumZ l < 2 ^ 53 ->
  accumulate (fun acc e => acc + int_to_double e)%float l (int_to_double s0)
  = int_to_double (s0 + sumZ l).
Proof.
  unfold accumulate. intros Hl. revert s0.
  induction Hl as [|e l He Hl IH]; intros s0 Hs Hsum.
  - cbn. f_equal. unfold sumZ. cbn. lia.
  - cbn [fold_left]. unfold sumZ in *. cbn [fold_right] in *.
    assert (Hnn : 0 <= fold_right Z.add 0 l).
    { clear -Hl. induction Hl; cbn; lia. }
    rewrite int_add_exact by lia.
    rewrite IH by lia. f_equal. lia.
Qed.

Lemma skipn_repeat_size {A B : Type} (d : A) (l : list B) :
  skipn (length l) (repeat d (Z.to_nat (Vec.size l))) = [].
Proof.
  apply skipn_all2. rewrite repeat_length. unfold Vec.size. lia.
Qed.

Lemma select_lengths_sum (p : Z -> bool) (ls vs : list Z) :
  Forall (fun l => 0 <= l) ls ->
  0 <= sumZ (select_lengths p ls vs) <= sumZ ls.
Proof.
  intros H. revert vs. unfold sumZ.
  induction H as [|l ls Hl H IH]; intros [|v vs]; cbn [select_lengths fold_right];
    try lia.
  - assert (0 <= fold_right Z.add 0 ls) by (specialize (IH []); cbn in IH; lia).
    lia.
  - specialize (IH vs). destruct (p v); cbn [fold_right]; lia.
Qed.

Ltac vec_update :=
  repeat match goal with
         | |- context [Z.to_nat (Zpos ?p)] =>
             let n := eval compute in (Z.to_nat (Zpos p)) in
             change (Z.to_nat (Zpos p)) with n
         | |- context [Z.to_nat 0] => change (Z.to_nat 0) with O
         end;
  cbn [Vec.update].

Ltac vec_set :=
  rewrite set_ok by (unfold Vec.size; cbn [length]; lia);
  cbn [bind]; vec_update.

(** C3.  When [clipping x] is not empty, [repr_feaclip x] is the vector of
    eight features of the runs of [rleC (clipping x)]: the largest length
    of a run of ones (0 without such a run), the sum of the lengths of the
    runs of ones, the largest length of a run of zeros (0 without such a
    run), the number of runs minus one, the length of the first run if its
    value is 0 and 0 otherwise, the same for the last run, and both again
    for the value 1.  The sum is accumulated in [double]; for a vector of
    fewer than [2^53] elements (every vector an [int] can index) it is the
    exact sum.  With a single run the first and the last run are the same
    run. *)
Theorem repr_feaclip_features (x : list float) (bits : list Z) :
  clipping x = Ok bits -> bits <> [] ->
  exists r,
    rleC (map int_to_double bits) = Ok r /\
    repr_feaclip x
    = Ok [ int_to_double
             (max_or_zero
                (run_lengths 1 (lengths r) (map double_to_int (values r))));
           accumulate (fun acc l => acc + int_to_double l)%float
             (run_lengths 1 (lengths r) (map double_to_int (values r)))
             0%float;
           int_to_double
             (max_or_zero
                (run_lengths 0 (lengths r) (map double_to_int (values r))));
           int_to_double (Vec.size (values r) - 1);
           int_to_double
             (if hd 0 (map double_to_int (values r)) =? 0
              then hd 0 (lengths r) else 0);
           int_to_double
             (if last (map double_to_int (values r)) 0 =? 0
              then last (lengths r) 0 else 0);
           int_to_double
             (if hd 0 (map double_to_int (values r)) =? 1
              then hd 0 (lengths r) else 0);
           int_to_double
             (if last (map double_to_int (values r)) 0 =? 1
              then last (lengths r) 0 else 0) ] /\
    (Vec.size bits < 2 ^ 53 ->
     accumulate (fun acc l => acc + int_to_double l)%float
       (run_lengths 1 (lengths r) (map double_to_int (values r))) 0%float
     = int_to_double
         (sumZ (run_lengths 1 (lengths r) (map double_to_int (values r))))) /\
    (Vec.size (values r) = 1 ->
     hd 0 (map double_to_int (values r)) = last (map double_to_int (values r)) 0
     /\ hd 0 (lengths r) = last (lengths r) 0).
Proof.
  intros Hclip Hne.
  destruct (rleC_spec (map int_to_double bits)) as
    (r & Hr & Hlen & Hpos & Hsum & _ & _ & Hin).
  { destruct bits; [congruence | discriminate]. }
  exists r. split; [exact Hr|].
  pose proof (clipped_values_bits x bits r Hclip Hin) as Hbits.
  set (ls := lengths r) in *.
  set (vs := map double_to_int (values r)) in *.
  assert (Hlv : length ls = length vs)
    by (unfold vs; rewrite length_map; exact Hlen).
  assert (Hn : (1 <= length vs)%nat).
  { rewrite <- Hlv. destruct ls as [|l ls']; cbn [length]; [|lia].
    unfold sumZ in Hsum. cbn in Hsum.
    destruct bits; [congruence|]. unfold Vec.size in Hsum.
    cbn [map length] in Hsum. lia. }
  assert (Hsize : Vec.size (values r) = Vec.size vs)
    by (unfold Vec.size, vs; now rewrite length_map).
  assert (Hlast : nth (length vs - 1) ls 0 = last ls 0)
    by (rewrite <- Hlv; apply nth_pred_last).
  split.
  - unfold repr_feaclip. cbn [Vec.alloc Z.ltb Z.compare bind].
    rewrite Hclip. cbn [bind]. rewrite Hr. cbn [bind].
    fold ls vs. rewrite Hsize.
    change (Z.to_nat 8) with 8%nat. cbn [repeat].
    vec_set.
    rewrite edge_feature_eq
      by (unfold Vec.size in *; cbn [length]; lia).
    cbn [bind]. vec_update.
    rewrite edge_feature_eq
      by (unfold Vec.size in *; cbn [length]; lia).
    cbn [bind]. vec_update.
    rewrite edge_feature_eq
      by (unfold Vec.size in *; cbn [length]; lia).
    cbn [bind]. vec_update.
    rewrite edge_feature_eq
      by (unfold Vec.size in *; cbn [length]; lia).
    cbn [bind]. vec_update.
    replace (Z.to_nat (Vec.size vs - 1)) with (length vs - 1)%nat
      by (unfold Vec.size; lia).
    rewrite !nth_zero_hd, !nth_pred_last, !Hlast.
    rewrite count_loop. cbn [bind]. rewrite !Z.add_0_l.
    rewrite !alloc_ok by apply size_nonneg. cbn [bind].
    rewrite fill_loop_runs;
      [| exact Hlv
       | rewrite repeat_length; unfold Vec.size; lia
       | rewrite repeat_length; unfold Vec.size; lia ].
    cbn [bind].
    rewrite !skipn_repeat_size, !app_nil_r.
    rewrite (select_lengths_ext (fun v => negb (v =? 0)) (fun v => v =? 1))
      by (eapply Forall_impl; [|exact Hbits];
          intros v [-> | ->]; reflexivity).
    fold (run_lengths 0 ls vs). fold (run_lengths 1 ls vs).
    assert (Hge : forall v, Forall (fun e => 0 <= e) (run_lengths v ls vs)).
    { intros v. apply select_lengths_Forall.
      eapply Forall_impl; [|exact Hpos]. intros; cbn beta in *; lia. }
    assert (Hmax : forall v, run_lengths v ls vs <> [] ->
              max_element Z.ltb (run_lengths v ls vs)
              = Ok (max_or_zero (run_lengths v ls vs)))
      by (intros v Hv; apply max_element_max; [exact Hv | apply Hge]).
    assert (Hones :
      (if Vec.size (run_lengths 1 ls vs) =? 0
       then
         representation <-
           Vec.set
             [0%float; 0%float; 0%float; int_to_double (Vec.size vs - 1);
              int_to_double (if hd 0 vs =? 0 then hd 0 ls else 0);
              int_to_double (if last vs 0 =? 0 then last ls 0 else 0);
              int_to_double (if hd 0 vs =? 1 then hd 0 ls else 0);
              int_to_double (if last vs 0 =? 1 then last ls 0 else 0)]
             0 0%float ;;
         Vec.set representation 1 0%float
       else
         m <- max_element Z.ltb (run_lengths 1 ls vs) ;;
         representation <-
           Vec.set
             [0%float; 0%float; 0%float; int_to_double (Vec.size vs - 1);
              int_to_double (if hd 0 vs =? 0 then hd 0 ls else 0);
              int_to_double (if last vs 0 =? 0 then last ls 0 else 0);
              int_to_double (if hd 0 vs =? 1 then hd 0 ls else 0);
              int_to_double (if last vs 0 =? 1 then last ls 0 else 0)]
             0 (int_to_double m) ;;
         Vec.set representation 1
           (accumulate (fun acc l => acc + int_to_double l)%float
              (run_lengths 1 ls vs) 0%float))
      = Ok [int_to_double (max_or_zero (run_lengths 1 ls vs));
            accumulate (fun acc l => acc + int_to_double l)%float
              (run_lengths 1 ls vs) 0%float;
            0%float; int_to_double (Vec.size vs - 1);
            int_to_double (if hd 0 vs =? 0 then hd 0 ls else 0);
            int_to_double (if last vs 0 =? 0 then last ls 0 else 0);
            int_to_double (if hd 0 vs =? 1 then hd 0 ls else 0);
            int_to_double (if last vs 0 =? 1 then last ls 0 else 0)]).
    { destruct (run_lengths 1 ls vs) as [|o1 ones] eqn:Eo.
      - cbn [Vec.size length Z.of_nat Z.eqb]. vec_set. vec_set. reflexivity.
      - rewrite <- Eo. rewrite Hmax by (rewrite Eo; discriminate).
        rewrite Eo at 1. cbn [Vec.size length Z.of_nat Z.eqb bind].
        vec_set. vec_set. reflexivity. }
    rewrite Hones. cbn [bind].
    destruct (run_lengths 0 ls vs) as [|z1 zeros] eqn:Ez.
    + cbn [Vec.size length Z.of_nat Z.eqb]. vec_set. reflexivity.
    + rewrite <- Ez. rewrite Hmax by (rewrite Ez; discriminate).
      rewrite Ez at 1. cbn [Vec.size length Z.of_nat Z.eqb bind].
      vec_set. reflexivity.
  - split.
    { intros Hbound.
      assert (Hnn : Forall (fun l => 0 <= l) ls)
        by (eapply Forall_impl; [|exact Hpos]; intros; cbn beta in *; lia).
      pose proof (select_lengths_sum (fun w => w =? 1) ls vs Hnn) as Hs.
      fold (run_lengths 1 ls vs) in Hs.
      assert (Hsz : sumZ ls = Vec.size bits)
        by (rewrite Hsum; unfold Vec.size; now rewrite length_map).
      change 0%float with (int_to_double 0).
      rewrite accumulate_int_exact; [f_equal; lia | | lia | lia].
      apply select_lengths_Forall. exact Hnn. }
    intros H1. rewrite Hsize in H1. unfold Vec.size in H1.
    destruct vs as [|v [|v' vs']]; cbn [length] in *; try lia.
    destruct ls as [|l [|l' ls']]; cbn [length] in *; try lia.
    split; reflexivity.
Qed.
Lemma repr_feaclip_features_witness :
  clipping [1; 3; 2; 5; 4]%float = Ok [0; 0; 0; 1; 1] /\
  [0; 0; 0; 1; 1] <> [] /\
  repr_feaclip [1; 3; 2; 5; 4]%float = Ok [2; 2; 3; 1; 3; 0; 0; 2]%float.
Proof.
  assert (H1 : clipping [1; 3; 2; 5; 4]%float = Ok [0; 0; 0; 1; 1])
    by reflexivity.
  assert (H2 : [0; 0; 0; 1; 1] <> []) by discriminate.
  split; [exact H1|]. split; [exact H2|].
  destruct (repr_feaclip_features [1; 3; 2; 5; 4]%float [0; 0; 0; 1; 1] H1 H2)
    as (r & Hr & Hf & _).
  assert (Er : r = mkRle [3; 2] [0; 1]%float)
    by (vm_compute in Hr; congruence).
  rewrite Hf, Er. vm_compute. reflexivity.
Defined.

(** ** Features of the trend representation *)

Lemma trending_spec (x : list float) :
  1 <= Vec.size x ->
  trending x
  = Ok (map (fun i => if (nth (Z.to_nat i) x 0 - nth (Z.to_nat (i + 1)) x 0 <? 0)%float
                      then 1 else 0)
            (indices (length x - 1))).
Proof.
  intros Hn. unfold trending. rewrite alloc_ok by lia. cbn [bind].
  set (v0 := repeat 0 (Z.to_nat (Vec.size x - 1))).
  assert (Hsz : Vec.size v0 = Vec.size x - 1) by (apply repeat_size; lia).
  rewrite <- Hsz.
  rewrite (fill_loop
             (fun i => if (nth (Z.to_nat i) x 0 - nth (Z.to_nat (i + 1)) x 0 <? 0)%float
                       then 1 else 0)).
  - do 3 f_equal. unfold Vec.size in Hsz. lia.
  - intros j v Hj Hv.
    rewrite (get_ok x j 0%float) by lia. cbn [bind].
    rewrite (get_ok x (j + 1) 0%float) by lia. cbn [bind].
    destruct (_ <? _)%float; reflexivity.
Qed.

Lemma trending_bits (x : list float) (b : list Z) :
  1 <= Vec.size x -> trending x = Ok b ->
  Forall (fun v => v = 0 \/ v = 1) b /\ length b = (length x - 1)%nat.
Proof.
  intros Hn H. rewrite trending_spec in H by exact Hn. injection H as <-.
  split.
  - apply Forall_map, Forall_forall. intros i _.
    destruct (_ <? _)%float; auto.
  - now rewrite length_map, indices_length.
Qed.

(** Bits survive the conversion to [double] and back. *)
Lemma bit_values (bits : list Z) (r : rle) :
  Forall (fun v => v = 0 \/ v = 1) bits ->
  Forall (fun v => In v (map int_to_double bits)) (values r) ->
  Forall (fun v => v = 0 \/ v = 1) (map double_to_int (values r)).
Proof.
  intros Hb Hin. apply Forall_map. eapply Forall_impl; [|exact Hin].
  intros v Hv. cbn beta in Hv. apply in_map_iff in Hv.
  destruct Hv as [e [<- He]]. rewrite Forall_forall in Hb.
  destruct (Hb e He) as [-> | ->]; [left | right]; reflexivity.
Qed.

Lemma skipn_repeat_add {A : Type} (d : A) (a b : nat) :
  skipn a (repeat d (b + a)) = repeat d b.
Proof.
  induction a as [|a IH]; [now rewrite Nat.add_0_r|].
  rewrite Nat.add_succ_r. cbn [repeat skipn]. exact IH.
Qed.

Lemma piece_window (s : list float) (np j : nat) :
  (S j * np <= length s)%nat ->
  map (fun t => nth (Z.to_nat t) s 0%float)
      (map (fun i => i + Z.of_nat np * Z.of_nat j) (indices np))
  = piece_block s np j.
Proof.
  intros H. unfold piece_block.
  rewrite <- (window_eq s (j * np) np 0%float) by lia.
  rewrite map_map. apply map_ext. intros i. do 2 f_equal. lia.
Qed.
(** The guarded call of the aggregation function, for a function that
    returns a value on every non-empty vector. *)
Lemma feature_or_zero (func : list Z -> result float) (agg : list Z -> float)
    (Hfun : forall l, l <> [] -> func l = Ok (agg l))
    (repr : list float) (slot : Z) (l : list Z) :
  0 <= slot < Vec.size repr ->
  (if Vec.size l =? 0 then Vec.set repr slot 0%float
   else r <- func l ;; Vec.set repr slot r)
  = Ok (Vec.update repr (Z.to_nat slot)
          (match l with [] => 0%float | l' => agg l' end)).
Proof.
  intros H. destruct l as [|a l]; cbn [Vec.size length Z.of_nat Z.eqb].
  - apply set_ok. exact H.
  - rewrite Hfun by discriminate. cbn [bind]. apply set_ok. exact H.
Qed.

(** One round of the loop over the pieces, for counters holding [on] and
    [zn] when it starts. *)
Lemma featrend_piece_eq (func : list Z -> result float)
    (agg : list Z -> float)
    (Hfun : forall l, l <> [] -> func l = Ok (agg l))
    (s : list float)
    (np j on zn : nat) (repr : list float) (x_ind : list Z) :
  (2 <= np)%nat -> (S j * np <= length s)%nat -> length x_ind = np ->
  (2 * j + 1 < length repr)%nat ->
  featrend_piece func s (Z.of_nat np) (Z.of_nat j)
    (repr, x_ind, Z.of_nat on, Z.of_nat zn)
  = Ok (Vec.update
          (Vec.update repr (2 * j)
             (match piece_run_lengths s np j 1 ++ repeat 0 on with
              | [] => 0%float
              | l => agg l
              end))
          (2 * j + 1)
          (match piece_run_lengths s np j 0 ++ repeat 0 zn with
           | [] => 0%float
           | l => agg l
           end),
        map (fun i => i + Z.of_nat np * Z.of_nat j) (indices np),
        Z.of_nat (length (piece_run_lengths s np j 1)),
        Z.of_nat (length (piece_run_lengths s np j 0))).
Proof.
  intros Hnp Hfit Hx Hrepr. unfold featrend_piece.
  (* the indices of the piece *)
  replace (Z.of_nat np) with (Vec.size x_ind) at 1
    by (unfold Vec.size; now rewrite Hx).
  rewrite (fill_loop (fun i => i + Z.of_nat np * Z.of_nat j))
    by (intros; reflexivity).
  cbn [bind]. rewrite Hx.
  rewrite (subset_ok s _ 0%float)
    by (apply Forall_map, Forall_indices; intros i Hi; unfold Vec.size; nia).
  cbn [bind]. rewrite piece_window by exact Hfit.
  (* its trend bits and their runs *)
  set (block := piece_block s np j).
  assert (Hbl : length block = np).
  { unfold block, piece_block. rewrite length_firstn, length_skipn. nia. }
  assert (Hb1 : 1 <= Vec.size block) by (unfold Vec.size; lia).
  destruct (trending block) as [b|e] eqn:Ht;
    [|rewrite trending_spec in Ht by exact Hb1; discriminate].
  destruct (trending_bits block b Hb1 Ht) as [Hbits Hblen].
  cbn [bind].
  destruct (rleC_spec (map int_to_double b)) as
    (r & Hr & Hlen & Hpos & Hsum & _ & _ & Hin).
  { destruct b; [cbn [length] in Hblen; lia | discriminate]. }
  rewrite Hr. cbn [bind].
  pose proof (bit_values b r Hbits Hin) as Hvs.
  set (ls := lengths r) in *.
  set (vs := map double_to_int (values r)) in *.
  assert (Hlv : length ls = length vs)
    by (unfold vs; rewrite length_map; exact Hlen).
  assert (Hprl : forall v, piece_run_lengths s np j v = run_lengths v ls vs).
  { intros v. unfold piece_run_lengths. fold block. now rewrite Ht, Hr. }
  (* the two passes *)
  rewrite count_loop. cbn [bind].
  rewrite !alloc_ok by (unfold Vec.size; lia). cbn [bind].
  rewrite fill_loop_runs;
    [| exact Hlv
     | rewrite repeat_length; unfold Vec.size; lia
     | rewrite repeat_length; unfold Vec.size; lia ].
  cbn [bind].
  rewrite (select_lengths_ext (fun v => negb (v =? 0)) (fun v => v =? 1))
    by (eapply Forall_impl; [|exact Hvs];
        intros v [-> | ->]; reflexivity).
  fold (run_lengths 0 ls vs). fold (run_lengths 1 ls vs).
  assert (Hc0 : length (filter (fun v => v =? 0) vs)
                = length (run_lengths 0 ls vs))
    by (symmetry; apply select_lengths_length; exact Hlv).
  assert (Hc1 : length (filter (fun v => negb (v =? 0)) vs)
                = length (run_lengths 1 ls vs)).
  { rewrite <- (select_lengths_length _ ls vs Hlv).
    unfold run_lengths. f_equal. apply select_lengths_ext.
    eapply Forall_impl; [|exact Hvs]. intros v [-> | ->]; reflexivity. }
  assert (Hs0 : Vec.size (filter (fun v => v =? 0) vs)
                = Z.of_nat (length (run_lengths 0 ls vs)))
    by (unfold Vec.size; now rewrite Hc0).
  assert (Hs1 : Vec.size (filter (fun v => negb (v =? 0)) vs)
                = Z.of_nat (length (run_lengths 1 ls vs)))
    by (unfold Vec.size; now rewrite Hc1).
  rewrite !Hs0, !Hs1, !Hc0, !Hc1.
  replace (Z.to_nat (Z.of_nat zn + Z.of_nat (length (run_lengths 0 ls vs))))
    with (zn + length (run_lengths 0 ls vs))%nat by lia.
  replace (Z.to_nat (Z.of_nat on + Z.of_nat (length (run_lengths 1 ls vs))))
    with (on + length (run_lengths 1 ls vs))%nat by lia.
  rewrite !skipn_repeat_add.
  (* the two features *)
  rewrite (feature_or_zero func agg Hfun) by (unfold Vec.size; lia).
  cbn [bind].
  rewrite (feature_or_zero func agg Hfun)
    by (unfold Vec.size; rewrite update_length; lia).
  cbn [bind]. rewrite !Hprl.
  replace (Z.to_nat (Z.of_nat j * 2)) with (2 * j)%nat by lia.
  replace (Z.to_nat (Z.of_nat j * 2 + 1)) with (2 * j + 1)%nat by lia.
  destruct (run_lengths 1 ls vs ++ repeat 0 on);
    destruct (run_lengths 0 ls vs ++ repeat 0 zn); reflexivity.
Qed.
Lemma flat_map_pair_length {A B : Type} (f g : A -> B) (l : list A) :
  length (flat_map (fun i => [f i; g i]) l) = (2 * length l)%nat.
Proof.
  induction l as [|a l IH]; [reflexivity|]. cbn [flat_map length app]. lia.
Qed.

Lemma update_pair {A : Type} (pre v0 : list A) (k : nat) (a b : A) :
  length pre = k -> (k + 1 < length v0)%nat ->
  Vec.update (Vec.update (pre ++ skipn k v0) k a) (k + 1) b
  = (pre ++ [a; b]) ++ skipn (k + 2) v0.
Proof.
  intros Hpre Hk.
  destruct v0 as [|d v0']; [cbn [length] in Hk; lia|].
  set (w := d :: v0') in *.
  rewrite (skipn_cons_nth w k d) by lia.
  rewrite (skipn_cons_nth w (S k) d) by lia.
  rewrite update_app_at by exact Hpre.
  replace (pre ++ a :: nth (S k) w d :: skipn (S (S k)) w)
    with ((pre ++ [a]) ++ nth (S k) w d :: skipn (S (S k)) w)
    by (now rewrite <- app_assoc).
  rewrite update_app_at by (rewrite length_app; cbn [length]; lia).
  rewrite <- !app_assoc. cbn [app]. do 4 f_equal. lia.
Qed.

(** What [repr_featrend] returns, for every input with pieces of at least
    two elements and an aggregation function that returns a value on every
    non-empty vector. *)
Lemma repr_featrend_spec (func : list Z -> result float)
    (agg : list Z -> float)
    (Hfun : forall l, l <> [] -> func l = Ok (agg l))
    (x : list float) (pieces order : Z) :
  1 <= pieces -> -1 <= order < Vec.size x ->
  2 <= Vec.size (sma_spec x order) / pieces ->
  repr_featrend x func pieces order
  = Ok (flat_map
          (fun j =>
             [piece_feature agg (sma_spec x order)
                (Z.to_nat (Vec.size (sma_spec x order) / pieces)) j 1;
              piece_feature agg (sma_spec x order)
                (Z.to_nat (Vec.size (sma_spec x order) / pieces)) j 0])
          (seq 0 (Z.to_nat pieces))).
Proof.
  intros Hp Ho Hnp. unfold repr_featrend.
  rewrite repr_sma_spec by exact Ho. cbn [bind].
  set (s := sma_spec x order) in *.
  rewrite alloc_ok by lia. cbn [bind]. unfold int_div.
  destruct (Z.eqb_spec pieces 0) as [|_]; [lia|]. cbn [bind].
  rewrite Z.quot_div_nonneg by (pose proof (size_nonneg s); lia).
  set (np := Z.to_nat (Vec.size s / pieces)).
  assert (Hnpz : Vec.size s / pieces = Z.of_nat np) by (unfold np; lia).
  rewrite Hnpz. rewrite alloc_ok by lia. cbn [bind].
  assert (Hfit : Z.of_nat np * pieces <= Vec.size s).
  { rewrite <- Hnpz. pose proof (Z.mul_div_le (Vec.size s) pieces). lia. }
  set (repr0 := repeat 0%float (Z.to_nat (pieces * 2))).
  assert (Hr0 : length repr0 = (2 * Z.to_nat pieces)%nat)
    by (unfold repr0; rewrite repeat_length; lia).
  destruct (for_range_inv (featrend_inv agg s np repr0)
              (featrend_piece func s (Z.of_nat np)) 0 pieces
              (repr0, repeat 0 (Z.to_nat (Z.of_nat np)), 0, 0))
    as [[[[repr x_ind] o] z] [Hrun Hinv]].
  - lia.
  - unfold featrend_inv. change (Z.to_nat 0) with O. cbn [seq flat_map app].
    rewrite repeat_length, Nat2Z.id. auto.
  - intros k [[[repr x_ind] o] z] Hk (Hrepr & Hx & -> & ->).
    set (j := Z.to_nat k) in *.
    replace (featrend_piece func s (Z.of_nat np) k)
      with (featrend_piece func s (Z.of_nat np) (Z.of_nat j))
      by (f_equal; unfold j; lia).
    set (F := fun i => [piece_feature agg s np i 1;
                        piece_feature agg s np i 0]) in *.
    assert (Hpre : length (flat_map F (seq 0 j)) = (2 * j)%nat)
      by (unfold F; rewrite flat_map_pair_length, length_seq; lia).
    rewrite (featrend_piece_eq func agg Hfun);
      [| unfold np in *; lia
       | unfold Vec.size in Hfit; nia
       | exact Hx
       | rewrite Hrepr, length_app, length_skipn, Hpre, Hr0; lia ].
    eexists. split; [reflexivity|].
    unfold featrend_inv.
    replace (Z.to_nat (k + 1)) with (S j) by (unfold j; lia).
    split; [|split; [|split]].
    + rewrite Hrepr. rewrite update_pair by (rewrite ?Hr0; lia).
      rewrite seq_S, flat_map_app. cbn [flat_map Nat.add app].
      f_equal. f_equal. lia.
    + now rewrite length_map, indices_length.
    + reflexivity.
    + reflexivity.
  - rewrite Hrun. cbn [bind]. f_equal.
    destruct Hinv as (Hrepr & _). rewrite Hrepr.
    rewrite skipn_all2 by (rewrite Hr0; lia). apply app_nil_r.
Qed.
Lemma piece_run_lengths_pos (s : list float) (np j : nat) (v : Z) :
  Forall (fun l => 1 <= l) (piece_run_lengths s np j v).
Proof.
  unfold piece_run_lengths.
  destruct (trending (piece_block s np j)) as [b|e]; [|constructor].
  destruct (rleC (map int_to_double b)) as [r|e] eqn:Hr; [|constructor].
  apply select_lengths_Forall.
  destruct b as [|b0 b']; [discriminate|].
  destruct (rleC_spec (map int_to_double (b0 :: b'))) as (r' & Hr' & _ & Hpos & _);
    [discriminate|].
  rewrite Hr in Hr'. injection Hr' as <-. exact Hpos.
Qed.

(** The first piece is computed from its own runs alone. *)
Lemma piece_feature_first (agg : list Z -> float) (s : list float)
    (np : nat) (v : Z) :
  piece_feature agg s np 0 v
  = match piece_run_lengths s np 0 v with
    | [] => 0%float
    | l => agg l
    end.
Proof.
  unfold piece_feature, piece_argument. cbn [repeat]. now rewrite app_nil_r.
Qed.

(** C2 fails on the code for [x = [0, 1, ..., 10]], [func = minC],
    [pieces = 2], [order = 1].  The smoothed signal has 10 elements, so each
    piece has 5.  Piece 1 rises throughout: its only run has value 1 and
    length 4, and [minC] of [[4]] is 4.  The code returns 0 at index 2:
    the counters [o] and [z] still hold the counts of piece 0 when the runs
    of piece 1 are counted, so [ones] is allocated with two elements and
    [minC] is called on [[4, 0]]. *)
Theorem repr_featrend_counters_not_reset :
  exists s b r,
    repr_sma [0; 1; 2; 3; 4; 5; 6; 7; 8; 9; 10]%float 1 = Ok s /\
    Z.quot (Vec.size s) 2 = 5 /\
    trending (piece_block s 5 1) = Ok b /\
    rleC (map int_to_double b) = Ok r /\
    run_lengths 1 (lengths r) (map double_to_int (values r)) = [4] /\
    run_lengths 0 (lengths r) (map double_to_int (values r)) = [] /\
    minC_int [4] = Ok 4%float /\
    minC_int [4; 0] = Ok 0%float /\
    repr_featrend [0; 1; 2; 3; 4; 5; 6; 7; 8; 9; 10]%float minC_int 2 1
    = Ok [4; 0; 0; 0]%float.
Proof.
  eexists. eexists. eexists.
  split; [vm_compute; reflexivity|].
  split; [vm_compute; reflexivity|].
  split; [vm_compute; reflexivity|].
  split; [vm_compute; reflexivity|].
  repeat split; vm_compute; reflexivity.
Qed.

Lemma repr_feacliptrend_concat (x : list float)
    (func : list Z -> result float) (pieces order : Z) (a b : list float) :
  0 <= pieces ->
  repr_feaclip x = Ok a -> repr_featrend x func pieces order = Ok b ->
  repr_feacliptrend x func pieces order = Ok (a ++ b).
Proof.
  intros Hp Ha Hb. unfold repr_feacliptrend.
  rewrite !alloc_ok by lia. cbn [bind]. rewrite Ha, Hb. reflexivity.
Qed.

Example repr_featrend_maxC :
  repr_featrend [0; 1; 2; 3; 4; 5; 6; 7; 8; 9; 10]%float maxC_int 2 1
  = Ok [4; 0; 4; 0]%float.
Proof. vm_compute. reflexivity. Qed.

(** ** The order of doubles

    On numbers (everything but NaN) [<=] is a total preorder whose
    equivalence is [==]. *)

Ltac sf_compare_step :=
  match goal with
  | H : context [Pos.compare_cont Eq ?p ?q] |- _ =>
      rewrite (Pos.compare_cont_spec p q Eq) in H
  | |- context [Pos.compare_cont Eq ?p ?q] =>
      rewrite (Pos.compare_cont_spec p q Eq)
  | H : context [Z.compare ?x ?y] |- _ => destruct (Z.compare_spec x y)
  | |- context [Z.compare ?x ?y] => destruct (Z.compare_spec x y)
  | H : context [Pos.compare ?x ?y] |- _ => destruct (Pos.compare_spec x y)
  | |- context [Pos.compare ?x ?y] => destruct (Pos.compare_spec x y)
  end.

Ltac sf_order :=
  unfold SFleb, SFltb, SFeqb, SFcompare in *;
  repeat match goal with s : spec_float |- _ => destruct s end;
  repeat match goal with b : bool |- _ => destruct b end;
  try discriminate; try reflexivity; try congruence;
  repeat (sf_compare_step; cbn [Pos.switch_Eq CompOpp] in *; subst;
          try discriminate; try reflexivity; try lia).

Lemma SFleb_refl (a : spec_float) : a <> S754_nan -> SFleb a a = true.
Proof. intros H. sf_order. Qed.

Lemma SFleb_trans (a b c : spec_float) :
  SFleb a b = true -> SFleb b c = true -> SFleb a c = true.
Proof. intros H1 H2. sf_order. Qed.

Lemma SFleb_ltb_trans (a b c : spec_float) :
  SFleb a b = true -> SFltb b c = true -> SFltb a c = true.
Proof. intros H1 H2. sf_order. Qed.

Lemma SFltb_leb_trans (a b c : spec_float) :
  SFltb a b = true -> SFleb b c = true -> SFltb a c = true.
Proof. intros H1 H2. sf_order. Qed.

Lemma SFltb_total (a b : spec_float) :
  a <> S754_nan -> b <> S754_nan -> SFltb a b = false -> SFleb b a = true.
Proof. intros Ha Hb H. sf_order. Qed.

Lemma SFleb_ltb_false (a b : spec_float) :
  SFleb a b = true -> SFltb b a = false.
Proof. intros H. sf_order. Qed.

Lemma SFleb_antisym (a b : spec_float) :
  SFleb a b = true -> SFleb b a = true -> SFeqb a b = true.
Proof. intros H1 H2. sf_order. Qed.

Lemma SFltb_irrefl (a : spec_float) : SFltb a a = false.
Proof. sf_order. Qed.

Lemma not_nan_spec (a : float) :
  is_nan a = false -> Prim2SF a <> S754_nan.
Proof.
  unfold is_nan. rewrite eqb_spec. intros H E. rewrite E in H. discriminate.
Qed.

Lemma leb_refl (a : float) : is_nan a = false -> (a <=? a)%float = true.
Proof.
  intros H. rewrite leb_spec. apply SFleb_refl, not_nan_spec, H.
Qed.

Lemma leb_trans (a b c : float) :
  (a <=? b)%float = true -> (b <=? c)%float = true -> (a <=? c)%float = true.
Proof. rewrite !leb_spec. apply SFleb_trans. Qed.

Lemma leb_ltb_trans (a b c : float) :
  (a <=? b)%float = true -> (b <? c)%float = true -> (a <? c)%float = true.
Proof. rewrite !leb_spec, !ltb_spec. apply SFleb_ltb_trans. Qed.

Lemma ltb_leb_trans (a b c : float) :
  (a <? b)%float = true -> (b <=? c)%float = true -> (a <? c)%float = true.
Proof. rewrite !leb_spec, !ltb_spec. apply SFltb_leb_trans. Qed.

Lemma ltb_total (a b : float) :
  is_nan a = false -> is_nan b = false ->
  (a <? b)%float = false -> (b <=? a)%float = true.
Proof.
  intros Ha Hb. rewrite leb_spec, ltb_spec.
  apply SFltb_total; apply not_nan_spec; assumption.
Qed.

Lemma leb_ltb_false (a b : float) :
  (a <=? b)%float = true -> (b <? a)%float = false.
Proof. rewrite leb_spec, ltb_spec. apply SFleb_ltb_false. Qed.

Lemma leb_antisym (a b : float) :
  (a <=? b)%float = true -> (b <=? a)%float = true -> (a =? b)%float = true.
Proof. rewrite !leb_spec, eqb_spec. apply SFleb_antisym. Qed.

Lemma ltb_irrefl (a : float) : (a <? a)%float = false.
Proof. rewrite ltb_spec. apply SFltb_irrefl. Qed.

(** ** Order statistics *)

Lemma filter_none {A : Type} (f : A -> bool) (l : list A) :
  Forall (fun e => f e = false) l -> filter f l = [].
Proof.
  induction 1 as [|a l Ha H IH]; [reflexivity|].
  cbn [filter]. now rewrite Ha.
Qed.

Lemma filter_all {A : Type} (f : A -> bool) (l : list A) :
  Forall (fun e => f e = true) l -> filter f l = l.
Proof.
  induction 1 as [|a l Ha H IH]; [reflexivity|].
  cbn [filter]. now rewrite Ha, IH.
Qed.

Lemma filter_count_perm {A : Type} (f : A -> bool) (l m : list A) :
  Permutation l m -> length (filter f l) = length (filter f m).
Proof.
  induction 1 as [|a l m H IH|a b l|l m n H1 IH1 H2 IH2]; cbn [filter].
  - reflexivity.
  - destruct (f a); cbn [length]; now rewrite IH.
  - destruct (f a), (f b); reflexivity.
  - congruence.
Qed.

Lemma Forall_skipn_index {A : Type} (P : A -> Prop) (l : list A) (k : nat) :
  (forall j b, (k <= j)%nat -> nth_error l j = Some b -> P b) ->
  Forall P (skipn k l).
Proof.
  intros H. apply Forall_forall. intros b Hb.
  apply In_nth_error in Hb. destruct Hb as [j Hj].
  rewrite nth_error_skipn in Hj. apply (H (k + j)%nat); [lia | exact Hj].
Qed.

Lemma Forall_firstn_index {A : Type} (P : A -> Prop) (l : list A) (k : nat) :
  (forall i a, (i < k)%nat -> nth_error l i = Some a -> P a) ->
  Forall P (firstn k l).
Proof.
  intros H. apply Forall_forall. intros a Ha.
  apply In_nth_error in Ha. destruct Ha as [i Hi].
  assert (Hlt : (i < length (firstn k l))%nat)
    by (apply nth_error_Some; congruence).
  rewrite length_firstn in Hlt.
  rewrite nth_error_firstn in Hi.
  destruct (Nat.ltb_spec i k); [|lia].
  apply (H i); [lia | exact Hi].
Qed.

(** A predicate that fails from position [k] on holds at most [k] times. *)
Lemma filter_count_prefix {A : Type} (f : A -> bool) (l : list A) (k : nat) :
  (forall j b, (k <= j)%nat -> nth_error l j = Some b -> f b = false) ->
  (length (filter f l) <= k)%nat.
Proof.
  intros H. rewrite <- (firstn_skipn k l), filter_app, length_app.
  rewrite (filter_none f (skipn k l)) by (apply Forall_skipn_index; exact H).
  cbn [length]. pose proof (filter_length_le f (firstn k l)).
  pose proof (firstn_le_length k l). lia.
Qed.

(** A predicate that fails up to position [k] holds at most [n - k - 1]
    times. *)
Lemma filter_count_suffix {A : Type} (f : A -> bool) (l : list A) (k : nat) :
  (forall i a, (i < S k)%nat -> nth_error l i = Some a -> f a = false) ->
  (length (filter f l) <= length l - S k)%nat.
Proof.
  intros H. rewrite <- (firstn_skipn (S k) l) at 1.
  rewrite filter_app, length_app.
  rewrite (filter_none f (firstn (S k) l))
    by (apply Forall_firstn_index; exact H).
  cbn [length]. pose proof (filter_length_le f (skipn (S k) l)).
  rewrite length_skipn in *. lia.
Qed.

Lemma sorted_cons_le (a : float) (t : list float) :
  sorted (a :: t) -> Forall (fun b => (a <=? b)%float = true) t.
Proof.
  revert a. induction t as [|b t IH]; intros a H; [constructor|].
  destruct H as [Hab Ht]. constructor; [exact Hab|].
  specialize (IH b Ht). eapply Forall_impl; [|exact IH].
  intros c Hc. cbn beta in *. eapply leb_trans; eassumption.
Qed.

Lemma sorted_tail (a : float) (t : list float) : sorted (a :: t) -> sorted t.
Proof. destruct t as [|b t]; [constructor | intros [_ H]; exact H]. Qed.

Lemma sorted_nth_le (s : list float) (i j : nat) (a b : float) :
  sorted s -> Forall (fun e => is_nan e = false) s ->
  (i <= j)%nat -> nth_error s i = Some a -> nth_error s j = Some b ->
  (a <=? b)%float = true.
Proof.
  revert i j. induction s as [|h t IH]; intros i j Hs Hn Hij Hi Hj.
  - destruct i; discriminate.
  - inversion Hn as [|? ? Hh Ht]; subst.
    destruct i as [|i].
    + cbn in Hi. injection Hi as <-.
      destruct j as [|j].
      * cbn in Hj. injection Hj as <-. apply leb_refl. exact Hh.
      * cbn in Hj. apply nth_error_In in Hj.
        pose proof (sorted_cons_le h t Hs) as Hle.
        rewrite Forall_forall in Hle. apply Hle. exact Hj.
    + destruct j as [|j]; [lia|]. cbn in Hi, Hj.
      apply (IH i j); try assumption; [eapply sorted_tail; eassumption | lia].
Qed.

(** An element that no earlier element exceeds and no later element
    undercuts compares equal to the element a sort puts at its position. *)
Lemma order_statistic (y s : list float) (k : nat) (p : float) :
  Permutation y s -> sorted s -> Forall (fun e => is_nan e = false) s ->
  nth_error y k = Some p ->
  (forall i a, (i < k)%nat -> nth_error y i = Some a -> (p <? a)%float = false) ->
  (forall j b, (k <= j)%nat -> nth_error y j = Some b -> (b <? p)%float = false) ->
  exists q, nth_error s k = Some q /\ (p =? q)%float = true.
Proof.
  intros Hperm Hs Hn Hk Hbefore Hafter.
  assert (Hlen : length y = length s) by (apply Permutation_length; exact Hperm).
  assert (Hky : (k < length y)%nat) by (apply nth_error_Some; congruence).
  destruct (nth_error s k) as [q|] eqn:Hq;
    [|apply nth_error_None in Hq; lia].
  exists q. split; [reflexivity|].
  assert (Hp : is_nan p = false).
  { rewrite Forall_forall in Hn. apply Hn.
    eapply Permutation_in; [exact Hperm|]. eapply nth_error_In; exact Hk. }
  assert (Hqn : is_nan q = false).
  { rewrite Forall_forall in Hn. apply Hn. eapply nth_error_In; exact Hq. }
  assert (Hlt : (length (filter (fun e => (e <? p)%float) s) <= k)%nat).
  { rewrite <- (filter_count_perm _ y s Hperm).
    apply filter_count_prefix. exact Hafter. }
  assert (Hgt : (length (filter (fun e => (p <? e)%float) s)
                 <= length s - S k)%nat).
  { rewrite <- (filter_count_perm _ y s Hperm), <- Hlen.
    apply filter_count_suffix. intros i a Hi Ha.
    destruct (Nat.eq_dec i k) as [-> | Hne].
    - rewrite Hk in Ha. injection Ha as <-. apply ltb_irrefl.
    - apply (Hbefore i); [lia | exact Ha]. }
  apply leb_antisym.
  - (* p <= q: otherwise the first k+1 elements of s are all below p *)
    apply ltb_total; try assumption.
    destruct (q <? p)%float eqn:E; [exfalso | reflexivity].
    assert (Hall : Forall (fun e => (e <? p)%float = true) (firstn (S k) s)).
    { apply Forall_firstn_index. intros i a Hi Ha.
      apply (leb_ltb_trans a q p); [|exact E].
      apply (sorted_nth_le s i k); try assumption. lia. }
    rewrite <- (firstn_skipn (S k) s), filter_app, length_app in Hlt.
    rewrite (filter_all (fun e => (e <? p)%float) _ Hall), length_firstn in Hlt.
    lia.
  - (* q <= p: otherwise the elements of s from k on are all above p *)
    apply ltb_total; try assumption.
    destruct (p <? q)%float eqn:E; [exfalso | reflexivity].
    assert (Hall : Forall (fun e => (p <? e)%float = true) (skipn k s)).
    { apply Forall_skipn_index. intros j b Hj Hb.
      apply (ltb_leb_trans p q b); [exact E|].
      apply (sorted_nth_le s k j); try assumption. }
    rewrite <- (firstn_skipn k s), filter_app, length_app in Hgt.
    rewrite (filter_all (fun e => (p <? e)%float) _ Hall), length_skipn in Hgt.
    rewrite length_app, length_firstn, length_skipn in Hgt. lia.
Qed.

(** ** Insertion sort is an admissible [std::nth_element] *)

Lemma insert_sorted_perm (a : float) (l : list float) :
  Permutation (insert_sorted a l) (a :: l).
Proof.
  induction l as [|b t IH]; [reflexivity|]. cbn [insert_sorted].
  destruct (a <=? b)%float; [reflexivity|].
  rewrite IH. apply perm_swap.
Qed.

Lemma sort_perm (l : list float) : Permutation (sort l) l.
Proof.
  induction l as [|a t IH]; [reflexivity|]. cbn [sort].
  rewrite insert_sorted_perm. now rewrite IH.
Qed.

Lemma insert_sorted_sorted (a : float) (l : list float) :
  is_nan a = false -> Forall (fun e => is_nan e = false) l ->
  sorted l -> sorted (insert_sorted a l).
Proof.
  intros Ha. induction l as [|b t IH]; intros Hn Hs; [exact I|].
  inversion Hn as [|? ? Hb Ht]; subst. cbn [insert_sorted].
  destruct (a <=? b)%float eqn:E.
  - split; [exact E | exact Hs].
  - assert (Hba : (b <=? a)%float = true).
    { apply ltb_total; try assumption.
      destruct (a <? b)%float eqn:E'; [|reflexivity].
      rewrite leb_spec in E. rewrite ltb_spec in E'.
      unfold SFleb in E. unfold SFltb in E'.
      destruct (SFcompare (Prim2SF a) (Prim2SF b)) as [[| |]|]; discriminate. }
    specialize (IH Ht (sorted_tail b t Hs)).
    destruct t as [|c t']; [cbn; auto|].
    cbn [insert_sorted] in *. destruct Hs as [Hbc Hs'].
    destruct (a <=? c)%float; cbn [sorted]; auto.
Qed.

Lemma sort_sorted (l : list float) :
  Forall (fun e => is_nan e = false) l -> sorted (sort l).
Proof.
  induction 1 as [|a t Ha Ht IH]; [exact I|]. cbn [sort].
  apply insert_sorted_sorted; [exact Ha | | exact IH].
  apply Forall_forall. intros e He. rewrite Forall_forall in Ht. apply Ht.
  eapply Permutation_in; [apply sort_perm | exact He].
Qed.

Lemma select_by_sort_post : nth_element_post select_by_sort.
Proof.
  intros l k. unfold select_by_sort. split; [apply sort_perm|].
  intros Hn i j a b Hi Hj Ha Hb. apply leb_ltb_false.
  apply (sorted_nth_le (sort l) i j); try assumption; [| |lia].
  - apply sort_sorted. exact Hn.
  - apply Forall_forall. intros e He. rewrite Forall_forall in Hn. apply Hn.
    eapply Permutation_in; [apply sort_perm | exact He].
Qed.

(** ** The median *)

Lemma nth_element_prefix (select : list float -> nat -> list float)
    (v : list float) (k m : Z) :
  0 <= k <= m -> m <= Vec.size v ->
  nth_element select v 0 k m
  = Ok (select (firstn (Z.to_nat m) v) (Z.to_nat k) ++ skipn (Z.to_nat m) v).
Proof.
  intros Hk Hm. unfold nth_element.
  destruct (Z.leb_spec 0 0); [|lia].
  destruct (Z.leb_spec 0 k); [|lia].
  destruct (Z.leb_spec k m); [|lia].
  destruct (Z.leb_spec m (Vec.size v)); [|lia].
  cbn [andb]. change (Z.to_nat 0) with O.
  rewrite Nat.sub_0_r, Z.sub_0_r. reflexivity.
Qed.

Lemma nth_element_whole (select : list float -> nat -> list float)
    (v : list float) (k : Z) :
  0 <= k <= Vec.size v ->
  nth_element select v 0 k (Vec.size v) = Ok (select v (Z.to_nat k)).
Proof.
  intros Hk. rewrite nth_element_prefix by lia.
  rewrite firstn_size. unfold Vec.size. rewrite Nat2Z.id, skipn_all.
  now rewrite app_nil_r.
Qed.

Lemma clone_fresh (h : heap) (x : loc) (v : list float) :
  deref h x = Ok v -> clone h x = Ok (h ++ [v], length h).
Proof. intros H. unfold clone. rewrite H. reflexivity. Qed.

Lemma deref_fresh (h : heap) (v : list float) :
  deref (h ++ [v]) (length h) = Ok v.
Proof.
  unfold deref. rewrite nth_error_app2 by lia.
  now rewrite Nat.sub_diag.
Qed.

Lemma store_fresh (h : heap) (v w : list float) :
  store (h ++ [v]) (length h) w = h ++ [w].
Proof. unfold store. apply update_app_last. Qed.

Lemma deref_old (h : heap) (w : list float) (x : loc) (v : list float) :
  deref h x = Ok v -> deref (h ++ [w]) x = Ok v.
Proof.
  unfold deref. destruct (nth_error h x) eqn:E; [|discriminate].
  intros H. rewrite nth_error_app1 by (apply nth_error_Some; congruence).
  now rewrite E.
Qed.

Lemma in_firstn {A : Type} (l : list A) (k : nat) (e : A) :
  In e (firstn k l) -> In e l.
Proof.
  intros H. rewrite <- (firstn_skipn k l). apply in_or_app. now left.
Qed.

Lemma nth_error_nth_some {A : Type} (l : list A) (n : nat) (d : A) :
  (n < length l)%nat -> nth_error l n = Some (nth n l d).
Proof. intros H. now apply nth_error_nth'. Qed.

(** What [medianC] computes, for any admissible [std::nth_element], on a
    non-empty vector without NaN: [y] is the copy after the selection
    steps, [y1] and [y2] are the values read from it. *)
Lemma medianC_spec (select : list float -> nat -> list float)
    (h : heap) (x : loc) (v s : list float) :
  nth_element_post select ->
  deref h x = Ok v -> v <> [] ->
  Forall (fun e => is_nan e = false) v ->
  Permutation s v -> sorted s ->
  exists (y : list float) (y1 y2 : float),
    medianC select h x
    = Ok (h ++ [y],
          if (length v mod 2 =? 1)%nat then y1 else ((y1 + y2) / 2)%float) /\
    In y1 v /\ (y1 =? nth (length v / 2) s 0)%float = true /\
    ((length v mod 2 = 0)%nat ->
     In y2 v /\ (y2 =? nth (length v / 2 - 1) s 0)%float = true).
Proof.
  intros Hsel Hx Hne Hnan Hperm Hsorted.
  set (n := length v). set (half := (n / 2)%nat).
  assert (Hn : (0 < n)%nat) by (destruct v; [congruence | cbn; lia]).
  assert (Hsn : Forall (fun e => is_nan e = false) s).
  { apply Forall_forall. intros e He. rewrite Forall_forall in Hnan.
    apply Hnan. eapply Permutation_in; [exact Hperm | exact He]. }
  assert (Hquot : Z.quot (Vec.size v) 2 = Z.of_nat half).
  { rewrite Z.quot_div_nonneg by (unfold Vec.size; lia).
    unfold Vec.size, half, n. now rewrite Nat2Z.inj_div. }
  assert (Hrem : Z.rem (Vec.size v) 2 = Z.of_nat (n mod 2)).
  { rewrite Z.rem_mod_nonneg by (unfold Vec.size; lia).
    unfold Vec.size, n. now rewrite Nat2Z.inj_mod. }
  pose proof (Nat.div_mod_eq n 2) as Hdm.
  pose proof (Nat.mod_upper_bound n 2 ltac:(lia)) as Hub.
  fold half in Hdm.
  (* the first selection, at position [half] of the whole copy *)
  set (v1 := select v half).
  destruct (Hsel v half) as [Hp1 Hpart1]. fold v1 in Hp1, Hpart1.
  specialize (Hpart1 Hnan).
  assert (Hl1 : length v1 = n) by (apply Permutation_length; exact Hp1).
  assert (Hhalf : (half < n)%nat) by (unfold half; apply Nat.div_lt; lia).
  assert (Hy1 : nth_error v1 half = Some (nth half v1 0%float))
    by (apply nth_error_nth_some; lia).
  assert (Hy1in : In (nth half v1 0%float) v).
  { eapply Permutation_in; [exact Hp1|]. apply nth_In. lia. }
  assert (Hy1s : (nth half v1 0 =? nth half s 0)%float = true).
  { destruct (order_statistic v1 s half (nth half v1 0%float))
      as [q [Hq Heq]]; try assumption.
    - rewrite Hp1. symmetry. exact Hperm.
    - intros i a Hi Ha. apply (Hpart1 i half); try assumption; lia.
    - intros j b Hj Hb. apply (Hpart1 half j); try assumption; lia.
    - rewrite (nth_error_nth s half 0%float Hq). exact Heq. }
  unfold medianC. rewrite (clone_fresh h x v Hx). cbn [bind].
  rewrite deref_fresh. cbn [bind]. rewrite Hquot, Hrem.
  rewrite (nth_element_whole select v (Z.of_nat half))
    by (unfold Vec.size; fold n; lia).
  cbn [bind]. rewrite Nat2Z.id. fold v1.
  rewrite store_fresh.
  rewrite (get_ok v1 (Z.of_nat half) 0%float) by (unfold Vec.size; lia).
  rewrite Nat2Z.id. cbn [bind].
  destruct (Nat.eqb_spec (n mod 2) 1) as [Hodd | Heven].
  - rewrite Hodd. cbn [Z.of_nat Pos.of_succ_nat Z.eqb Pos.eqb].
    exists v1, (nth half v1 0%float), 0%float.
    split; [reflexivity|]. split; [exact Hy1in|]. split; [exact Hy1s|].
    intros H0. fold n in H0. lia.
  - assert (H0 : (n mod 2 = 0)%nat) by lia. rewrite H0.
    cbn [Z.of_nat Z.eqb].
    assert (Hh1 : (1 <= half)%nat) by lia.
    (* the second selection, at position [half - 1] of the first half *)
    rewrite (nth_element_prefix select v1 (Z.of_nat half - 1) (Z.of_nat half))
      by (unfold Vec.size; lia).
    cbn [bind]. rewrite store_fresh.
    replace (Z.to_nat (Z.of_nat half - 1)) with (half - 1)%nat by lia.
    rewrite Nat2Z.id.
    set (front := select (firstn half v1) (half - 1)%nat).
    destruct (Hsel (firstn half v1) (half - 1)%nat) as [Hp2 Hpart2].
    fold front in Hp2, Hpart2.
    assert (Hnan1 : Forall (fun e => is_nan e = false) v1).
    { apply Forall_forall. intros e He. rewrite Forall_forall in Hnan.
      apply Hnan. eapply Permutation_in; [exact Hp1 | exact He]. }
    assert (Hnanf : Forall (fun e => is_nan e = false) (firstn half v1)).
    { apply Forall_forall. intros e He. rewrite Forall_forall in Hnan1.
      apply Hnan1. eapply in_firstn; exact He. }
    specialize (Hpart2 Hnanf).
    assert (Hlf : length front = half).
    { rewrite (Permutation_length Hp2), length_firstn. lia. }
    set (v2 := front ++ skipn half v1).
    assert (Hp3 : Permutation v2 v1).
    { unfold v2. rewrite Hp2. now rewrite firstn_skipn. }
    assert (Hl2 : length v2 = n) by (rewrite (Permutation_length Hp3); exact Hl1).
    rewrite (get_ok v2 (Z.of_nat half - 1) 0%float) by (unfold Vec.size; lia).
    replace (Z.to_nat (Z.of_nat half - 1)) with (half - 1)%nat by lia.
    cbn [bind].
    exists v2, (nth half v1 0%float), (nth (half - 1)%nat v2 0%float).
    split; [reflexivity|]. split; [exact Hy1in|]. split; [exact Hy1s|].
    intros _. split.
    + eapply Permutation_in; [exact Hp1|].
      eapply Permutation_in; [exact Hp3|]. apply nth_In. lia.
    + assert (Hy2 : nth_error v2 (half - 1)%nat
                     = Some (nth (half - 1)%nat v2 0%float))
        by (apply nth_error_nth_some; lia).
      destruct (order_statistic v2 s (half - 1)%nat
                  (nth (half - 1)%nat v2 0%float))
        as [q [Hq Heq]]; try assumption.
      * rewrite Hp3, Hp1. symmetry. exact Hperm.
      * intros i a Hi Ha. unfold v2 in Ha, Hy2.
        rewrite nth_error_app1 in Ha by lia.
        rewrite nth_error_app1 in Hy2 by lia.
        apply (Hpart2 i (half - 1)%nat); try assumption; lia.
      * intros j b Hj Hb.
        destruct (Nat.ltb_spec j half) as [Hjl | Hjh].
        -- unfold v2 in Hb, Hy2.
           rewrite nth_error_app1 in Hb by lia.
           rewrite nth_error_app1 in Hy2 by lia.
           apply (Hpart2 (half - 1)%nat j); try assumption; lia.
        -- (* [b] sits in the untouched back, the pivot came from the front *)
           unfold v2 in Hb, Hy2.
           rewrite nth_error_app2 in Hb by lia.
           rewrite nth_error_skipn in Hb.
           rewrite nth_error_app1 in Hy2 by lia.
           apply nth_error_In in Hy2.
           apply (Permutation_in _ Hp2) in Hy2.
           apply In_nth_error in Hy2. destruct Hy2 as [i0 Hi0].
           assert (Hi0lt : (i0 < half)%nat).
           { assert (Hx0 : (i0 < length (firstn half v1))%nat)
               by (apply nth_error_Some; congruence).
             rewrite length_firstn in Hx0. lia. }
           rewrite nth_error_firstn in Hi0.
           destruct (Nat.ltb_spec i0 half); [|lia].
           apply (Hpart1 i0 (half + (j - length front))%nat);
             try assumption; lia.
      * rewrite (nth_error_nth s (half - 1)%nat 0%float Hq). exact Heq.
Qed.

Lemma medianC_general (select : list float -> nat -> list float)
    (h : heap) (x : loc) (v s : list float) :
  nth_element_post select ->
  deref h x = Ok v -> v <> [] ->
  Forall (fun e => is_nan e = false) v ->
  Permutation s v -> sorted s ->
  exists (h' : heap) (r : float),
    medianC select h x = Ok (h', r) /\
    deref h' x = Ok v /\
    (forall p, (p < length h)%nat -> nth_error h' p = nth_error h p) /\
    ((length v mod 2 = 1)%nat -> same_number r (nth (length v / 2) s 0%float)) /\
    ((length v mod 2 = 0)%nat ->
     exists y1 y2,
       r = ((y1 + y2) / 2)%float /\
       same_number y1 (nth (length v / 2) s 0%float) /\
       same_number y2 (nth (length v / 2 - 1) s 0%float)) /\
    ((forall e, In e v -> e <> neg_zero) ->
     r = if (length v mod 2 =? 1)%nat
         then nth (length v / 2) s 0%float
         else ((nth (length v / 2) s 0 + nth (length v / 2 - 1) s 0) / 2)%float).
Proof.
  intros Hsel Hx Hne Hnan Hperm Hsorted.
  destruct (medianC_spec select h x v s Hsel Hx Hne Hnan Hperm Hsorted)
    as (y & y1 & y2 & Hrun & Hin1 & Heq1 & Heven).
  assert (Hn : (0 < length v)%nat) by (destruct v; [congruence | cbn; lia]).
  assert (Hls : length s = length v) by (apply Permutation_length; exact Hperm).
  assert (Hs_in : forall k, (k < length v)%nat -> In (nth k s 0%float) v).
  { intros k Hk. eapply Permutation_in; [exact Hperm|]. apply nth_In. lia. }
  pose proof (Nat.mod_upper_bound (length v) 2 ltac:(lia)) as Hub.
  pose proof (Nat.div_mod_eq (length v) 2) as Hdm.
  eexists. eexists. split; [exact Hrun|].
  split; [apply deref_old; exact Hx|].
  split; [intros p Hp; apply nth_error_app1; exact Hp|].
  split; [|split].
  - intros Hodd. rewrite Hodd. cbn [Nat.eqb]. apply eqb_true_same. exact Heq1.
  - intros H0. rewrite H0. cbn [Nat.eqb]. destruct (Heven H0) as [Hin2 Heq2].
    exists y1, y2. split; [reflexivity|].
    split; apply eqb_true_same; assumption.
  - intros Hnz.
    assert (E1 : y1 = nth (length v / 2) s 0%float).
    { apply same_number_exact; [apply Hnz; exact Hin1 | | apply eqb_true_same; exact Heq1].
      apply Hnz, Hs_in. apply Nat.div_lt; lia. }
    destruct (Nat.eqb_spec (length v mod 2) 1) as [Hodd | Hnodd];
      [exact E1|].
    destruct (Heven ltac:(lia)) as [Hin2 Heq2].
    assert (E2 : y2 = nth (length v / 2 - 1) s 0%float).
    { apply same_number_exact; [apply Hnz; exact Hin2 | | apply eqb_true_same; exact Heq2].
      apply Hnz, Hs_in. lia. }
    now rewrite E1, E2.
Qed.

Lemma not_neg_zero (e : float) : is_zero e = false -> e <> neg_zero.
Proof. intros H ->. vm_compute in H. discriminate. Qed.

(** C9.  For any admissible [std::nth_element], on a non-empty vector of
    numbers [medianC] returns, up to the sign of a zero, the middle order
    statistic when the length is odd and the mean of the two middle order
    statistics when it is even (exactly so when the vector holds no
    negative zero); the vector passed in and every other vector of the
    store are left as they were, the selection works on a fresh copy.  In
    particular the median of [[1,2,3,4]] is [2.5] and that of [[1,2,3]] is
    [2]. *)
Theorem medianC_order_statistics (select : list float -> nat -> list float) :
  nth_element_post select ->
  (forall (h : heap) (x : loc) (v s : list float),
     deref h x = Ok v -> v <> [] ->
     Forall (fun e => is_nan e = false) v ->
     Permutation s v -> sorted s ->
     exists (h' : heap) (r : float),
       medianC select h x = Ok (h', r) /\
       deref h' x = Ok v /\
       (forall p, (p < length h)%nat -> nth_error h' p = nth_error h p) /\
       ((length v mod 2 = 1)%nat ->
        same_number r (nth (length v / 2) s 0%float)) /\
       ((length v mod 2 = 0)%nat ->
        exists y1 y2,
          r = ((y1 + y2) / 2)%float /\
          same_number y1 (nth (length v / 2) s 0%float) /\
          same_number y2 (nth (length v / 2 - 1) s 0%float)) /\
       ((forall e, In e v -> e <> neg_zero) ->
        r = if (length v mod 2 =? 1)%nat
            then nth (length v / 2) s 0%float
            else ((nth (length v / 2) s 0 + nth (length v / 2 - 1) s 0) / 2)%float)) /\
  (exists h', medianC select [[1; 2; 3; 4]%float] 0%nat = Ok (h', 2.5%float)) /\
  (exists h', medianC select [[1; 2; 3]%float] 0%nat = Ok (h', 2%float)).
Proof.
  intros Hsel. split; [|split].
  - intros h x v s. apply medianC_general. exact Hsel.
  - destruct (medianC_general select [[1; 2; 3; 4]%float] 0%nat
                [1; 2; 3; 4]%float [1; 2; 3; 4]%float Hsel)
      as (h' & r & Hrun & _ & _ & _ & _ & Hr).
    + reflexivity.
    + discriminate.
    + repeat constructor.
    + reflexivity.
    + cbn. auto.
    + exists h'. rewrite Hrun, Hr; [reflexivity|].
      intros e [<- | [<- | [<- | [<- | []]]]]; apply not_neg_zero; reflexivity.
  - destruct (medianC_general select [[1; 2; 3]%float] 0%nat
                [1; 2; 3]%float [1; 2; 3]%float Hsel)
      as (h' & r & Hrun & _ & _ & _ & _ & Hr).
    + reflexivity.
    + discriminate.
    + repeat constructor.
    + reflexivity.
    + cbn. auto.
    + exists h'. rewrite Hrun, Hr; [reflexivity|].
      intros e [<- | [<- | [<- | []]]]; apply not_neg_zero; reflexivity.
Qed.

Lemma medianC_order_statistics_witness :
  nth_element_post select_by_sort /\
  (exists h', medianC select_by_sort [[1; 2; 3; 4]%float] 0%nat
              = Ok (h', 2.5%float)) /\
  (exists h', medianC select_by_sort [[1; 2; 3]%float] 0%nat = Ok (h', 2%float)).
Proof.
  split; [exact select_by_sort_post|].
  exact (proj2 (medianC_order_statistics select_by_sort select_by_sort_post)).
Defined.

Example medianC_scenario4 :
  medianC select_by_sort [[1; 2; 3; 4]%float] 0%nat
  = Ok ([[1; 2; 3; 4]; [1; 2; 3; 4]]%float, 2.5%float) /\
  medianC select_by_sort [[3; 1; 2]%float] 0%nat
  = Ok ([[3; 1; 2]; [1; 2; 3]]%float, 2%float).
Proof. split; vm_compute; reflexivity. Qed.

(** ** The run-length encoder as a function of the vector *)

Lemma get_app_last {A : Type} (v : list A) (b : A) :
  Vec.get (v ++ [b]) (Z.of_nat (length v)) = Ok b.
Proof.
  rewrite (get_ok _ _ b) by (rewrite size_app; unfold Vec.size; cbn; lia).
  rewrite Nat2Z.id. now rewrite nth_app_last.
Qed.

Lemma set_app_last {A : Type} (v : list A) (b a : A) :
  Vec.set (v ++ [b]) (Z.of_nat (length v)) a = Ok (v ++ [a]).
Proof.
  rewrite set_ok by (rewrite size_app; unfold Vec.size; cbn; lia).
  rewrite Nat2Z.id. now rewrite update_app_last.
Qed.

(** The scan from position [k] on, with the open run [(l, prev)]. *)
Lemma rle_scan (x : list float) :
  forall (c : nat) (k : nat) (ls : list Z) (l : Z) (vs : list float)
         (prev : float),
    (k + c <= length x)%nat -> length ls = length vs ->
    exists st,
      for_count c (Z.of_nat k) (rle_body x)
        (mkRleState (ls ++ [l]) (vs ++ [prev]) (Z.of_nat (length ls)) prev)
      = Ok st /\
      st_lengths st
      = ls ++ map fst (runs_from prev l (firstn c (skipn k x))) /\
      st_values st
      = vs ++ map snd (runs_from prev l (firstn c (skipn k x))).
Proof.
  induction c as [|c IH]; intros k ls l vs prev Hk Hlen.
  - eexists. split; [reflexivity|]. cbn. auto.
  - cbn [for_count]. unfold rle_body at 1.
    rewrite (get_ok x _ 0%float) by (unfold Vec.size; lia).
    rewrite Nat2Z.id. cbn [bind st_prev st_lengths st_values st_i].
    rewrite (skipn_cons_nth x k 0%float) by lia.
    cbn [firstn runs_from].
    destruct (prev =? nth k x 0)%float.
    + rewrite get_app_last. cbn [bind]. rewrite set_app_last. cbn [bind].
      replace (Z.of_nat k + 1) with (Z.of_nat (S k)) by lia.
      apply IH; [lia | exact Hlen].
    + replace (Z.of_nat k + 1) with (Z.of_nat (S k)) by lia.
      replace (Z.of_nat (length ls) + 1)
        with (Z.of_nat (length (ls ++ [l])))
        by (rewrite length_app; cbn; lia).
      destruct (IH (S k) (ls ++ [l]) 1 (vs ++ [prev]) (nth k x 0%float))
        as (st & Hrun & Hl & Hv);
        [lia | rewrite !length_app; cbn; lia |].
      exists st. split; [exact Hrun|].
      rewrite Hl, Hv, <- !app_assoc. cbn. auto.
Qed.

(** [rleC] on a non-empty vector, as a function of the vector. *)
Lemma rleC_runs (h : float) (t : list float) :
  rleC (h :: t)
  = Ok (mkRle (map fst (runs_from h 1 t)) (map snd (runs_from h 1 t))).
Proof.
  unfold rleC. cbn [Vec.get Z.ltb Z.compare Z.to_nat nth_error bind].
  unfold for_range.
  replace (Z.to_nat (Vec.size (h :: t) - 1)) with (length t)
    by (unfold Vec.size; cbn [length]; lia).
  destruct (rle_scan (h :: t) (length t) 1 [] 1 [] h) as (st & Hrun & Hl & Hv);
    [cbn; lia | reflexivity |].
  change (Z.of_nat 1) with 1 in Hrun. cbn [app length] in Hrun.
  change (Z.of_nat 0) with 0 in Hrun.
  rewrite Hrun. cbn [bind]. rewrite Hl, Hv.
  cbn [skipn app]. now rewrite firstn_all.
Qed.

(** [==] is an equivalence on the numbers it relates. *)
Lemma eqb_trans_eq (a b c : float) :
  (a =? b)%float = true -> (a =? c)%float = (b =? c)%float.
Proof.
  rewrite !eqb_spec. intros H.
  destruct (SFeqb (Prim2SF b) (Prim2SF c)) eqn:E.
  - revert H E. generalize (Prim2SF a) (Prim2SF b) (Prim2SF c).
    intros x y z H E. sf_order.
  - destruct (SFeqb (Prim2SF a) (Prim2SF c)) eqn:E'; [|reflexivity].
    revert H E E'. generalize (Prim2SF a) (Prim2SF b) (Prim2SF c).
    intros x y z H E E'. sf_order.
Qed.

Lemma eqb_not_nan (a b : float) :
  (a =? b)%float = true -> is_nan a = false /\ is_nan b = false.
Proof.
  unfold is_nan. rewrite !eqb_spec.
  generalize (Prim2SF a) (Prim2SF b). intros x y H.
  split; sf_order.
Qed.

Lemma runs_from_values (prev p : float) (count : Z) (l : list float) :
  (forall e, (prev =? e)%float = (p =? e)%float) ->
  map snd (runs_from prev count l) = prev :: new_runs p l.
Proof.
  revert prev p count. induction l as [|e t IH]; intros prev p count Hp;
    [reflexivity|].
  cbn [runs_from new_runs]. rewrite <- Hp.
  destruct (prev =? e)%float eqn:E.
  - apply IH. intros e'. apply eqb_trans_eq. exact E.
  - cbn [map snd]. f_equal. apply IH. reflexivity.
Qed.

Lemma runs_from_lengths (prev : float) (count : Z) (l : list float) :
  1 <= count -> Forall (fun c => 1 <= c) (map fst (runs_from prev count l)).
Proof.
  revert prev count. induction l as [|e t IH]; intros prev count Hc.
  - repeat constructor. exact Hc.
  - cbn [runs_from]. destruct (prev =? e)%float.
    + apply IH. lia.
    + cbn [map fst]. constructor; [exact Hc | apply IH; lia].
Qed.

Lemma new_runs_In (p : float) (l : list float) (e : float) :
  In e (new_runs p l) -> In e l.
Proof.
  revert p. induction l as [|a t IH]; intros p H; [exact H|].
  cbn [new_runs] in H. destruct (p =? a)%float.
  - right. exact (IH _ H).
  - destruct H as [<- | H]; [left; reflexivity | right; exact (IH _ H)].
Qed.

Lemma new_runs_length (p : float) (l : list float) :
  (length (new_runs p l) <= length l)%nat.
Proof.
  revert p. induction l as [|a t IH]; intros p; [apply Nat.le_refl|].
  cbn [new_runs]. destruct (p =? a)%float; cbn [length];
    specialize (IH a); lia.
Qed.

(** X1.  On a non-empty vector [rleC] returns as many lengths as values,
    at least one run and at most one per element; every length is at least
    1; the first value is the first element of the vector, and every value
    is an element of the vector. *)
Theorem rleC_run_structure (h : float) (t : list float) :
  exists r,
    rleC (h :: t) = Ok r /\
    length (lengths r) = length (values r) /\
    (1 <= length (values r) <= length (h :: t))%nat /\
    Forall (fun l => 1 <= l) (lengths r) /\
    hd 0%float (values r) = h /\
    Forall (fun v => In v (h :: t)) (values r).
Proof.
  eexists. split; [apply rleC_runs|]. cbn [lengths values].
  split; [now rewrite !length_map|].
  rewrite (runs_from_values h h 1 t) by reflexivity.
  split.
  { cbn [length]. pose proof (new_runs_length h t). lia. }
  split; [apply runs_from_lengths; lia|].
  split; [reflexivity|].
  constructor; [left; reflexivity|].
  apply Forall_forall. intros v Hv. right. exact (new_runs_In _ _ _ Hv).
Qed.

(** X2.  [rleC] compares every element with the value of the open run;
    this opens a new run exactly at the elements that do not compare [==]
    to their left neighbour: the values are the first element followed by
    those elements, in order. *)
Theorem rleC_runs_start_at_changes (h : float) (t : list float) :
  exists r,
    rleC (h :: t) = Ok r /\
    values r = h :: new_runs h t /\
    length (lengths r) = S (length (new_runs h t)).
Proof.
  eexists. split; [apply rleC_runs|]. cbn [lengths values].
  split; [apply runs_from_values; reflexivity|].
  rewrite length_map, <- (length_map snd).
  rewrite (runs_from_values h h 1 t) by reflexivity. reflexivity.
Qed.

Lemma runs_from_nan (prev : float) (count : Z) (l : list float) :
  (is_nan prev = true -> count = 1) ->
  Forall2 (fun c v => is_nan v = true -> c = 1)
          (map fst (runs_from prev count l)) (map snd (runs_from prev count l)).
Proof.
  revert prev count. induction l as [|e t IH]; intros prev count Hc.
  - repeat constructor. exact Hc.
  - cbn [runs_from]. destruct (prev =? e)%float eqn:E.
    + apply IH. intros Hn. apply eqb_not_nan in E. destruct E as [E _].
      congruence.
    + cbn [map fst snd]. constructor; [exact Hc|]. apply IH. auto.
Qed.

Lemma new_runs_nan (p : float) (l : list float) :
  filter is_nan (new_runs p l) = filter is_nan l.
Proof.
  revert p. induction l as [|e t IH]; intros p; [reflexivity|].
  cbn [new_runs filter]. destruct (p =? e)%float eqn:E.
  - apply eqb_not_nan in E. destruct E as [_ E]. rewrite E. apply IH.
  - cbn [filter]. rewrite IH. reflexivity.
Qed.

(** X3.  A NaN compares [==] to nothing, so [rleC] makes every NaN of the
    vector a run of its own: a run whose value is NaN has length 1, and the
    NaN among the values are those of the vector, one for one. *)
Theorem rleC_nan_runs (h : float) (t : list float) :
  exists r,
    rleC (h :: t) = Ok r /\
    Forall2 (fun l v => is_nan v = true -> l = 1) (lengths r) (values r) /\
    filter is_nan (values r) = filter is_nan (h :: t).
Proof.
  eexists. split; [apply rleC_runs|]. cbn [lengths values].
  split; [apply runs_from_nan; reflexivity|].
  rewrite (runs_from_values h h 1 t) by reflexivity.
  cbn [filter]. rewrite new_runs_nan. reflexivity.
Qed.

(** *** Runs of a bit vector *)

Lemma bit_decode (b : Z) :
  b = 0 \/ b = 1 -> double_to_int (int_to_double b) = b.
Proof. intros [-> | ->]; reflexivity. Qed.

Lemma bit_not_neg_zero (b : Z) :
  b = 0 \/ b = 1 -> int_to_double b <> neg_zero.
Proof.
  intros [-> | ->] E; apply (f_equal get_sign) in E; vm_compute in E;
    discriminate.
Qed.

Lemma bit_eqb (a b : Z) :
  a = 0 \/ a = 1 -> b = 0 \/ b = 1 ->
  (int_to_double a =? int_to_double b)%float = (a =? b).
Proof. intros [-> | ->] [-> | ->]; reflexivity. Qed.

Lemma map_bit_decode (bits : list Z) :
  Forall (fun b => b = 0 \/ b = 1) bits ->
  map double_to_int (map int_to_double bits) = bits.
Proof.
  intros H. rewrite map_map. rewrite <- (map_id bits) at 2.
  apply map_ext_in. intros b Hb. rewrite Forall_forall in H.
  apply bit_decode, H, Hb.
Qed.

Lemma new_runs_crossings (a : Z) (t : list Z) :
  Forall (fun b => b = 0 \/ b = 1) (a :: t) ->
  Z.of_nat (length (new_runs (int_to_double a) (map int_to_double t)))
  = crossings (a :: t).
Proof.
  revert a. induction t as [|b t IH]; intros a H; [reflexivity|].
  inversion H as [|? ? Ha Ht]; subst.
  pose proof (Forall_inv Ht) as Hb.
  change (crossings (a :: b :: t))
    with ((if a =? b then 0 else 1) + crossings (b :: t)).
  cbn [map new_runs]. rewrite (bit_eqb a b Ha Hb).
  specialize (IH b Ht).
  destruct (a =? b); cbn [length]; lia.
Qed.

Lemma no_adjacent_decode (vs : list float) :
  Forall (fun v => v = int_to_double 0 \/ v = int_to_double 1) vs ->
  no_adjacent (fun v w => (v =? w)%float = true) vs ->
  no_adjacent eq (map double_to_int vs).
Proof.
  induction vs as [|v [|w vs'] IH]; intros Hb Hadj; [exact I | exact I |].
  cbn [map no_adjacent] in *. destruct Hadj as [Hvw Hadj].
  inversion Hb as [|? ? Hv Hb']; subst.
  split; [|apply IH; assumption].
  pose proof (Forall_inv Hb') as Hw.
  intros E. apply Hvw.
  destruct Hv as [-> | ->], Hw as [-> | ->];
    try reflexivity; vm_compute in E; discriminate.
Qed.

(** The runs of a non-empty bit vector. *)
Lemma rleC_bits_round_trip_aux (bits : list Z) :
  Forall (fun b => b = 0 \/ b = 1) bits -> bits <> [] ->
  exists r,
    rleC (map int_to_double bits) = Ok r /\
    expand (lengths r) (values r) = map int_to_double bits /\
    Vec.size (values r) = 1 + crossings bits.
Proof.
  intros Hbits Hne.
  destruct bits as [|a t]; [congruence|].
  destruct (rleC_spec (map int_to_double (a :: t)))
    as (r & Hr & Hlen & Hpos & Hsum & Hexp & Hadj & Hin); [discriminate|].
  exists r. split; [exact Hr|].
  assert (Hnz : Forall (fun e => e <> neg_zero) (map int_to_double (a :: t))).
  { apply Forall_map. eapply Forall_impl; [|exact Hbits].
    intros b Hb. apply bit_not_neg_zero, Hb. }
  split.
  { apply Forall2_same_number_exact; [|exact Hnz|exact Hexp].
    apply Forall_forall. intros e He. apply expand_In in He.
    rewrite Forall_forall in Hin. specialize (Hin e He).
    rewrite Forall_forall in Hnz. apply Hnz, Hin. }
  cbn [map] in Hr. rewrite rleC_runs in Hr. injection Hr as <-.
  cbn [values]. rewrite (runs_from_values _ (int_to_double a) 1) by reflexivity.
  unfold Vec.size. cbn [length].
  rewrite <- (new_runs_crossings a t Hbits). lia.
Qed.

(** X4.  Encoding a non-empty vector of bits (as [clipping] and [trending]
    return them, converted to [double]) and reading the values back as
    [int] loses nothing: expanding the runs gives the bits back exactly,
    consecutive runs have different bits, and the number of runs is one more
    than the number of neighbouring bits that differ. *)
Theorem rleC_bits_round_trip (bits : list Z) :
  Forall (fun b => b = 0 \/ b = 1) bits -> bits <> [] ->
  exists r,
    rleC (map int_to_double bits) = Ok r /\
    map double_to_int (expand (lengths r) (values r)) = bits /\
    Forall (fun v => v = 0 \/ v = 1) (map double_to_int (values r)) /\
    no_adjacent eq (map double_to_int (values r)) /\
    Vec.size (values r) = 1 + crossings bits.
Proof.
  intros Hbits Hne.
  destruct (rleC_bits_round_trip_aux bits Hbits Hne) as (r & Hr & Hexp & Hc).
  destruct (rleC_spec (map int_to_double bits))
    as (r' & Hr' & _ & _ & _ & _ & Hadj & Hin).
  { destruct bits; [congruence | discriminate]. }
  rewrite Hr in Hr'. injection Hr' as <-.
  exists r. split; [exact Hr|].
  assert (Hvals : Forall (fun v => v = int_to_double 0 \/ v = int_to_double 1)
                         (values r)).
  { eapply Forall_impl; [|exact Hin]. intros v Hv.
    apply in_map_iff in Hv. destruct Hv as (b & <- & Hb).
    rewrite Forall_forall in Hbits. destruct (Hbits b Hb) as [-> | ->]; auto. }
  split; [rewrite Hexp; apply map_bit_decode, Hbits|].
  split.
  { apply Forall_map. eapply Forall_impl; [|exact Hvals].
    intros v [-> | ->]; [left | right]; reflexivity. }
  split; [apply no_adjacent_decode; assumption | exact Hc].
Qed.

Lemma rleC_bits_round_trip_witness :
  Forall (fun b => b = 0 \/ b = 1) [0; 0; 1; 1; 1; 0] /\
  exists r,
    rleC (map int_to_double [0; 0; 1; 1; 1; 0]) = Ok r /\
    map double_to_int (expand (lengths r) (values r)) = [0; 0; 1; 1; 1; 0] /\
    Forall (fun v => v = 0 \/ v = 1) (map double_to_int (values r)) /\
    no_adjacent eq (map double_to_int (values r)) /\
    Vec.size (values r) = 1 + crossings [0; 0; 1; 1; 1; 0].
Proof.
  assert (H : Forall (fun b => b = 0 \/ b = 1) [0; 0; 1; 1; 1; 0])
    by (repeat (apply Forall_cons; [auto|]); apply Forall_nil).
  split; [exact H|].
  apply (rleC_bits_round_trip [0; 0; 1; 1; 1; 0] H). discriminate.
Defined.

(** ** The aggregation functions of helpers.cpp *)

Section Extremum.

Context {A : Type} (lt : A -> A -> bool).
Hypothesis lt_irrefl : forall a, lt a a = false.
Hypothesis lt_neg_trans :
  forall m a e, lt m e = false -> lt m a = true -> lt a e = false.

Lemma fold_max_keeps (t : list A) (m0 e : A) :
  lt m0 e = false ->
  lt (fold_left (fun m a => if lt m a then a else m) t m0) e = false.
Proof.
  revert m0. induction t as [|a t IH]; intros m0 H; [exact H|].
  cbn [fold_left]. apply IH.
  destruct (lt m0 a) eqn:E; [|exact H].
  exact (lt_neg_trans m0 a e H E).
Qed.

Lemma fold_max_bound (t : list A) (m0 e : A) :
  In e (m0 :: t) ->
  lt (fold_left (fun m a => if lt m a then a else m) t m0) e = false.
Proof.
  revert m0. induction t as [|a t IH]; intros m0 H.
  - destruct H as [<- | []]. apply lt_irrefl.
  - cbn [fold_left]. destruct H as [<- | [<- | H]].
    + apply fold_max_keeps.
      destruct (lt m0 a) eqn:E; [|apply lt_irrefl].
      apply (lt_neg_trans m0 a m0); [apply lt_irrefl | exact E].
    + apply fold_max_keeps.
      destruct (lt m0 a) eqn:E; [apply lt_irrefl | exact E].
    + apply IH. right. exact H.
Qed.

Lemma fold_max_In (t : list A) (m0 : A) :
  In (fold_left (fun m a => if lt m a then a else m) t m0) (m0 :: t).
Proof.
  revert m0. induction t as [|a t IH]; intros m0; [left; reflexivity|].
  cbn [fold_left]. destruct (IH (if lt m0 a then a else m0)) as [H | H].
  - destruct (lt m0 a); [right; left | left]; exact H.
  - right. right. exact H.
Qed.

(** [*std::max_element] on a non-empty range: an element that is less
    than no element of the range. *)
Lemma max_element_bound (h : A) (t : list A) :
  exists m,
    max_element lt (h :: t) = Ok m /\ In m (h :: t) /\
    forall e, In e (h :: t) -> lt m e = false.
Proof.
  eexists. split; [reflexivity|]. split.
  - apply fold_max_In.
  - intros e He. apply fold_max_bound. exact He.
Qed.

End Extremum.

Lemma min_element_flip {A : Type} (lt : A -> A -> bool) (l : list A) :
  min_element lt l = max_element (fun a b => lt b a) l.
Proof. destruct l; reflexivity. Qed.

Lemma SFltb_neg_trans (m a e : spec_float) :
  SFltb m e = false -> SFltb m a = true -> SFltb a e = false.
Proof. intros H1 H2. sf_order. Qed.

Lemma SFltb_neg_trans_flip (m a e : spec_float) :
  SFltb e m = false -> SFltb a m = true -> SFltb e a = false.
Proof. intros H1 H2. sf_order. Qed.

Lemma ltb_neg_trans (m a e : float) :
  (m <? e)%float = false -> (m <? a)%float = true -> (a <? e)%float = false.
Proof. rewrite !ltb_spec. apply SFltb_neg_trans. Qed.

Lemma ltb_neg_trans_flip (m a e : float) :
  (e <? m)%float = false -> (a <? m)%float = true -> (e <? a)%float = false.
Proof. rewrite !ltb_spec. apply SFltb_neg_trans_flip. Qed.

(** X5.  [maxC] dereferences the end iterator on an empty vector.  On a
    non-empty vector it returns an element of the vector that is less than
    no element of the vector, whatever the vector holds; when the vector
    holds no NaN, every element is [<=] the result. *)
Theorem maxC_greatest :
  maxC [] = Err OutOfBounds /\
  forall (h : float) (t : list float),
    exists m,
      maxC (h :: t) = Ok m /\ In m (h :: t) /\
      (forall e, In e (h :: t) -> (m <? e)%float = false) /\
      (Forall (fun e => is_nan e = false) (h :: t) ->
       forall e, In e (h :: t) -> (e <=? m)%float = true).
Proof.
  split; [reflexivity|]. intros h t.
  destruct (max_element_bound ltb ltb_irrefl ltb_neg_trans h t)
    as (m & Hm & Hin & Hub).
  exists m. split; [exact Hm|]. split; [exact Hin|]. split; [exact Hub|].
  intros Hnan e He. rewrite Forall_forall in Hnan.
  apply ltb_total; auto.
Qed.

(** X6.  [minC] dereferences the end iterator on an empty vector.  On a
    non-empty vector it returns an element of the vector that no element of
    the vector is less than; when the vector holds no NaN, the result is
    [<=] every element. *)
Theorem minC_least :
  minC [] = Err OutOfBounds /\
  forall (h : float) (t : list float),
    exists m,
      minC (h :: t) = Ok m /\ In m (h :: t) /\
      (forall e, In e (h :: t) -> (e <? m)%float = false) /\
      (Forall (fun e => is_nan e = false) (h :: t) ->
       forall e, In e (h :: t) -> (m <=? e)%float = true).
Proof.
  split; [reflexivity|]. intros h t.
  destruct (max_element_bound (fun a b => (b <? a)%float) ltb_irrefl
              (fun m a e => ltb_neg_trans_flip m a e) h t)
    as (m & Hm & Hin & Hub).
  exists m. split.
  { unfold minC. rewrite min_element_flip. exact Hm. }
  split; [exact Hin|]. split; [exact Hub|].
  intros Hnan e He. rewrite Forall_forall in Hnan.
  apply ltb_total; auto.
Qed.

(** *** Sums *)

Lemma fold_left_add_map (l : list Z) (a : float) :
  fold_left add (map int_to_double l) a
  = accumulate (fun acc e => acc + int_to_double e)%float l a.
Proof.
  unfold accumulate. revert a. induction l as [|e t IH]; intros a;
    [reflexivity|].
  cbn [map fold_left]. apply IH.
Qed.

(** X7.  [sumC] adds the elements from left to right starting from [0.0];
    on a vector of non-negative integers (run lengths) whose sum is below
    [2^53] no addition rounds, and the result is the exact sum. *)
Theorem sumC_exact_on_lengths (l : list Z) :
  Forall (fun e => 0 <= e) l -> sumZ l < 2 ^ 53 ->
  sumC (map int_to_double l) = Ok (int_to_double (sumZ l)).
Proof.
  intros Hpos Hsum. rewrite sumC_spec, fold_left_add_map.
  change 0%float with (int_to_double 0).
  rewrite (accumulate_int_exact l 0 Hpos); [reflexivity | lia | lia].
Qed.

Lemma sumC_exact_on_lengths_witness :
  Forall (fun e => 0 <= e) [3; 2; 4; 1] /\
  sumC (map int_to_double [3; 2; 4; 1]) = Ok (int_to_double 10).
Proof.
  assert (H : Forall (fun e => 0 <= e) [3; 2; 4; 1])
    by (repeat (apply Forall_cons; [discriminate|]); apply Forall_nil).
  split; [exact H|].
  apply (sumC_exact_on_lengths [3; 2; 4; 1] H). reflexivity.
Defined.

(** *** NaN *)

Lemma is_nan_eq (e : float) : is_nan e = true -> e = nan.
Proof.
  unfold is_nan. intros H. apply Prim2SF_inj.
  rewrite eqb_spec in H. change (Prim2SF nan) with S754_nan.
  revert H. generalize (Prim2SF e). intros s H.
  destruct s; try reflexivity; exfalso; sf_order.
Qed.

Lemma add_nan_r (a : float) : (a + nan)%float = nan.
Proof.
  apply Prim2SF_inj. rewrite add_spec. change (Prim2SF nan) with S754_nan.
  destruct (Prim2SF a) as [| | |[] m x]; reflexivity.
Qed.

Lemma div_nan_l (a : float) : (nan / a)%float = nan.
Proof. apply Prim2SF_inj. rewrite div_spec. reflexivity. Qed.

Lemma fold_add_nan (l : list float) : fold_left add l nan = nan.
Proof.
  induction l as [|e t IH]; [reflexivity|].
  cbn [fold_left]. rewrite add_nan_l. exact IH.
Qed.

Lemma fold_add_In_nan (l : list float) (a e : float) :
  In e l -> is_nan e = true -> fold_left add l a = nan.
Proof.
  revert a. induction l as [|b t IH]; intros a Hin Hn; [destruct Hin|].
  cbn [fold_left]. destruct Hin as [-> | Hin].
  - rewrite (is_nan_eq e Hn), add_nan_r. apply fold_add_nan.
  - apply IH; assumption.
Qed.

(** X8.  A NaN anywhere in the vector makes [sumC] and [meanC] return NaN
    (neither fails), and [meanC] of the empty vector is NaN ([0.0 / 0]). *)
Theorem sumC_meanC_nan (x : list float) :
  (exists e, In e x /\ is_nan e = true) ->
  sumC x = Ok nan /\ meanC x = Ok nan /\ meanC [] = Ok nan.
Proof.
  intros (e & Hin & Hn).
  rewrite sumC_spec, meanC_spec, (fold_add_In_nan x 0%float e Hin Hn).
  rewrite div_nan_l. repeat split.
Qed.

Lemma sumC_meanC_nan_witness :
  (exists e, In e [1; nan; 3]%float /\ is_nan e = true) /\
  sumC [1; nan; 3]%float = Ok nan /\ meanC [1; nan; 3]%float = Ok nan /\
  meanC [] = Ok nan.
Proof.
  assert (H : exists e, In e [1; nan; 3]%float /\ is_nan e = true).
  { exists nan. split; [right; left; reflexivity | reflexivity]. }
  split; [exact H|].
  apply (sumC_meanC_nan [1; nan; 3]%float H).
Defined.

(** ** NaN in the moving average *)

Lemma sma_elem_nan_later (x : list float) (order : Z) (i d : nat) :
  sma_elem x order i = nan -> sma_elem x order (d + i) = nan.
Proof.
  intros H. induction d as [|d IH]; [exact H|].
  cbn [Nat.add sma_elem]. rewrite IH, add_nan_l, sub_nan_l. reflexivity.
Qed.

(** X9.  Each value of [repr_sma] is computed from the one before it, so a
    NaN never leaves the output again: every value after a NaN value is
    NaN, and a NaN among the first [order] elements of the input makes the
    whole output NaN. *)
Theorem repr_sma_nan_persists (x : list float) (order : Z) :
  -1 <= order < Vec.size x ->
  exists r,
    repr_sma x order = Ok r /\
    (forall i j : nat,
       (i <= j < length r)%nat ->
       is_nan (nth i r 0%float) = true -> is_nan (nth j r 0%float) = true) /\
    ((exists e, In e (firstn (Z.to_nat order) x) /\ is_nan e = true) ->
     Forall (fun v => is_nan v = true) r).
Proof.
  intros Ho. exists (sma_spec x order).
  split; [apply repr_sma_spec; exact Ho|].
  assert (Hnth : forall k, (k < length (sma_spec x order))%nat ->
                   nth k (sma_spec x order) 0%float = sma_elem x order k).
  { intros k Hk. unfold sma_spec in *. rewrite length_map, length_seq in Hk.
    rewrite (nth_indep _ 0%float (sma_elem x order 0))
      by (rewrite length_map, length_seq; exact Hk).
    rewrite (map_nth (sma_elem x order)), seq_nth by exact Hk. reflexivity. }
  split.
  - intros i j Hij Hi. rewrite Hnth in * by lia.
    replace j with ((j - i) + i)%nat by lia.
    rewrite (sma_elem_nan_later x order i (j - i) (is_nan_eq _ Hi)).
    reflexivity.
  - intros (e & Hin & Hn). apply Forall_forall. intros v Hv.
    unfold sma_spec in Hv. apply in_map_iff in Hv. destruct Hv as (k & <- & _).
    replace k with (k + 0)%nat by lia.
    rewrite (sma_elem_nan_later x order 0 k); [reflexivity|].
    cbn [sma_elem]. rewrite (fold_add_In_nan _ 0%float e Hin Hn).
    apply div_nan_l.
Qed.

Lemma repr_sma_nan_persists_witness :
  (-1 <= 2 < Vec.size [1; nan; 3; 4; 5]%float) /\
  exists r,
    repr_sma [1; nan; 3; 4; 5]%float 2 = Ok r /\
    (forall i j : nat,
       (i <= j < length r)%nat ->
       is_nan (nth i r 0%float) = true -> is_nan (nth j r 0%float) = true) /\
    ((exists e, In e (firstn (Z.to_nat 2) [1; nan; 3; 4; 5]%float)
                /\ is_nan e = true) ->
     Forall (fun v => is_nan v = true) r).
Proof.
  assert (H : -1 <= 2 < Vec.size [1; nan; 3; 4; 5]%float)
    by (split; [discriminate | reflexivity]).
  split; [exact H|].
  apply (repr_sma_nan_persists [1; nan; 3; 4; 5]%float 2 H).
Defined.

Example repr_sma_nan_example :
  repr_sma [1; nan; 3; 4; 5]%float 2 = Ok [nan; nan; nan]%float.
Proof. vm_compute. reflexivity. Qed.

(** ** More on the median *)

(** X10.  The median depends neither on the order of the elements nor on
    which rearrangement [std::nth_element] chooses: on two vectors without
    NaN and negative zero that are rearrangements of each other, any two
    admissible selections give the same result. *)
Theorem medianC_rearrangement
    (select1 select2 : list float -> nat -> list float)
    (h1 h2 : heap) (x1 x2 : loc) (v w : list float) :
  nth_element_post select1 -> nth_element_post select2 ->
  deref h1 x1 = Ok v -> deref h2 x2 = Ok w ->
  v <> [] -> Permutation v w ->
  Forall (fun e => is_nan e = false) v ->
  (forall e, In e v -> e <> neg_zero) ->
  exists (h1' h2' : heap) (r : float),
    medianC select1 h1 x1 = Ok (h1', r) /\
    medianC select2 h2 x2 = Ok (h2', r).
Proof.
  intros Hs1 Hs2 Hv Hw Hne Hperm Hnan Hnz.
  assert (Hwne : w <> []).
  { intros ->. apply Permutation_sym, Permutation_nil in Hperm. congruence. }
  assert (Hwnan : Forall (fun e => is_nan e = false) w).
  { rewrite Forall_forall in *. intros e He. apply Hnan.
    eapply Permutation_in; [apply Permutation_sym; exact Hperm | exact He]. }
  assert (Hwnz : forall e, In e w -> e <> neg_zero).
  { intros e He. apply Hnz.
    eapply Permutation_in; [apply Permutation_sym; exact Hperm | exact He]. }
  destruct (medianC_general select1 h1 x1 v (sort v) Hs1 Hv Hne Hnan
              (sort_perm v) (sort_sorted v Hnan))
    as (h1' & r1 & Hr1 & _ & _ & _ & _ & E1).
  destruct (medianC_general select2 h2 x2 w (sort v) Hs2 Hw Hwne Hwnan
              (Permutation_trans (sort_perm v) Hperm) (sort_sorted v Hnan))
    as (h2' & r2 & Hr2 & _ & _ & _ & _ & E2).
  exists h1', h2', r1. split; [exact Hr1|].
  rewrite Hr2, (E1 Hnz), (E2 Hwnz).
  rewrite (Permutation_length Hperm). reflexivity.
Qed.

Lemma medianC_rearrangement_witness :
  exists (h1' h2' : heap) (r : float),
    medianC select_by_sort [[4; 1; 3; 2]%float] 0%nat = Ok (h1', r) /\
    medianC select_by_sort [[7]; [2; 3; 1; 4]]%float 1%nat = Ok (h2', r).
Proof.
  apply (medianC_rearrangement select_by_sort select_by_sort
           [[4; 1; 3; 2]%float] [[7]; [2; 3; 1; 4]]%float 0%nat 1%nat
           [4; 1; 3; 2]%float [2; 3; 1; 4]%float
           select_by_sort_post select_by_sort_post).
  - reflexivity.
  - reflexivity.
  - discriminate.
  - apply (perm_trans (l' := [1; 4; 3; 2]%float)); [apply perm_swap|].
    apply (perm_trans (l' := [1; 3; 4; 2]%float));
      [apply perm_skip, perm_swap|].
    apply (perm_trans (l' := [3; 1; 4; 2]%float)); [apply perm_swap|].
    apply (perm_trans (l' := [3; 1; 2; 4]%float));
      [do 2 apply perm_skip; apply perm_swap|].
    apply (perm_trans (l' := [3; 2; 1; 4]%float));
      [apply perm_skip, perm_swap|].
    apply (perm_trans (l' := [2; 3; 1; 4]%float)); [apply perm_swap|].
    apply Permutation_refl.
  - repeat (apply Forall_cons; [reflexivity|]). apply Forall_nil.
  - intros e [<- | [<- | [<- | [<- | []]]]]; apply not_neg_zero; reflexivity.
Defined.

(** X11.  On an empty vector [medianC] reads [y[0]] outside its copy; on a
    one-element vector it returns the element, whatever it is. *)
Theorem medianC_small_vectors (select : list float -> nat -> list float) :
  nth_element_post select ->
  (forall (h : heap) (x : loc),
     deref h x = Ok [] -> medianC select h x = Err OutOfBounds) /\
  (forall (h : heap) (x : loc) (e : float),
     deref h x = Ok [e] -> medianC select h x = Ok (h ++ [[e]], e)).
Proof.
  intros Hsel. split.
  - intros h x Hx. unfold medianC.
    rewrite (clone_fresh h x [] Hx). cbn [bind]. rewrite deref_fresh.
    cbn [bind].
    replace (Z.quot (Vec.size (@nil float)) 2) with 0 by reflexivity.
    replace (Z.rem (Vec.size (@nil float)) 2 =? 1) with false by reflexivity.
    rewrite (nth_element_whole select [] 0) by (cbn; lia).
    destruct (Hsel [] O) as [Hp _].
    apply Permutation_sym, Permutation_nil in Hp.
    change (Z.to_nat 0) with O. rewrite Hp. reflexivity.
  - intros h x e Hx. unfold medianC.
    rewrite (clone_fresh h x [e] Hx). cbn [bind]. rewrite deref_fresh.
    cbn [bind].
    replace (Z.quot (Vec.size [e]) 2) with 0 by reflexivity.
    replace (Z.rem (Vec.size [e]) 2 =? 1) with true by reflexivity.
    rewrite (nth_element_whole select [e] 0) by (cbn; lia).
    destruct (Hsel [e] O) as [Hp _].
    apply Permutation_sym, Permutation_length_1_inv in Hp.
    change (Z.to_nat 0) with O. rewrite Hp. cbn [bind].
    rewrite store_fresh. reflexivity.
Qed.

Lemma medianC_small_vectors_witness :
  nth_element_post select_by_sort /\
  medianC select_by_sort [[]] 0%nat = Err OutOfBounds /\
  medianC select_by_sort [[nan]] 0%nat = Ok ([[nan]; [nan]], nan).
Proof.
  split; [exact select_by_sort_post|].
  destruct (medianC_small_vectors select_by_sort select_by_sort_post)
    as [H0 H1].
  split; [apply (H0 [[]] 0%nat) | apply (H1 [[nan]] 0%nat nan)]; reflexivity.
Defined.

(** ** The bit-level encoders *)

Lemma ltb_nan_l (e : float) : (nan <? e)%float = false.
Proof. rewrite ltb_spec. reflexivity. Qed.

Lemma map_const {A B : Type} (b : B) (l : list A) :
  map (fun _ => b) l = repeat b (length l).
Proof. induction l as [|a l IH]; [reflexivity|]. cbn. now rewrite IH. Qed.

(** The bits of [clipping]: one per element, each 0 or 1. *)
Lemma clipping_bit_values (x : list float) (bits : list Z) :
  clipping x = Ok bits ->
  length bits = length x /\ Forall (fun b => b = 0 \/ b = 1) bits.
Proof.
  rewrite clipping_spec. intros H. injection H as <-.
  split; [apply length_map|].
  apply Forall_map, Forall_forall. intros e _. destruct (gtb _ _); auto.
Qed.

(** X12.  [clipping] never fails and returns one bit, 0 or 1, per element:
    bit [i] is 1 exactly when [x[i]] is greater than the mean, which is the
    value [meanC] returns for the vector.  A NaN anywhere in the vector
    makes the mean NaN, and then no element is above the mean: all bits
    are 0. *)
Theorem clipping_bits (x : list float) :
  exists bits m,
    clipping x = Ok bits /\
    meanC x = Ok m /\
    bits = map (fun e => if (m <? e)%float then 1 else 0) x /\
    length bits = length x /\
    Forall (fun b => b = 0 \/ b = 1) bits /\
    ((exists e, In e x /\ is_nan e = true) -> bits = repeat 0 (length x)).
Proof.
  eexists. eexists. split; [apply clipping_spec|].
  split; [apply meanC_spec|].
  split; [reflexivity|].
  split; [apply length_map|]. split.
  - apply Forall_map, Forall_forall. intros e _. destruct (gtb _ _); auto.
  - intros (e & Hin & Hn). unfold accumulate.
    rewrite (fold_add_In_nan x 0%float e Hin Hn), div_nan_l.
    rewrite <- map_const. apply map_ext. intros a. unfold gtb.
    now rewrite ltb_nan_l.
Qed.

Lemma nth_map_indices {A : Type} (f : Z -> A) (m i : nat) (d : A) :
  (i < m)%nat -> nth i (map f (indices m)) d = f (Z.of_nat i).
Proof.
  intros H. unfold indices. rewrite map_map.
  rewrite (nth_indep _ d (f (Z.of_nat 0)))
    by (rewrite length_map, length_seq; exact H).
  rewrite (map_nth (fun k => f (Z.of_nat k))), seq_nth by exact H.
  reflexivity.
Qed.

(** ** Block lengths and season lengths outside the intended range *)

(** X14.  [repr_paa] does not check the block length: with [q = 0] it
    divides by zero, and with [q < 0] it asks for a vector of negative
    length, whatever the vector and the aggregation function. *)
Theorem repr_paa_bad_block_length (x : list float) (q : Z)
    (func : list float -> result float) :
  (q = 0 -> repr_paa x q func = Err DivisionByZero) /\
  (q < 0 -> repr_paa x q func = Err NegativeLength).
Proof.
  split.
  - intros ->. reflexivity.
  - intros Hq. unfold repr_paa, int_div, int_rem.
    destruct (Z.eqb_spec q 0) as [|_]; [lia|]. cbn [bind]. cbv zeta.
    unfold Vec.alloc at 1.
    destruct (_ <? 0); [reflexivity|]. cbn [bind].
    unfold Vec.alloc at 1.
    destruct (Z.ltb_spec q 0); [reflexivity | lia].
Qed.

Lemma repr_paa_bad_block_length_witness :
  repr_paa [1; 2; 3]%float 0 maxC = Err DivisionByZero /\
  repr_paa [1; 2; 3]%float (-2) maxC = Err NegativeLength.
Proof.
  split.
  - apply (proj1 (repr_paa_bad_block_length [1; 2; 3]%float 0 maxC)).
    reflexivity.
  - apply (proj2 (repr_paa_bad_block_length [1; 2; 3]%float (-2) maxC)).
    reflexivity.
Defined.

Lemma maxC_agg (l : list float) : l <> [] -> maxC l = Ok (agg_max l).
Proof. destruct l; [congruence | reflexivity]. Qed.

Lemma minC_agg (l : list float) : l <> [] -> minC l = Ok (agg_min l).
Proof. destruct l; [congruence | reflexivity]. Qed.

Lemma paa_blocks_nonempty {A : Type} (q : nat) (x : list A) :
  (0 < q)%nat -> Forall (fun b => b <> []) (paa_blocks q x).
Proof.
  intros Hq. rewrite paa_blocks_map by exact Hq.
  apply Forall_map, Forall_forall. intros i Hi. apply in_seq in Hi.
  pose proof (Nat.div_mod_eq (length x) q) as Hdm.
  pose proof (Nat.mod_upper_bound (length x) q ltac:(lia)) as Hub.
  assert (Hlt : (i * q < length x)%nat).
  { destruct (Nat.eqb_spec (length x mod q) 0); nia. }
  intros E. apply (f_equal (@length A)) in E.
  rewrite length_firstn, length_skipn in E. cbn [length] in E. lia.
Qed.

(** X15.  For a block length [q >= 1], [repr_paa] calls the aggregation
    function on non-empty blocks only, so a function that fails on the
    empty vector, as [maxC] and [minC] do, is safe: the result is the list
    of the block maxima (minima), and with [q = 1] it is the vector
    itself. *)
Theorem repr_paa_extrema (x : list float) (q : Z) :
  1 <= q ->
  Forall (fun b => b <> []) (paa_blocks (Z.to_nat q) x) /\
  repr_paa x q maxC = Ok (map agg_max (paa_blocks (Z.to_nat q) x)) /\
  repr_paa x q minC = Ok (map agg_min (paa_blocks (Z.to_nat q) x)) /\
  (q = 1 -> repr_paa x q maxC = Ok x /\ repr_paa x q minC = Ok x).
Proof.
  intros Hq.
  split; [apply paa_blocks_nonempty; lia|].
  split; [apply repr_paa_partial; [exact maxC_agg | exact Hq]|].
  split; [apply repr_paa_partial; [exact minC_agg | exact Hq]|].
  intros ->.
  rewrite (repr_paa_partial maxC agg_max x 1 maxC_agg) by lia.
  rewrite (repr_paa_partial minC agg_min x 1 minC_agg) by lia.
  change (Z.to_nat 1) with 1%nat.
  rewrite paa_blocks_singletons, !map_map. cbn.
  now rewrite map_id.
Qed.

Lemma repr_paa_extrema_witness :
  1 <= 2 /\
  repr_paa [1; 5; 3; 4; 2]%float 2 maxC = Ok [5; 4; 2]%float /\
  repr_paa [1; 5; 3; 4; 2]%float 2 minC = Ok [1; 3; 2]%float.
Proof.
  assert (H : 1 <= 2) by discriminate.
  split; [exact H|].
  destruct (repr_paa_extrema [1; 5; 3; 4; 2]%float 2 H) as (_ & Hmax & Hmin & _).
  split; [rewrite Hmax | rewrite Hmin]; vm_compute; reflexivity.
Defined.

Lemma phase_values_length (x : list float) (freq cycles i : nat) :
  length (phase_values x freq cycles i) = cycles.
Proof. unfold phase_values. now rewrite length_map, length_seq. Qed.

(** X16.  [repr_seas_profile] does not check the season length.  With
    [freq = 0] it divides by zero and with [freq < 0] it asks for a vector
    of negative length.  With [freq > n] there is no complete season: every
    phase aggregates the empty vector, so a total aggregation function
    gives [freq] copies of its value on the empty vector, and [maxC]
    dereferences the end iterator. *)
Theorem repr_seas_profile_bad_season (x : list float) (freq : Z) :
  (freq = 0 ->
   forall func, repr_seas_profile x freq func = Err DivisionByZero) /\
  (freq < 0 ->
   forall func, repr_seas_profile x freq func = Err NegativeLength) /\
  (Vec.size x < freq ->
   (forall agg : list float -> float,
      repr_seas_profile x freq (pure_fn agg)
      = Ok (repeat (agg []) (Z.to_nat freq))) /\
   repr_seas_profile x freq maxC = Err OutOfBounds).
Proof.
  pose proof (size_nonneg x) as Hn.
  split; [intros -> func; reflexivity|]. split.
  - intros Hf func. unfold repr_seas_profile, Vec.alloc.
    destruct (Z.ltb_spec freq 0); [reflexivity | lia].
  - intros Hf.
    assert (Hc : Vec.size x / freq = 0) by (apply Z.div_small; lia).
    split.
    + intros agg.
      rewrite (repr_seas_profile_partial (pure_fn agg) agg) by (auto || lia).
      rewrite Hc. change (Z.to_nat 0) with O. unfold phase_values.
      cbn [seq map]. rewrite map_const, length_seq. reflexivity.
    + unfold repr_seas_profile, int_div.
      rewrite alloc_ok by lia. cbn [bind].
      destruct (Z.eqb_spec freq 0) as [|_]; [lia|]. cbn [bind].
      rewrite Z.quot_div_nonneg, Hc by lia.
      cbn [Vec.alloc Z.ltb Z.compare Z.to_nat repeat bind].
      rewrite (for_range_first_err _ 0 freq _ OutOfBounds);
        [reflexivity | lia | reflexivity].
Qed.

Lemma repr_seas_profile_bad_season_witness :
  repr_seas_profile [1; 2; 3]%float 0 sumC = Err DivisionByZero /\
  repr_seas_profile [1; 2; 3]%float (-1) sumC = Err NegativeLength /\
  repr_seas_profile [1; 2; 3]%float 4 sumC = Ok [0; 0; 0; 0]%float /\
  repr_seas_profile [1; 2; 3]%float 4 maxC = Err OutOfBounds.
Proof.
  split.
  { apply (proj1 (repr_seas_profile_bad_season [1; 2; 3]%float 0)).
    reflexivity. }
  split.
  { apply (proj1 (proj2 (repr_seas_profile_bad_season [1; 2; 3]%float (-1)))).
    reflexivity. }
  split; [reflexivity|].
  apply (proj2 (proj2 (repr_seas_profile_bad_season [1; 2; 3]%float 4))).
  reflexivity.
Defined.

(** X17.  For [1 <= freq <= n], [repr_seas_profile] calls the aggregation
    function on vectors of [floor(n/freq) >= 1] elements only, so [maxC]
    and [minC] are safe: the result holds the maximum (minimum) of every
    phase, and with [freq = n] it is the vector itself. *)
Theorem repr_seas_profile_extrema (x : list float) (freq : Z) :
  1 <= freq <= Vec.size x ->
  1 <= Vec.size x / freq /\
  repr_seas_profile x freq maxC
  = Ok (map (fun i => agg_max (phase_values x (Z.to_nat freq)
                                 (Z.to_nat (Vec.size x / freq)) i))
            (seq 0 (Z.to_nat freq))) /\
  repr_seas_profile x freq minC
  = Ok (map (fun i => agg_min (phase_values x (Z.to_nat freq)
                                 (Z.to_nat (Vec.size x / freq)) i))
            (seq 0 (Z.to_nat freq))) /\
  (freq = Vec.size x ->
   repr_seas_profile x freq maxC = Ok x /\
   repr_seas_profile x freq minC = Ok x).
Proof.
  intros Hf.
  assert (Hc : 1 <= Vec.size x / freq).
  { apply Z.div_le_lower_bound; lia. }
  assert (Hne : forall l : list float,
            length l = Z.to_nat (Vec.size x / freq) -> l <> []).
  { intros l Hl ->. cbn [length] in Hl. lia. }
  assert (Hmax : repr_seas_profile x freq maxC
                 = Ok (map (fun i => agg_max (phase_values x (Z.to_nat freq)
                                 (Z.to_nat (Vec.size x / freq)) i))
                           (seq 0 (Z.to_nat freq)))).
  { apply repr_seas_profile_partial; [|lia].
    intros l Hl. apply maxC_agg, Hne, Hl. }
  assert (Hmin : repr_seas_profile x freq minC
                 = Ok (map (fun i => agg_min (phase_values x (Z.to_nat freq)
                                 (Z.to_nat (Vec.size x / freq)) i))
                           (seq 0 (Z.to_nat freq)))).
  { apply repr_seas_profile_partial; [|lia].
    intros l Hl. apply minC_agg, Hne, Hl. }
  split; [exact Hc|]. split; [exact Hmax|]. split; [exact Hmin|].
  intros E. rewrite Hmax, Hmin. rewrite E, Z.div_same by lia.
  unfold Vec.size. rewrite Nat2Z.id. change (Z.to_nat 1) with 1%nat.
  unfold phase_values. cbn [seq map Nat.mul Nat.add].
  split; f_equal.
  - etransitivity; [|apply (seq_nth_self x 0%float)].
    apply map_ext. intros i. cbn. f_equal. lia.
  - etransitivity; [|apply (seq_nth_self x 0%float)].
    apply map_ext. intros i. cbn. f_equal. lia.
Qed.

Lemma repr_seas_profile_extrema_witness :
  (1 <= 2 <= Vec.size [1; 5; 3; 4; 2]%float) /\
  repr_seas_profile [1; 5; 3; 4; 2]%float 2 maxC = Ok [3; 5]%float /\
  repr_seas_profile [1; 5; 3; 4; 2]%float 2 minC = Ok [1; 4]%float.
Proof.
  assert (H : 1 <= 2 <= Vec.size [1; 5; 3; 4; 2]%float)
    by (split; discriminate).
  split; [exact H|].
  destruct (repr_seas_profile_extrema [1; 5; 3; 4; 2]%float 2 H)
    as (_ & Hmax & Hmin & _).
  split; [rewrite Hmax | rewrite Hmin]; vm_compute; reflexivity.
Defined.

(** ** The trend features with the aggregation functions of the package *)

Lemma maxC_int_agg (l : list Z) : l <> [] -> maxC_int l = Ok (agg_max_int l).
Proof. destruct l; [congruence | reflexivity]. Qed.

Lemma minC_int_agg (l : list Z) : l <> [] -> minC_int l = Ok (agg_min_int l).
Proof. destruct l; [congruence | reflexivity]. Qed.

Lemma sumC_int_agg (l : list Z) : sumC_int l = Ok (agg_sum_int l).
Proof. apply sumC_spec. Qed.

Lemma sumZ_repeat_zero (k : nat) : sumZ (repeat 0 k) = 0.
Proof. induction k as [|k IH]; [reflexivity|]. cbn. exact IH. Qed.

Lemma Forall_repeat {A : Type} (P : A -> Prop) (a : A) (k : nat) :
  P a -> Forall P (repeat a k).
Proof. intros H. induction k; cbn; constructor; assumption. Qed.

Lemma agg_sum_int_exact (l : list Z) :
  Forall (fun e => 0 <= e) l -> sumZ l < 2 ^ 53 ->
  agg_sum_int l = int_to_double (sumZ l).
Proof.
  intros Hpos Hsum. unfold agg_sum_int. rewrite fold_left_add_map.
  change 0%float with (int_to_double 0).
  rewrite (accumulate_int_exact l 0 Hpos); [reflexivity | lia | lia].
Qed.

(** Zeros after the lengths do not change the sum. *)
Lemma agg_sum_int_padding (l : list Z) (k : nat) :
  Forall (fun e => 1 <= e) l -> sumZ l < 2 ^ 53 ->
  agg_sum_int (l ++ repeat 0 k) = agg_sum_int l.
Proof.
  intros Hpos Hsum.
  assert (H0 : Forall (fun e => 0 <= e) l)
    by (eapply Forall_impl; [|exact Hpos]; intros; cbn beta in *; lia).
  rewrite !agg_sum_int_exact; try assumption.
  - now rewrite sumZ_app, sumZ_repeat_zero, Z.add_0_r.
  - apply Forall_app. split; [exact H0|]. apply Forall_repeat. lia.
  - rewrite sumZ_app, sumZ_repeat_zero. lia.
Qed.

Lemma fold_max_repeat (z m : float) (k : nat) :
  (m <? z)%float = false ->
  fold_left (fun m e => if (m <? e)%float then e else m) (repeat z k) m = m.
Proof.
  intros H. induction k as [|k IH]; [reflexivity|].
  cbn [repeat fold_left]. rewrite H. exact IH.
Qed.

Lemma elem_le_sum (l : list Z) (e : Z) :
  Forall (fun a => 1 <= a) l -> In e l -> 1 <= e <= sumZ l.
Proof.
  induction l as [|a l IH]; intros Hpos Hin; [destruct Hin|].
  inversion Hpos as [|? ? Ha Hl]; subst. cbn [sumZ fold_right].
  fold (sumZ l).
  assert (0 <= sumZ l).
  { clear -Hl. induction l as [|b l IH]; [cbn; lia|].
    inversion Hl; subst. cbn [sumZ fold_right]. fold (sumZ l).
    specialize (IH H2). lia. }
  destruct Hin as [<- | Hin]; [lia|]. specialize (IH Hl Hin). lia.
Qed.

Lemma positive_int_not_below_zero (e : Z) :
  0 < e < 2 ^ 53 -> (int_to_double e <? 0)%float = false.
Proof.
  intros He. destruct (Prim2SF_int e He) as (N & _ & HN).
  rewrite ltb_spec, HN. reflexivity.
Qed.

(** Zeros after the lengths do not change the maximum. *)
Lemma agg_max_int_padding (l : list Z) (k : nat) :
  l <> [] -> Forall (fun e => 1 <= e) l -> sumZ l < 2 ^ 53 ->
  agg_max_int (l ++ repeat 0 k) = agg_max_int l.
Proof.
  intros Hne Hpos Hsum. destruct l as [|a l]; [congruence|].
  unfold agg_max_int, agg_max, maxC, max_element.
  cbn [app map]. rewrite map_app, fold_left_app, map_repeat.
  apply fold_max_repeat.
  pose proof (fold_max_In ltb (map int_to_double l) (int_to_double a)) as Hin.
  change (int_to_double a :: map int_to_double l)
    with (map int_to_double (a :: l)) in Hin.
  apply in_map_iff in Hin. destruct Hin as (e & <- & He).
  apply positive_int_not_below_zero.
  pose proof (elem_le_sum (a :: l) e Hpos He). lia.
Qed.

Lemma agg_max_int_zeros (k : nat) : agg_max_int (repeat 0 (S k)) = 0%float.
Proof.
  unfold agg_max_int, agg_max, maxC, max_element.
  cbn [repeat map]. rewrite map_repeat. apply fold_max_repeat. reflexivity.
Qed.

Lemma agg_sum_int_zeros (k : nat) : agg_sum_int (repeat 0 (S k)) = 0%float.
Proof.
  rewrite agg_sum_int_exact.
  - now rewrite sumZ_repeat_zero.
  - apply Forall_repeat. lia.
  - rewrite sumZ_repeat_zero. reflexivity.
Qed.

(** The runs of a piece are shorter than the smoothed signal. *)
Lemma piece_run_lengths_sum (s : list float) (np j : nat) (v : Z) :
  0 <= sumZ (piece_run_lengths s np j v) <= Z.max 0 (Vec.size s - 1).
Proof.
  unfold piece_run_lengths.
  destruct (piece_block s np j) as [|b0 block] eqn:Eb;
    [cbn; lia|].
  assert (Hbl : Vec.size (b0 :: block) <= Vec.size s).
  { rewrite <- Eb. unfold piece_block, Vec.size.
    rewrite length_firstn, length_skipn. lia. }
  assert (Hn : 1 <= Vec.size (b0 :: block))
    by (unfold Vec.size; cbn [length]; lia).
  destruct (trending (b0 :: block)) as [b|e] eqn:Ht; [|cbn; lia].
  destruct (trending_bits _ b Hn Ht) as [_ Hlen].
  destruct (rleC (map int_to_double b)) as [r|e] eqn:Hr; [|cbn; lia].
  destruct b as [|c b']; [discriminate|].
  destruct (rleC_spec (map int_to_double (c :: b')))
    as (r' & Hr' & _ & Hpos & Hsum & _); [discriminate|].
  rewrite Hr in Hr'. injection Hr' as <-.
  pose proof (select_lengths_sum (fun w => w =? v) (lengths r)
                (map double_to_int (values r))) as Hs.
  unfold run_lengths.
  assert (H0 : Forall (fun l => 0 <= l) (lengths r))
    by (eapply Forall_impl; [|exact Hpos]; intros; cbn beta in *; lia).
  specialize (Hs H0).
  unfold Vec.size in *. rewrite length_map in Hsum. lia.
Qed.

(** An aggregation that ignores zeros after positive lengths, and is zero
    on zeros alone, hides the zeros that the later pieces carry. *)
Lemma piece_feature_hidden (agg : list Z -> float) (s : list float)
    (np j : nat) (v : Z) (bound : Z) :
  (forall l k, l <> [] -> Forall (fun e => 1 <= e) l -> sumZ l < bound ->
               agg (l ++ repeat 0 k) = agg l) ->
  (forall k, agg (repeat 0 (S k)) = 0%float) ->
  Vec.size s <= bound ->
  piece_feature agg s np j v = piece_feature_clean agg s np j v.
Proof.
  intros Hpad Hzero Hb. unfold piece_feature, piece_feature_clean, piece_argument.
  pose proof (piece_run_lengths_pos s np j v) as Hpos.
  pose proof (piece_run_lengths_sum s np j v) as Hsum.
  set (k := match j with
            | O => O
            | S i => length (piece_run_lengths s np i v)
            end).
  destruct (piece_run_lengths s np j v) as [|a l] eqn:E.
  - cbn [app]. destruct k as [|k]; [reflexivity|]. apply Hzero.
  - rewrite <- (Hpad (a :: l) k); [reflexivity | discriminate | exact Hpos |].
    pose proof (elem_le_sum (a :: l) a Hpos (or_introl eq_refl)). lia.
Qed.

(** X18.  What [repr_featrend] computes for pieces of at least two
    elements and an aggregation function that returns a value on every
    non-empty vector: [2 * pieces] values, for piece [j] the aggregate of
    the lengths of its runs of ones, then of its runs of zeros.  The run
    counters are not cleared between the pieces, so from the second piece
    on the vector handed to the function ends in one [0] for every run of
    that value in the piece before; the first piece is free of them. *)
Theorem repr_featrend_padded (func : list Z -> result float)
    (agg : list Z -> float) (x : list float) (pieces order : Z) :
  (forall l, l <> [] -> func l = Ok (agg l)) ->
  1 <= pieces -> -1 <= order < Vec.size x ->
  2 <= Vec.size (sma_spec x order) / pieces ->
  exists r,
    repr_featrend x func pieces order = Ok r /\
    Vec.size r = 2 * pieces /\
    (forall (j : nat) (v : Z),
       Z.of_nat j < pieces -> v = 0 \/ v = 1 ->
       nth (2 * j + Z.to_nat (1 - v)) r 0%float
       = match piece_run_lengths (sma_spec x order)
                 (Z.to_nat (Vec.size (sma_spec x order) / pieces)) j v
               ++ repeat 0
                    (match j with
                     | O => O
                     | S i =>
                         length
                           (piece_run_lengths (sma_spec x order)
                              (Z.to_nat (Vec.size (sma_spec x order) / pieces))
                              i v)
                     end)
         with
         | [] => 0%float
         | l => agg l
         end).
Proof.
  intros Hfun Hp Ho Hnp.
  eexists. split; [apply (repr_featrend_spec func agg Hfun); assumption|].
  set (s := sma_spec x order).
  set (np := Z.to_nat (Vec.size s / pieces)).
  split.
  { unfold Vec.size. rewrite flat_map_pair_length, length_seq. lia. }
  intros j v Hj Hv.
  assert (Hnth : forall (F G : nat -> float) (m : nat),
            (j < m)%nat ->
            nth (2 * j) (flat_map (fun i => [F i; G i]) (seq 0 m)) 0%float = F j
            /\ nth (2 * j + 1) (flat_map (fun i => [F i; G i]) (seq 0 m)) 0%float
               = G j).
  { intros F G m Hm.
    replace m with (j + S (m - S j))%nat by lia.
    rewrite seq_app, flat_map_app. cbn [seq flat_map Nat.add app].
    assert (Hl : length (flat_map (fun i => [F i; G i]) (seq 0 j)) = (2 * j)%nat)
      by (rewrite flat_map_pair_length, length_seq; lia).
    split.
    - rewrite app_nth2 by lia. rewrite Hl, Nat.sub_diag. reflexivity.
    - rewrite app_nth2 by lia. rewrite Hl.
      replace (2 * j + 1 - 2 * j)%nat with 1%nat by lia. reflexivity. }
  destruct (Hnth (fun i => piece_feature agg s np i 1)
                 (fun i => piece_feature agg s np i 0)
                 (Z.to_nat pieces) ltac:(lia)) as [H1 H0].
  destruct Hv as [-> | ->].
  - change (Z.to_nat (1 - 0)) with 1%nat. exact H0.
  - change (Z.to_nat (1 - 1)) with 0%nat. rewrite Nat.add_0_r. exact H1.
Qed.

Lemma repr_featrend_padded_witness :
  exists r,
    repr_featrend [0; 1; 2; 3; 4; 5; 6; 7; 8; 9; 10]%float minC_int 2 1 = Ok r /\
    Vec.size r = 2 * 2 /\
    nth 2 r 0%float = agg_min_int [4; 0].
Proof.
  destruct (repr_featrend_padded minC_int agg_min_int
              [0; 1; 2; 3; 4; 5; 6; 7; 8; 9; 10]%float 2 1 minC_int_agg)
    as (r & Hr & Hsz & Hval).
  - discriminate.
  - split; [discriminate | reflexivity].
  - intros H. vm_compute in H. discriminate.
  - exists r. split; [exact Hr|]. split; [exact Hsz|].
    assert (H1 : Z.of_nat 1 < 2) by reflexivity.
    assert (H2 : 1 = 0 \/ 1 = 1) by (right; reflexivity).
    etransitivity; [exact (Hval 1%nat 1 H1 H2)|].
    vm_compute. reflexivity.
Defined.

(** X19.  With [maxC] and with [sumC], the functions the package
    documents for [repr_featrend], the zeros carried over from the piece
    before change nothing: on a vector of fewer than [2^53] elements every
    value is the maximum (the sum) of the lengths of the runs of the piece
    itself, and [0] where the piece has no such run. *)
Theorem repr_featrend_max_sum (x : list float) (pieces order : Z) :
  1 <= pieces -> -1 <= order < Vec.size x ->
  2 <= Vec.size (sma_spec x order) / pieces ->
  Vec.size x < 2 ^ 53 ->
  repr_featrend x maxC_int pieces order
  = Ok (flat_map
          (fun j =>
             [piece_feature_clean agg_max_int (sma_spec x order)
                (Z.to_nat (Vec.size (sma_spec x order) / pieces)) j 1;
              piece_feature_clean agg_max_int (sma_spec x order)
                (Z.to_nat (Vec.size (sma_spec x order) / pieces)) j 0])
          (seq 0 (Z.to_nat pieces))) /\
  repr_featrend x sumC_int pieces order
  = Ok (flat_map
          (fun j =>
             [piece_feature_clean agg_sum_int (sma_spec x order)
                (Z.to_nat (Vec.size (sma_spec x order) / pieces)) j 1;
              piece_feature_clean agg_sum_int (sma_spec x order)
                (Z.to_nat (Vec.size (sma_spec x order) / pieces)) j 0])
          (seq 0 (Z.to_nat pieces))).
Proof.
  intros Hp Ho Hnp Hx.
  assert (Hs : Vec.size (sma_spec x order) <= 2 ^ 53).
  { rewrite sma_spec_size by lia. lia. }
  split.
  - rewrite (repr_featrend_spec maxC_int agg_max_int maxC_int_agg)
      by assumption.
    f_equal. apply flat_map_ext. intros j.
    rewrite !(piece_feature_hidden agg_max_int _ _ _ _ (2 ^ 53));
      try reflexivity; try exact Hs; try exact agg_max_int_zeros;
      intros l k Hne Hpos Hsum; apply agg_max_int_padding; assumption.
  - rewrite (repr_featrend_spec sumC_int agg_sum_int
               (fun l _ => sumC_int_agg l)) by assumption.
    f_equal. apply flat_map_ext. intros j.
    rewrite !(piece_feature_hidden agg_sum_int _ _ _ _ (2 ^ 53));
      try reflexivity; try exact Hs; try exact agg_sum_int_zeros;
      intros l k Hne Hpos Hsum; apply agg_sum_int_padding; assumption.
Qed.

Lemma repr_featrend_max_sum_witness :
  repr_featrend [0; 1; 2; 3; 4; 5; 6; 7; 8; 9; 10]%float maxC_int 2 1
  = Ok [4; 0; 4; 0]%float /\
  repr_featrend [0; 1; 2; 3; 4; 5; 6; 7; 8; 9; 10]%float sumC_int 2 1
  = Ok [4; 0; 4; 0]%float.
Proof.
  destruct (repr_featrend_max_sum [0; 1; 2; 3; 4; 5; 6; 7; 8; 9; 10]%float 2 1)
    as [Hmax Hsum].
  - discriminate.
  - split; [discriminate | reflexivity].
  - intros H. vm_compute in H. discriminate.
  - reflexivity.
  - split; [rewrite Hmax | rewrite Hsum]; vm_compute; reflexivity.
Defined.

(** X20.  [repr_featrend] checks neither the number of pieces nor their
    size.  With a negative number of pieces (from [-2^30] on, so that
    [pieces * 2] is in the range of [int]) it asks for a vector of negative
    length, and with [pieces = 0] it divides by zero.  With a positive
    number of pieces (below [2^30], for the same reason), when the pieces
    have no element ([floor(m / pieces) = 0]) [trending] asks for a vector
    of [-1] elements, and when they have one element the encoder reads
    element 0 of an empty bit vector. *)
Theorem repr_featrend_bad_pieces (x : list float)
    (func : list Z -> result float) (pieces order : Z) :
  -1 <= order < Vec.size x ->
  (- 2 ^ 30 <= pieces < 0 ->
   repr_featrend x func pieces order = Err NegativeLength) /\
  (pieces = 0 -> repr_featrend x func pieces order = Err DivisionByZero) /\
  (1 <= pieces < 2 ^ 30 -> Vec.size (sma_spec x order) / pieces = 0 ->
   repr_featrend x func pieces order = Err NegativeLength) /\
  (1 <= pieces < 2 ^ 30 -> Vec.size (sma_spec x order) / pieces = 1 ->
   repr_featrend x func pieces order = Err OutOfBounds).
Proof.
  intros Ho. unfold repr_featrend. rewrite repr_sma_spec by exact Ho.
  cbn [bind]. set (s := sma_spec x order).
  pose proof (size_nonneg s) as Hs.
  split; [|split; [|split]].
  - intros Hp. unfold Vec.alloc.
    destruct (Z.ltb_spec (pieces * 2) 0); [reflexivity | lia].
  - intros ->. reflexivity.
  - intros Hp Hq. rewrite alloc_ok by lia. cbn [bind]. unfold int_div.
    destruct (Z.eqb_spec pieces 0) as [|_]; [lia|]. cbn [bind].
    rewrite Z.quot_div_nonneg, Hq by lia.
    cbn [Vec.alloc Z.ltb Z.compare Z.to_nat repeat bind].
    rewrite (for_range_first_err _ 0 pieces _ NegativeLength);
      [reflexivity | lia | reflexivity].
  - intros Hp Hq. rewrite alloc_ok by lia. cbn [bind]. unfold int_div.
    destruct (Z.eqb_spec pieces 0) as [|_]; [lia|]. cbn [bind].
    rewrite Z.quot_div_nonneg, Hq by lia.
    cbn [Vec.alloc Z.ltb Z.compare Z.to_nat Pos.to_nat Pos.iter_op Nat.add
         repeat bind].
    rewrite (for_range_first_err _ 0 pieces _ OutOfBounds);
      [reflexivity | lia |].
    destruct s as [|a s'].
    + change (Vec.size (@nil float)) with 0 in Hq.
      rewrite Z.div_0_l in Hq by lia. discriminate.
    + reflexivity.
Qed.

Lemma repr_featrend_bad_pieces_witness :
  (-1 <= 1 < Vec.size [0; 1; 2; 3; 4; 5]%float) /\
  repr_featrend [0; 1; 2; 3; 4; 5]%float maxC_int (-1) 1 = Err NegativeLength /\
  repr_featrend [0; 1; 2; 3; 4; 5]%float maxC_int 0 1 = Err DivisionByZero /\
  repr_featrend [0; 1; 2; 3; 4; 5]%float maxC_int 6 1 = Err NegativeLength /\
  repr_featrend [0; 1; 2; 3; 4; 5]%float maxC_int 5 1 = Err OutOfBounds.
Proof.
  assert (H : -1 <= 1 < Vec.size [0; 1; 2; 3; 4; 5]%float)
    by (split; [discriminate | reflexivity]).
  split; [exact H|].
  split.
  { apply (proj1 (repr_featrend_bad_pieces _ maxC_int (-1) 1 H)).
    split; [vm_compute; discriminate | reflexivity]. }
  split.
  { apply (proj1 (proj2 (repr_featrend_bad_pieces _ maxC_int 0 1 H))).
    reflexivity. }
  split.
  { apply (proj1 (proj2 (proj2 (repr_featrend_bad_pieces _ maxC_int 6 1 H)))).
    - split; [discriminate | reflexivity].
    - vm_compute. reflexivity. }
  apply (proj2 (proj2 (proj2 (repr_featrend_bad_pieces _ maxC_int 5 1 H)))).
  - split; [discriminate | reflexivity].
  - vm_compute. reflexivity.
Defined.

(** ** More on the clipping features *)

(** The value of [repr_feaclip] on a vector with a non-empty clipping,
    with what the encoder guarantees about the runs. *)
Lemma repr_feaclip_value (x : list float) (bits : list Z) :
  clipping x = Ok bits -> bits <> [] ->
  exists r,
    rleC (map int_to_double bits) = Ok r /\
    length (lengths r) = length (values r) /\
    Forall (fun l => 1 <= l) (lengths r) /\
    sumZ (lengths r) = Vec.size (map int_to_double bits) /\
    repr_feaclip x
    = Ok [ int_to_double
             (max_or_zero
                (run_lengths 1 (lengths r) (map double_to_int (values r))));
           accumulate (fun acc l => acc + int_to_double l)%float
             (run_lengths 1 (lengths r) (map double_to_int (values r)))
             0%float;
           int_to_double
             (max_or_zero
                (run_lengths 0 (lengths r) (map double_to_int (values r))));
           int_to_double (Vec.size (values r) - 1);
           int_to_double
             (if hd 0 (map double_to_int (values r)) =? 0
              then hd 0 (lengths r) else 0);
           int_to_double
             (if last (map double_to_int (values r)) 0 =? 0
              then last (lengths r) 0 else 0);
           int_to_double
             (if hd 0 (map double_to_int (values r)) =? 1
              then hd 0 (lengths r) else 0);
           int_to_double
             (if last (map double_to_int (values r)) 0 =? 1
              then last (lengths r) 0 else 0) ].
Proof.
  intros Hclip Hne.
  destruct (rleC_spec (map int_to_double bits)) as
    (r & Hr & Hlen & Hpos & Hsum & _ & _ & Hin).
  { destruct bits; [congruence | discriminate]. }
  exists r. split; [exact Hr|].
  split; [exact Hlen|]. split; [exact Hpos|]. split; [exact Hsum|].
  pose proof (clipped_values_bits x bits r Hclip Hin) as Hbits.
  set (ls := lengths r) in *.
  set (vs := map double_to_int (values r)) in *.
  assert (Hlv : length ls = length vs)
    by (unfold vs; rewrite length_map; exact Hlen).
  assert (Hn : (1 <= length vs)%nat).
  { rewrite <- Hlv. destruct ls as [|l ls']; cbn [length]; [|lia].
    unfold sumZ in Hsum. cbn in Hsum.
    destruct bits; [congruence|]. unfold Vec.size in Hsum.
    cbn [map length] in Hsum. lia. }
  assert (Hsize : Vec.size (values r) = Vec.size vs)
    by (unfold Vec.size, vs; now rewrite length_map).
  assert (Hlast : nth (length vs - 1) ls 0 = last ls 0)
    by (rewrite <- Hlv; apply nth_pred_last).
  unfold repr_feaclip. cbn [Vec.alloc Z.ltb Z.compare bind].
  rewrite Hclip. cbn [bind]. rewrite Hr. cbn [bind].
  fold ls vs. rewrite Hsize.
  change (Z.to_nat 8) with 8%nat. cbn [repeat].
  vec_set.
  rewrite edge_feature_eq
    by (unfold Vec.size in *; cbn [length]; lia).
  cbn [bind]. vec_update.
  rewrite edge_feature_eq
    by (unfold Vec.size in *; cbn [length]; lia).
  cbn [bind]. vec_update.
  rewrite edge_feature_eq
    by (unfold Vec.size in *; cbn [length]; lia).
  cbn [bind]. vec_update.
  rewrite edge_feature_eq
    by (unfold Vec.size in *; cbn [length]; lia).
  cbn [bind]. vec_update.
  replace (Z.to_nat (Vec.size vs - 1)) with (length vs - 1)%nat
    by (unfold Vec.size; lia).
  rewrite !nth_zero_hd, !nth_pred_last, !Hlast.
  rewrite count_loop. cbn [bind]. rewrite !Z.add_0_l.
  rewrite !alloc_ok by apply size_nonneg. cbn [bind].
  rewrite fill_loop_runs;
    [| exact Hlv
     | rewrite repeat_length; unfold Vec.size; lia
     | rewrite repeat_length; unfold Vec.size; lia ].
  cbn [bind].
  rewrite !skipn_repeat_size, !app_nil_r.
  rewrite (select_lengths_ext (fun v => negb (v =? 0)) (fun v => v =? 1))
    by (eapply Forall_impl; [|exact Hbits];
        intros v [-> | ->]; reflexivity).
  fold (run_lengths 0 ls vs). fold (run_lengths 1 ls vs).
  assert (Hge : forall v, Forall (fun e => 0 <= e) (run_lengths v ls vs)).
  { intros v. apply select_lengths_Forall.
    eapply Forall_impl; [|exact Hpos]. intros; cbn beta in *; lia. }
  assert (Hmax : forall v, run_lengths v ls vs <> [] ->
            max_element Z.ltb (run_lengths v ls vs)
            = Ok (max_or_zero (run_lengths v ls vs)))
    by (intros v Hv; apply max_element_max; [exact Hv | apply Hge]).
  assert (Hones :
    (if Vec.size (run_lengths 1 ls vs) =? 0
     then
       representation <-
         Vec.set
           [0%float; 0%float; 0%float; int_to_double (Vec.size vs - 1);
            int_to_double (if hd 0 vs =? 0 then hd 0 ls else 0);
            int_to_double (if last vs 0 =? 0 then last ls 0 else 0);
            int_to_double (if hd 0 vs =? 1 then hd 0 ls else 0);
            int_to_double (if last vs 0 =? 1 then last ls 0 else 0)]
           0 0%float ;;
       Vec.set representation 1 0%float
     else
       m <- max_element Z.ltb (run_lengths 1 ls vs) ;;
       representation <-
         Vec.set
           [0%float; 0%float; 0%float; int_to_double (Vec.size vs - 1);
            int_to_double (if hd 0 vs =? 0 then hd 0 ls else 0);
            int_to_double (if last vs 0 =? 0 then last ls 0 else 0);
            int_to_double (if hd 0 vs =? 1 then hd 0 ls else 0);
            int_to_double (if last vs 0 =? 1 then last ls 0 else 0)]
           0 (int_to_double m) ;;
       Vec.set representation 1
         (accumulate (fun acc l => acc + int_to_double l)%float
            (run_lengths 1 ls vs) 0%float))
    = Ok [int_to_double (max_or_zero (run_lengths 1 ls vs));
          accumulate (fun acc l => acc + int_to_double l)%float
            (run_lengths 1 ls vs) 0%float;
          0%float; int_to_double (Vec.size vs - 1);
          int_to_double (if hd 0 vs =? 0 then hd 0 ls else 0);
          int_to_double (if last vs 0 =? 0 then last ls 0 else 0);
          int_to_double (if hd 0 vs =? 1 then hd 0 ls else 0);
          int_to_double (if last vs 0 =? 1 then last ls 0 else 0)]).
  { destruct (run_lengths 1 ls vs) as [|o1 ones] eqn:Eo.
    - cbn [Vec.size length Z.of_nat Z.eqb]. vec_set. vec_set. reflexivity.
    - rewrite <- Eo. rewrite Hmax by (rewrite Eo; discriminate).
      rewrite Eo at 1. cbn [Vec.size length Z.of_nat Z.eqb bind].
      vec_set. vec_set. reflexivity. }
  rewrite Hones. cbn [bind].
  destruct (run_lengths 0 ls vs) as [|z1 zeros] eqn:Ez.
  + cbn [Vec.size length Z.of_nat Z.eqb]. vec_set. reflexivity.
  + rewrite <- Ez. rewrite Hmax by (rewrite Ez; discriminate).
    rewrite Ez at 1. cbn [Vec.size length Z.of_nat Z.eqb bind].
    vec_set. reflexivity.
Qed.

Lemma clipping_nonempty (h : float) (t : list float) :
  exists b bits, clipping (h :: t) = Ok (b :: bits).
Proof. rewrite clipping_spec. cbn [map]. eauto. Qed.

(** X21.  [repr_feaclip] returns a vector of eight values on every
    non-empty vector; on the empty vector the encoder is called on an empty
    bit vector and reads its element 0. *)
Theorem repr_feaclip_defined :
  repr_feaclip [] = Err OutOfBounds /\
  forall (h : float) (t : list float),
    exists r, repr_feaclip (h :: t) = Ok r /\ length r = 8%nat.
Proof.
  split; [reflexivity|]. intros h t.
  destruct (clipping_nonempty h t) as (b & bits & Hclip).
  destruct (repr_feaclip_value (h :: t) (b :: bits) Hclip)
    as (r & _ & _ & _ & _ & Hval); [discriminate|].
  eexists. split; [exact Hval | reflexivity].
Qed.

Lemma filter_repeat {A : Type} (p : A -> bool) (a : A) (n : nat) :
  filter p (repeat a n) = if p a then repeat a n else [].
Proof.
  induction n as [|n IH]; [now destruct (p a)|].
  cbn [repeat filter]. rewrite IH. destruct (p a); reflexivity.
Qed.

(** The elements of the expansion that satisfy [p]: one for every element
    of a selected run. *)
Lemma count_expand (p : float -> bool) (q : Z -> bool) (ls : list Z)
    (vs : list float) :
  (forall v, p v = q (double_to_int v)) ->
  Forall (fun l => 0 <= l) ls ->
  Vec.size (filter p (expand ls vs))
  = sumZ (select_lengths q ls (map double_to_int vs)).
Proof.
  intros Hpq Hpos. revert vs.
  induction Hpos as [|l ls Hl Hpos IH]; intros [|v vs]; try reflexivity.
  cbn [expand map select_lengths]. rewrite filter_app, size_app, IH.
  rewrite filter_repeat, <- Hpq. unfold Vec.size.
  destruct (p v); cbn [sumZ fold_right length].
  - rewrite repeat_length. fold (sumZ (select_lengths q ls (map double_to_int vs))).
    lia.
  - reflexivity.
Qed.

Lemma filter_map_bits (bits : list Z) :
  Forall (fun b => b = 0 \/ b = 1) bits ->
  Vec.size (filter (fun e => double_to_int e =? 1) (map int_to_double bits))
  = count_ones bits.
Proof.
  unfold count_ones, Vec.size. intros H. f_equal.
  induction H as [|b bits Hb H IH]; [reflexivity|].
  cbn [map filter]. rewrite (bit_decode b Hb).
  destruct (b =? 1); cbn [length]; now rewrite IH.
Qed.

(** X22.  Two of the values of [repr_feaclip] read on the bits themselves:
    on a non-empty vector of fewer than [2^53] elements, element 1 is the
    number of elements above the mean (the ones of [clipping x]) and
    element 3 is the number of neighbouring elements on different sides of
    the mean (neighbouring bits that differ). *)
Theorem repr_feaclip_counts (x : list float) :
  x <> [] -> Vec.size x < 2 ^ 53 ->
  exists bits r,
    clipping x = Ok bits /\
    repr_feaclip x = Ok r /\
    nth 1 r 0%float = int_to_double (count_ones bits) /\
    nth 3 r 0%float = int_to_double (crossings bits).
Proof.
  intros Hne Hx. destruct x as [|h t]; [congruence|].
  destruct (clipping_nonempty h t) as (b & bits & Hclip).
  destruct (clipping_bit_values (h :: t) (b :: bits) Hclip) as [Hlen Hbits].
  destruct (repr_feaclip_value (h :: t) (b :: bits) Hclip)
    as (r & Hr & Hlv & Hpos & Hsum & Hval); [discriminate|].
  destruct (rleC_bits_round_trip_aux (b :: bits) Hbits) as (r' & Hr' & Hexp & Hcross);
    [discriminate|].
  rewrite Hr in Hr'. injection Hr' as <-.
  exists (b :: bits). eexists. split; [exact Hclip|]. split; [exact Hval|].
  cbn [nth]. split.
  - assert (H0 : Forall (fun l => 0 <= l) (lengths r))
      by (eapply Forall_impl; [|exact Hpos]; intros; cbn beta in *; lia).
    assert (Hcount : sumZ (run_lengths 1 (lengths r)
                             (map double_to_int (values r)))
                     = count_ones (b :: bits)).
    { unfold run_lengths.
      rewrite <- (count_expand (fun e => double_to_int e =? 1)
                    (fun w => w =? 1)) by (auto || exact H0).
      rewrite Hexp. apply filter_map_bits, Hbits. }
    change 0%float with (int_to_double 0).
    rewrite accumulate_int_exact.
    + f_equal. lia.
    + apply select_lengths_Forall. exact H0.
    + lia.
    + rewrite Hcount. unfold count_ones, Vec.size in *.
      pose proof (filter_length_le (fun b => b =? 1) (b :: bits)).
      rewrite Hlen in *. lia.
  - f_equal. lia.
Qed.

Lemma repr_feaclip_counts_witness :
  [1; 3; 2; 5; 4]%float <> [] /\
  exists bits r,
    clipping [1; 3; 2; 5; 4]%float = Ok bits /\
    repr_feaclip [1; 3; 2; 5; 4]%float = Ok r /\
    nth 1 r 0%float = int_to_double (count_ones bits) /\
    nth 3 r 0%float = int_to_double (crossings bits).
Proof.
  assert (H : [1; 3; 2; 5; 4]%float <> []) by discriminate.
  split; [exact H|].
  apply (repr_feaclip_counts [1; 3; 2; 5; 4]%float H). reflexivity.
Defined.

(** ** The combined representation *)

(** X23.  [repr_feacliptrend] allocates its two parts before computing
    them, so a negative number of pieces (from [-2^30] on, so that
    [pieces * 2] is in the range of [int]) fails at once.  For pieces of at
    least two elements and an aggregation function that returns a value on
    every non-empty vector, the result is the eight values of
    [repr_feaclip] followed by the [2 * pieces] values of [repr_featrend]. *)
Theorem repr_feacliptrend_layout (func : list Z -> result float)
    (agg : list Z -> float) (x : list float) (pieces order : Z) :
  (- 2 ^ 30 <= pieces < 0 ->
   repr_feacliptrend x func pieces order = Err NegativeLength) /\
  ((forall l, l <> [] -> func l = Ok (agg l)) ->
   1 <= pieces -> -1 <= order < Vec.size x ->
   2 <= Vec.size (sma_spec x order) / pieces ->
   exists a b,
     repr_feaclip x = Ok a /\
     repr_featrend x func pieces order = Ok b /\
     repr_feacliptrend x func pieces order = Ok (a ++ b) /\
     Vec.size a = 8 /\ Vec.size b = 2 * pieces).
Proof.
  split.
  - intros Hp. unfold repr_feacliptrend.
    cbn [Vec.alloc Z.ltb Z.compare bind]. unfold Vec.alloc.
    destruct (Z.ltb_spec (pieces * 2) 0); [reflexivity | lia].
  - intros Hfun Hp Ho Hnp.
    destruct x as [|h t].
    { exfalso. change (Vec.size (@nil float)) with 0 in *.
      assert (order = -1) by lia. subst order.
      rewrite sma_spec_size in Hnp by (cbn; lia).
      change (Vec.size (@nil float) - -1) with 1 in Hnp.
      assert (1 / pieces <= 1) by (apply Z.div_le_upper_bound; lia). lia. }
    destruct (clipping_nonempty h t) as (b0 & bits & Hclip).
    destruct (repr_feaclip_value (h :: t) (b0 :: bits) Hclip)
      as (r & _ & _ & _ & _ & Hval); [discriminate|].
    eexists. eexists. split; [exact Hval|].
    split; [apply (repr_featrend_spec func agg Hfun); assumption|].
    split.
    + apply repr_feacliptrend_concat; [lia | exact Hval |].
      apply (repr_featrend_spec func agg Hfun); assumption.
    + split; [reflexivity|].
      unfold Vec.size. rewrite flat_map_pair_length, length_seq. lia.
Qed.

Lemma repr_feacliptrend_layout_witness :
  repr_feacliptrend [0; 1; 2; 3; 4; 5; 6; 7; 8; 9; 10]%float maxC_int (-1) 1
  = Err NegativeLength /\
  exists a b,
    repr_feaclip [0; 1; 2; 3; 4; 5; 6; 7; 8; 9; 10]%float = Ok a /\
    repr_featrend [0; 1; 2; 3; 4; 5; 6; 7; 8; 9; 10]%float maxC_int 2 1 = Ok b /\
    repr_feacliptrend [0; 1; 2; 3; 4; 5; 6; 7; 8; 9; 10]%float maxC_int 2 1
    = Ok (a ++ b) /\
    Vec.size a = 8 /\ Vec.size b = 2 * 2.
Proof.
  split.
  - apply (proj1 (repr_feacliptrend_layout maxC_int agg_max_int
                    [0; 1; 2; 3; 4; 5; 6; 7; 8; 9; 10]%float (-1) 1)).
    split; [vm_compute; discriminate | reflexivity].
  - apply (proj2 (repr_feacliptrend_layout maxC_int agg_max_int
                    [0; 1; 2; 3; 4; 5; 6; 7; 8; 9; 10]%float 2 1)).
    + exact maxC_int_agg.
    + discriminate.
    + split; [discriminate | reflexivity].
    + intros H. vm_compute in H. discriminate.
Defined.

(** ** Encoding an expansion *)

Lemma eqb_refl_num (v : float) : is_nan v = false -> (v =? v)%float = true.
Proof. unfold is_nan. intros H. now apply negb_false_iff in H. Qed.

Lemma runs_from_repeat (v : float) (c : Z) (k : nat) (rest : list float) :
  (is_nan v = true -> k = O) ->
  runs_from v c (repeat v k ++ rest) = runs_from v (c + Z.of_nat k) rest.
Proof.
  intros Hn. revert c. induction k as [|k IH]; intros c.
  - cbn [repeat app]. f_equal. lia.
  - cbn [repeat app runs_from].
    destruct (is_nan v) eqn:E; [specialize (Hn eq_refl); discriminate|].
    rewrite (eqb_refl_num v E).
    rewrite IH by (intros; congruence). f_equal. lia.
Qed.

Lemma runs_from_expand (ls : list Z) (vs : list float) :
  forall (v : float) (c : Z),
    length ls = length vs ->
    Forall (fun l => 1 <= l) ls ->
    no_adjacent (fun a b => (a =? b)%float = true) (v :: vs) ->
    Forall2 (fun l w => is_nan w = true -> l = 1) ls vs ->
    runs_from v c (expand ls vs) = (c, v) :: combine ls vs.
Proof.
  revert vs. induction ls as [|l ls IH]; intros [|w vs] v c Hlen Hpos Hadj Hnan;
    try discriminate; [reflexivity|].
  inversion Hpos as [|? ? Hl Hpos']; subst.
  inversion Hnan as [|? ? ? ? Hlw Hnan']; subst.
  cbn [no_adjacent] in Hadj. destruct Hadj as [Hvw Hadj].
  cbn [expand combine].
  replace (Z.to_nat l) with (S (Z.to_nat (l - 1))) by lia.
  cbn [repeat app runs_from].
  destruct (v =? w)%float; [exfalso; apply Hvw; reflexivity|].
  f_equal. rewrite runs_from_repeat by (intros H; specialize (Hlw H); lia).
  replace (1 + Z.of_nat (Z.to_nat (l - 1))) with l by lia.
  apply IH; [cbn [length] in Hlen; lia | assumption | exact Hadj | assumption].
Qed.

Lemma map_fst_combine {A B : Type} (l : list A) (m : list B) :
  length l = length m -> map fst (combine l m) = l.
Proof.
  revert m. induction l as [|a l IH]; intros [|b m] H; try discriminate;
    [reflexivity|].
  cbn. f_equal. apply IH. cbn in H. lia.
Qed.

Lemma map_snd_combine {A B : Type} (l : list A) (m : list B) :
  length l = length m -> map snd (combine l m) = m.
Proof.
  revert m. induction l as [|a l IH]; intros [|b m] H; try discriminate;
    [reflexivity|].
  cbn. f_equal. apply IH. cbn in H. lia.
Qed.

(** X24.  Encoding the expansion of a run sequence gives the run sequence
    back, bit for bit, when the sequence is one the encoder can produce:
    not empty, as many lengths as values, every length at least 1, no two
    consecutive values that compare [==], and length 1 for every NaN. *)
Theorem rleC_of_expansion (ls : list Z) (vs : list float) :
  ls <> [] ->
  length ls = length vs ->
  Forall (fun l => 1 <= l) ls ->
  no_adjacent (fun a b => (a =? b)%float = true) vs ->
  Forall2 (fun l w => is_nan w = true -> l = 1) ls vs ->
  rleC (expand ls vs) = Ok (mkRle ls vs).
Proof.
  intros Hne Hlen Hpos Hadj Hnan.
  destruct ls as [|l ls]; [congruence|].
  destruct vs as [|v vs]; [discriminate|].
  inversion Hpos as [|? ? Hl Hpos']; subst.
  inversion Hnan as [|? ? ? ? Hlv Hnan']; subst.
  cbn [expand].
  replace (Z.to_nat l) with (S (Z.to_nat (l - 1))) by lia.
  cbn [repeat app]. rewrite rleC_runs.
  rewrite runs_from_repeat by (intros H; specialize (Hlv H); lia).
  replace (1 + Z.of_nat (Z.to_nat (l - 1))) with l by lia.
  rewrite runs_from_expand;
    [| cbn [length] in Hlen; lia | assumption | exact Hadj | assumption].
  cbn [map fst snd].
  rewrite map_fst_combine, map_snd_combine by (cbn [length] in Hlen; lia).
  reflexivity.
Qed.

Lemma rleC_of_expansion_witness :
  rleC (expand [3; 1; 2] [5; nan; 5]%float) = Ok (mkRle [3; 1; 2] [5; nan; 5]%float).
Proof.
  apply (rleC_of_expansion [3; 1; 2] [5; nan; 5]%float).
  - discriminate.
  - reflexivity.
  - repeat (apply Forall_cons; [discriminate|]). apply Forall_nil.
  - cbn. repeat split; discriminate.
  - repeat (apply Forall2_cons; [|]); try apply Forall2_nil;
      intros H; try reflexivity; vm_compute in H; discriminate.
Defined.

(** ** The moving average in general *)

(** X25.  For [1 <= order < n], [repr_sma] returns [n - order] values: the
    first is [meanC] of the first [order] elements, and each later one is
    the one before it plus [x[i + order] / order] minus [x[i - 1] / order],
    so [x[order]] enters no sum. *)
Theorem repr_sma_recurrence (x : list float) (order : Z) :
  1 <= order < Vec.size x ->
  exists r,
    repr_sma x order = Ok r /\
    Vec.size r = Vec.size x - order /\
    meanC (firstn (Z.to_nat order) x) = Ok (nth 0 r 0%float) /\
    forall i : nat,
      (1 <= i)%nat -> Z.of_nat i < Vec.size x - order ->
      nth i r 0%float
      = (nth (i - 1) r 0
         + nth (i + Z.to_nat order) x 0 / int_to_double order
         - nth (i - 1) x 0 / int_to_double order)%float.
Proof.
  intros Ho. exists (sma_spec x order).
  split; [apply repr_sma_spec; lia|].
  split; [apply sma_spec_size; lia|].
  assert (Hnth : forall k, Z.of_nat k < Vec.size x - order ->
                   nth k (sma_spec x order) 0%float = sma_elem x order k).
  { intros k Hk. unfold sma_spec.
    rewrite (nth_indep _ 0%float (sma_elem x order 0))
      by (rewrite length_map, length_seq; lia).
    rewrite (map_nth (sma_elem x order)), seq_nth by lia. reflexivity. }
  split.
  - rewrite meanC_spec, Hnth by lia. cbn [sma_elem].
    do 3 f_equal. unfold Vec.size in *. rewrite length_firstn. lia.
  - intros i Hi Hlt. destruct i as [|j]; [lia|].
    rewrite !Hnth by lia. cbn [sma_elem].
    replace (S j - 1)%nat with j by lia.
    do 4 f_equal. lia.
Qed.

Lemma repr_sma_recurrence_witness :
  (1 <= 3 < Vec.size [1; 2; 3; 2; 1; 2; 3; 4; 3; 2]%float) /\
  exists r,
    repr_sma [1; 2; 3; 2; 1; 2; 3; 4; 3; 2]%float 3 = Ok r /\
    Vec.size r = Vec.size [1; 2; 3; 2; 1; 2; 3; 4; 3; 2]%float - 3 /\
    meanC (firstn (Z.to_nat 3) [1; 2; 3; 2; 1; 2; 3; 4; 3; 2]%float)
    = Ok (nth 0 r 0%float) /\
    forall i : nat,
      (1 <= i)%nat ->
      Z.of_nat i < Vec.size [1; 2; 3; 2; 1; 2; 3; 4; 3; 2]%float - 3 ->
      nth i r 0%float
      = (nth (i - 1) r 0
         + nth (i + Z.to_nat 3) [1; 2; 3; 2; 1; 2; 3; 4; 3; 2] 0
           / int_to_double 3
         - nth (i - 1) [1; 2; 3; 2; 1; 2; 3; 4; 3; 2] 0 / int_to_double 3)%float.
Proof.
  assert (H : 1 <= 3 < Vec.size [1; 2; 3; 2; 1; 2; 3; 4; 3; 2]%float)
    by (split; [discriminate | reflexivity]).
  split; [exact H|].
  apply (repr_sma_recurrence [1; 2; 3; 2; 1; 2; 3; 4; 3; 2]%float 3 H).
Defined.

(** ** The sign of a difference

    [x[i] - x[i+1] < 0] in [trending] is a subtraction in [double] followed
    by a comparison.  Rounding never turns a non-zero difference into a
    zero (the smallest differences are subnormal numbers) and keeps its
    sign, so the test is the comparison [x[i] < x[i+1]]. *)

Lemma digits_upper (N : positive) : Zpos N < 2 ^ Zpos (digits2_pos N).
Proof.
  induction N as [N IH | N IH |]; cbn [digits2_pos];
    rewrite ?Pos2Z.inj_succ, ?Z.pow_succ_r by lia; lia.
Qed.

Lemma shr_1_m (mrs : shr_record) :
  0 <= shr_m mrs -> shr_m (shr_1 mrs) = shr_m mrs / 2.
Proof.
  destruct mrs as [m r s]. cbn [shr_m]. intros H.
  rewrite <- Z.div2_div.
  destruct m as [|[p|p|]|p]; try reflexivity. lia.
Qed.

Lemma shr_iter_m (mrs : shr_record) (p : positive) :
  0 <= shr_m mrs ->
  shr_m (Pos.iter shr_1 mrs p) = shr_m mrs / 2 ^ Zpos p.
Proof.
  intros H. induction p as [|p IH] using Pos.peano_ind.
  - cbn [Pos.iter]. rewrite shr_1_m by exact H. reflexivity.
  - rewrite Pos.iter_succ, shr_1_m, IH.
    + rewrite Pos2Z.inj_succ, Z.pow_succ_r by lia.
      rewrite Z.div_div by lia. f_equal. lia.
    + rewrite IH. apply Z.div_pos; lia.
Qed.

Lemma shr_record_of_loc_m (m : Z) (l : location) :
  shr_m (shr_record_of_loc m l) = m.
Proof. destruct l as [|[]]; reflexivity. Qed.

(** Shifting a positive mantissa to its format exponent leaves a positive
    mantissa, for exponents from the smallest on. *)
Lemma shr_fexp_positive (m : positive) (e : Z) (l : location) :
  -1074 <= e ->
  exists mrs e',
    shr_fexp prec emax (Zpos m) e l = (mrs, e') /\
    0 < shr_m mrs /\ -1074 <= e'.
Proof.
  intros He. unfold shr_fexp, shr. cbn [Zdigits2].
  set (d := Zpos (digits2_pos m)).
  destruct (fexp prec emax (d + e) - e) as [|p|p] eqn:E.
  - eexists. eexists. split; [reflexivity|].
    rewrite shr_record_of_loc_m. lia.
  - eexists. eexists. split; [reflexivity|].
    rewrite iter_pos_iter, shr_iter_m, shr_record_of_loc_m
      by (rewrite shr_record_of_loc_m; lia).
    unfold fexp, emin, prec, emax in E.
    assert (Hp : Zpos p = d - 53) by lia.
    split; [|lia].
    apply Z.div_str_pos. split; [lia|].
    pose proof (digits_lower m) as Hl. fold d in Hl.
    assert (2 ^ Zpos p <= 2 ^ (d - 1)) by (apply Z.pow_le_mono_r; lia).
    lia.
  - eexists. eexists. split; [reflexivity|].
    rewrite shr_record_of_loc_m. lia.
Qed.

Lemma round_nearest_even_positive (m : Z) (l : location) :
  0 < m -> exists q, round_nearest_even m l = Zpos q.
Proof.
  intros H. destruct m as [|p|p]; try lia.
  destruct l as [|[]]; cbn [round_nearest_even];
    try (destruct (Z.even (Zpos p))); eauto;
    exists (p + 1)%positive; reflexivity.
Qed.

(** Rounding a non-zero number gives a non-zero number of the same sign:
    a finite number or an infinity. *)
Lemma binary_round_aux_sign (s : bool) (m : positive) (e : Z) :
  -1074 <= e ->
  SFltb (binary_round_aux prec emax s (Zpos m) e loc_Exact) (S754_zero false)
  = s.
Proof.
  intros He. unfold binary_round_aux.
  destruct (shr_fexp_positive m e loc_Exact He) as (mrs1 & e1 & -> & Hm1 & He1).
  destruct (round_nearest_even_positive (shr_m mrs1) (loc_of_shr_record mrs1) Hm1)
    as (q & ->).
  destruct (shr_fexp_positive q e1 loc_Exact He1) as (mrs2 & e2 & -> & Hm2 & _).
  destruct (shr_m mrs2) as [|m2|m2]; try lia.
  destruct (e2 <=? emax - prec); destruct s; reflexivity.
Qed.

Lemma binary_round_sign (s : bool) (m : positive) (e : Z) :
  -1074 <= e ->
  SFltb (binary_round prec emax s m e) (S754_zero false) = s.
Proof.
  intros He. unfold binary_round.
  destruct (shl_align m e (fexp prec emax (Zpos (digits2_pos m) + e)))
    as [mz ez] eqn:E.
  apply binary_round_aux_sign.
  unfold shl_align in E.
  destruct (fexp prec emax (Zpos (digits2_pos m) + e) - e) eqn:E';
    injection E as <- <-; try exact He.
  unfold fexp, emin, prec, emax. lia.
Qed.

Lemma binary_normalize_sign (d e : Z) :
  -1074 <= e ->
  SFltb (binary_normalize prec emax d e false) (S754_zero false) = (d <? 0).
Proof.
  intros He. destruct d as [|p|p]; cbn [binary_normalize].
  - reflexivity.
  - apply binary_round_sign. exact He.
  - apply binary_round_sign. exact He.
Qed.

(** The exponent and the mantissa of a finite number of the format: a
    mantissa of 53 digits, or fewer at the smallest exponent. *)
Lemma valid_finite (s : bool) (m : positive) (e : Z) :
  valid_binary (S754_finite s m e) = true ->
  -1074 <= e /\ Zpos (digits2_pos m) <= 53 /\
  (-1074 < e -> Zpos (digits2_pos m) = 53).
Proof.
  unfold SpecFloat.valid_binary, bounded, canonical_mantissa, fexp, emin,
    prec, emax.
  intros H. apply andb_prop in H. destruct H as [H _].
  apply Z.eqb_eq in H. lia.
Qed.

Lemma mantissa_below_larger_exponent (mx my : positive) (ex ey : Z) :
  Zpos (digits2_pos mx) <= 53 -> Zpos (digits2_pos my) = 53 -> ex < ey ->
  Zpos mx < Zpos my * 2 ^ (ey - ex).
Proof.
  intros Hx Hy Hlt.
  pose proof (digits_upper mx) as Hux.
  pose proof (digits_lower my) as Hly. rewrite Hy in Hly.
  assert (2 ^ Zpos (digits2_pos mx) <= 2 ^ 53)
    by (apply Z.pow_le_mono_r; lia).
  assert (2 ^ 1 <= 2 ^ (ey - ex)) by (apply Z.pow_le_mono_r; lia).
  change (2 ^ 1) with 2 in *. change (2 ^ (53 - 1)) with 4503599627370496 in *.
  change (2 ^ 53) with 9007199254740992 in *. nia.
Qed.

Ltac decide_sign :=
  cbn [cond_Zopp CompOpp Pos.switch_Eq];
  match goal with
  | |- (?d <? 0) = _ => destruct (Z.ltb_spec0 d 0); try reflexivity; lia
  end.

(** The sign of the difference of the aligned mantissas is the order of the
    two numbers. *)
Lemma aligned_difference_sign (sx sy : bool) (mx my : positive) (ex ey : Z) :
  valid_binary (S754_finite sx mx ex) = true ->
  valid_binary (S754_finite sy my ey) = true ->
  (cond_Zopp sx (Zpos (fst (shl_align mx ex (Z.min ex ey))))
   - cond_Zopp sy (Zpos (fst (shl_align my ey (Z.min ex ey)))) <? 0)
  = SFltb (S754_finite sx mx ex) (S754_finite sy my ey).
Proof.
  intros Hx Hy.
  destruct (valid_finite _ _ _ Hx) as (Hex & Hdx & Hnx).
  destruct (valid_finite _ _ _ Hy) as (Hey & Hdy & Hny).
  rewrite !shl_align_eq by lia. cbn [fst]. rewrite !pshl_value by lia.
  unfold SFltb, SFcompare.
  destruct (Z.compare_spec ex ey) as [E | E | E].
  - subst ey. rewrite Z.min_id, Z.sub_diag, !Z.mul_1_r.
    rewrite (Pos.compare_cont_spec mx my Eq). cbn [Pos.switch_Eq].
    destruct sx, sy; destruct (Pos.compare_spec mx my); decide_sign.
  - rewrite Z.min_l, Z.sub_diag, Z.mul_1_r by lia.
    pose proof (mantissa_below_larger_exponent mx my ex ey Hdx (Hny ltac:(lia)) E).
    destruct sx, sy; decide_sign.
  - rewrite Z.min_r, Z.sub_diag, Z.mul_1_r by lia.
    pose proof (mantissa_below_larger_exponent my mx ey ex Hdy (Hnx ltac:(lia)) E).
    destruct sx, sy; decide_sign.
Qed.

Lemma SFsub_ltb_zero (x y : spec_float) :
  valid_binary x = true -> valid_binary y = true ->
  SFltb (SF64sub x y) (S754_zero false) = SFltb x y.
Proof.
  intros Hx Hy.
  destruct x as [sx | sx | | sx mx ex], y as [sy | sy | | sy my ey];
    try (destruct sx; reflexivity);
    try (destruct sy; reflexivity);
    try (destruct sx, sy; reflexivity);
    try reflexivity.
  unfold SF64sub, SFsub.
  destruct (valid_finite _ _ _ Hx) as (Hex & _).
  destruct (valid_finite _ _ _ Hy) as (Hey & _).
  rewrite binary_normalize_sign by lia.
  apply aligned_difference_sign; assumption.
Qed.

(** [a - b < 0] is [a < b], for all doubles. *)
Lemma sub_ltb_zero (a b : float) : (a - b <? 0)%float = (a <? b)%float.
Proof.
  rewrite !ltb_spec, sub_spec. change (Prim2SF 0) with (S754_zero false).
  apply SFsub_ltb_zero; apply Prim2SF_valid.
Qed.

(** X13.  [trending] asks for a vector of [-1] elements on the empty
    vector.  On a vector of [n >= 1] elements it returns [n - 1] bits; bit
    [i] is 1 exactly when [x[i] - x[i+1] < 0], and this test of the code
    holds exactly when [x[i] < x[i+1]], for all doubles: the bits mark the
    strict ascents (a NaN or two equal infinities give the bit 0 either
    way). *)
Theorem trending_differences :
  trending [] = Err NegativeLength /\
  forall (h : float) (t : list float),
    exists bits,
      trending (h :: t) = Ok bits /\
      length bits = length t /\
      Forall (fun b => b = 0 \/ b = 1) bits /\
      forall i : nat,
        (i < length t)%nat ->
        nth i bits 0
        = (if (nth i (h :: t) 0 - nth (S i) (h :: t) 0 <? 0)%float
           then 1 else 0) /\
        nth i bits 0
        = (if (nth i (h :: t) 0 <? nth (S i) (h :: t) 0)%float
           then 1 else 0).
Proof.
  split; [reflexivity|]. intros h t.
  assert (Hn : 1 <= Vec.size (h :: t)) by (unfold Vec.size; cbn [length]; lia).
  exists (map (fun i => if (nth (Z.to_nat i) (h :: t) 0
                            - nth (Z.to_nat (i + 1)) (h :: t) 0 <? 0)%float
                        then 1 else 0)
              (indices (length t))).
  split.
  { rewrite (trending_spec (h :: t) Hn). do 3 f_equal. cbn [length]. lia. }
  split; [now rewrite length_map, indices_length|]. split.
  - apply Forall_map, Forall_forall. intros i _.
    destruct (_ <? _)%float; auto.
  - intros i Hi.
    rewrite (nth_map_indices
               (fun i => if (nth (Z.to_nat i) (h :: t) 0
                             - nth (Z.to_nat (i + 1)) (h :: t) 0 <? 0)%float
                         then 1 else 0)) by exact Hi.
    rewrite Nat2Z.id.
    replace (Z.to_nat (Z.of_nat i + 1)) with (S i) by lia.
    split; [reflexivity|]. now rewrite sub_ltb_zero.
Qed.

(** ** Where the results come from *)

(** X26.  On a non-empty vector without NaN the median is made of elements
    of the vector: for an odd length it is one of the elements itself, for
    an even length it is half the sum of two of them. *)
Theorem medianC_from_elements (select : list float -> nat -> list float)
    (h : heap) (x : loc) (v : list float) :
  nth_element_post select ->
  deref h x = Ok v -> v <> [] ->
  Forall (fun e => is_nan e = false) v ->
  exists (h' : heap) (r : float),
    medianC select h x = Ok (h', r) /\
    ((length v mod 2 = 1)%nat -> In r v) /\
    ((length v mod 2 = 0)%nat ->
     exists y1 y2, In y1 v /\ In y2 v /\ r = ((y1 + y2) / 2)%float).
Proof.
  intros Hsel Hx Hne Hnan.
  destruct (medianC_spec select h x v (sort v) Hsel Hx Hne Hnan
              (sort_perm v) (sort_sorted v Hnan))
    as (y & y1 & y2 & Hrun & Hin1 & _ & Heven).
  eexists. eexists. split; [exact Hrun|]. split.
  - intros Hodd. rewrite Hodd. exact Hin1.
  - intros H0. rewrite H0. cbn [Nat.eqb].
    destruct (Heven H0) as [Hin2 _]. exists y1, y2. auto.
Qed.

Lemma medianC_from_elements_witness :
  nth_element_post select_by_sort /\
  exists (h' : heap) (r : float),
    medianC select_by_sort [[4; 1; 3]%float] 0%nat = Ok (h', r) /\
    ((length [4; 1; 3]%float mod 2 = 1)%nat -> In r [4; 1; 3]%float) /\
    ((length [4; 1; 3]%float mod 2 = 0)%nat ->
     exists y1 y2,
       In y1 [4; 1; 3]%float /\ In y2 [4; 1; 3]%float /\
       r = ((y1 + y2) / 2)%float).
Proof.
  split; [exact select_by_sort_post|].
  apply (medianC_from_elements select_by_sort [[4; 1; 3]%float] 0%nat
           [4; 1; 3]%float select_by_sort_post).
  - reflexivity.
  - discriminate.
  - repeat (apply Forall_cons; [reflexivity|]). apply Forall_nil.
Defined.

Lemma max_or_zero_le_sum (l : list Z) :
  Forall (fun e => 0 <= e) l -> 0 <= max_or_zero l <= sumZ l.
Proof.
  unfold max_or_zero, sumZ.
  induction 1 as [|a l Ha Hl IH]; cbn [fold_right]; lia.
Qed.

Lemma length_le_sum (l : list Z) :
  Forall (fun e => 1 <= e) l -> Vec.size l <= sumZ l.
Proof.
  unfold Vec.size, sumZ.
  induction 1 as [|a l Ha Hl IH]; cbn [fold_right length]; lia.
Qed.

Lemma hd_le_sum (l : list Z) :
  Forall (fun e => 1 <= e) l -> 0 <= hd 0 l <= sumZ l.
Proof.
  intros H. destruct l as [|a l]; [cbn; lia|].
  pose proof (elem_le_sum (a :: l) a H (or_introl eq_refl)). cbn [hd]. lia.
Qed.

Lemma last_le_sum (l : list Z) :
  Forall (fun e => 1 <= e) l -> 0 <= last l 0 <= sumZ l.
Proof.
  intros H. destruct l as [|a l]; [cbn; lia|].
  assert (Hin : In (last (a :: l) 0) (a :: l)).
  { destruct (exists_last (l := a :: l) ltac:(discriminate)) as (l' & b & E).
    rewrite E, last_last. apply in_or_app. right. left. reflexivity. }
  pose proof (elem_le_sum (a :: l) _ H Hin). lia.
Qed.

(** X27.  The values of [repr_feaclip] are counts: on a non-empty vector
    of [n < 2^53] elements each of the eight values is a whole number
    between [0] and [n], converted to [double] without rounding. *)
Theorem repr_feaclip_whole_numbers (x : list float) :
  x <> [] -> Vec.size x < 2 ^ 53 ->
  exists ks,
    repr_feaclip x = Ok (map int_to_double ks) /\
    length ks = 8%nat /\
    Forall (fun k => 0 <= k <= Vec.size x) ks.
Proof.
  intros Hne Hx. destruct x as [|h t]; [congruence|].
  destruct (clipping_nonempty h t) as (b & bits & Hclip).
  destruct (clipping_bit_values (h :: t) (b :: bits) Hclip) as [Hlen _].
  destruct (repr_feaclip_value (h :: t) (b :: bits) Hclip)
    as (r & Hr & Hlv & Hpos & Hsum & Hval); [discriminate|].
  set (ls := lengths r) in *.
  set (vs := map double_to_int (values r)) in *.
  assert (Hn : sumZ ls = Vec.size (h :: t)).
  { rewrite Hsum. unfold Vec.size. now rewrite length_map, Hlen. }
  assert (H0 : Forall (fun l => 0 <= l) ls)
    by (eapply Forall_impl; [|exact Hpos]; intros; cbn beta in *; lia).
  assert (Hsel : forall v, 0 <= sumZ (run_lengths v ls vs) <= sumZ ls)
    by (intros v; apply select_lengths_sum; exact H0).
  assert (Hmax : forall v, 0 <= max_or_zero (run_lengths v ls vs) <= sumZ ls).
  { intros v.
    pose proof (max_or_zero_le_sum (run_lengths v ls vs)
                  (select_lengths_Forall _ _ ls vs H0)).
    specialize (Hsel v). lia. }
  pose proof (length_le_sum ls Hpos) as Hcount.
  pose proof (hd_le_sum ls Hpos) as Hhd.
  pose proof (last_le_sum ls Hpos) as Hlast.
  assert (Hruns : 1 <= Vec.size (values r)).
  { unfold Vec.size. rewrite <- Hlv.
    destruct ls as [|l ls']; [|cbn [length]; lia].
    cbn in Hn. unfold Vec.size in Hn. cbn [length] in Hn. lia. }
  assert (Hsz : Vec.size (values r) = Vec.size ls)
    by (unfold Vec.size; now rewrite Hlv).
  exists [ max_or_zero (run_lengths 1 ls vs);
           sumZ (run_lengths 1 ls vs);
           max_or_zero (run_lengths 0 ls vs);
           Vec.size (values r) - 1;
           (if hd 0 vs =? 0 then hd 0 ls else 0);
           (if last vs 0 =? 0 then last ls 0 else 0);
           (if hd 0 vs =? 1 then hd 0 ls else 0);
           (if last vs 0 =? 1 then last ls 0 else 0) ].
  split.
  { rewrite Hval. cbn [map]. do 2 f_equal.
    change 0%float with (int_to_double 0).
    rewrite accumulate_int_exact;
      [f_equal; lia | apply select_lengths_Forall; exact H0 | lia |].
    specialize (Hsel 1). lia. }
  split; [reflexivity|].
  rewrite <- Hn.
  repeat (apply Forall_cons; [|]); try apply Forall_nil;
    try apply Hmax; try apply Hsel; try lia;
    match goal with
    | |- context [if ?c then _ else _] => destruct c
    end; lia.
Qed.

Lemma repr_feaclip_whole_numbers_witness :
  [1; 3; 2; 5; 4]%float <> [] /\
  exists ks,
    repr_feaclip [1; 3; 2; 5; 4]%float = Ok (map int_to_double ks) /\
    length ks = 8%nat /\
    Forall (fun k => 0 <= k <= Vec.size [1; 3; 2; 5; 4]%float) ks.
Proof.
  assert (H : [1; 3; 2; 5; 4]%float <> []) by discriminate.
  split; [exact H|].
  apply (repr_feaclip_whole_numbers [1; 3; 2; 5; 4]%float H). reflexivity.
Defined.
